(** * Translator Pro: the chunked translation runner

    A shallow embedding of [TranslationWorker] (src/main.py, lines 44-167)
    and of the guard of [TranslatorApp.translate_text] (lines 1113-1161),
    with the properties of the runner stated and proved over it; then the
    slots of the worker's signals (lines 1163-1184), the settings dialog
    (lines 556-565, 967-983) and the window and its worker over time. *)

From Stdlib Require Import ZArith QArith Qround Qpower Qabs Lqa Lia.
From Stdlib Require Import Ascii String DecimalString Sorted.
From Stdlib Require Import SpecFloat.
From stdpp Require Import base list gmap sorting.

Local Open Scope nat_scope.

(** ** Python values

    A Python [str] is a sequence of Unicode code points; [len] and slicing
    count code points.  A character is its code point. *)

Definition char := N.
Definition str := list N.

(** An ASCII literal of the source as a [str]. *)
Fixpoint lit (s : string) : str :=
  match s with
  | EmptyString => []
  | String a s' => N_of_ascii a :: lit s'
  end.

(** [str(n)] and [f"{n}"] for a non-negative [int]. *)
Definition str_of_nat (n : nat) : str :=
  lit (NilEmpty.string_of_uint (Nat.to_uint n)).

(** [range(start, stop, step)] for a positive [step]: [start], [start+step],
    ... while below [stop].  The fuel [stop - start] bounds the number of
    elements. *)
Fixpoint range_from (fuel i stop step : nat) : list nat :=
  match fuel with
  | O => []
  | S fuel' =>
      if i <? stop then i :: range_from fuel' (i + step) stop step else []
  end.

Definition py_range (start stop step : nat) : list nat :=
  range_from (stop - start) start stop step.

(** [s[a:b]] for [0 <= a <= b]; past the end the slice is cut, as in Python. *)
Definition py_slice {A} (s : list A) (a b : nat) : list A :=
  take (b - a) (drop a s).

(** ** Chunking (line 65)

    [chunks = [self.text[i:i+4500] for i in range(0, len(self.text), 4500)]] *)

Definition chunks_of {A} (size : nat) (text : list A) : list (list A) :=
  map (fun i => py_slice text i (i + size)) (py_range 0 (length text) size).

Definition CHUNK_SIZE : nat := 4500.

Definition make_chunks {A} (text : list A) : list (list A) :=
  chunks_of CHUNK_SIZE text.

(** ** Strings *)

(** [str.isspace] on one character: the code points Python treats as
    whitespace. *)
Definition isspace (c : char) : bool :=
  ((9 <=? c) && (c <=? 13) || (28 <=? c) && (c <=? 32)
   || (c =? 133) || (c =? 160) || (c =? 5760)
   || (8192 <=? c) && (c <=? 8202)
   || (c =? 8232) || (c =? 8233) || (c =? 8239) || (c =? 8287)
   || (c =? 12288))%N.

Fixpoint lstrip (s : str) : str :=
  match s with
  | c :: s' => if isspace c then lstrip s' else s
  | [] => []
  end.

Definition rstrip (s : str) : str := rev (lstrip (rev s)).

(** [s.strip()]: whitespace is removed at both ends. *)
Definition strip (s : str) : str := rstrip (lstrip s).

(** [s.upper()].  Python upper-cases character by character; an ASCII
    letter [a-z] becomes [A-Z], any other ASCII character is kept, and a
    character outside ASCII is mapped by the Unicode tables [unicode_upper]
    (to one or several characters). *)
Definition upper_char (unicode_upper : char -> list char) (c : char) : list char :=
  if ((97 <=? c) && (c <=? 122))%N then [(c - 32)%N]
  else if (c <? 128)%N then [c]
  else unicode_upper c.

Definition py_upper (unicode_upper : char -> list char) (s : str) : str :=
  flat_map (upper_char unicode_upper) s.

(** [s == t] on strings. *)
Definition str_eqb (s t : str) : bool := bool_decide (s = t).

(** ** Floating point

    A finite [float] is the rational it denotes.  [binary64_round x] is the
    double nearest to [x], ties to even: the significand has 53 bits, the
    exponent of the last place is at least -1074.  The operations below are
    the correctly rounded ones of IEEE 754 where the result is in range
    (below 2^1024), which is where the runner uses them. *)

Definition float := Q.

Definition round_half_even (x : Q) : Z :=
  let f := Qfloor x in
  match (x - inject_Z f ?= 1 # 2)%Q with
  | Lt => f
  | Gt => (f + 1)%Z
  | Eq => if Z.even f then f else (f + 1)%Z
  end.

(** [floor (log2 x)] for a positive [x]. *)
Definition ilog2 (x : Q) : Z :=
  let l := (Z.log2 (Qnum x) - Z.log2 (Zpos (Qden x)))%Z in
  if Qle_bool (2 ^ l)%Q x then l else (l - 1)%Z.

(** The exponent of the unit in the last place of the doubles around [x]. *)
Definition ulp_exp (x : Q) : Z := Z.max (ilog2 x - 52) (-1074).

Definition round_pos (x : Q) : Q :=
  (inject_Z (round_half_even (x / 2 ^ ulp_exp x)) * 2 ^ ulp_exp x)%Q.

Definition binary64_round (x : Q) : float :=
  match (x ?= 0)%Q with
  | Eq => 0%Q
  | Gt => round_pos x
  | Lt => (- round_pos (- x))%Q
  end.

(** [float(n)] *)
Definition float_of_int (n : Z) : float := binary64_round (inject_Z n).

(** [x * y] on floats *)
Definition float_mul (x y : float) : float := binary64_round (x * y).

(** [int(x)]: truncation towards zero *)
Definition int_of_float (x : float) : Z :=
  if Qle_bool 0 x then Qfloor x else Qceiling x.

(** ** Signals, effects and the outside world *)

(** What a backend adapter sends out. *)
Inductive net_call :=
  | GoogletransCall (chunk dest : str)
      (* Translator().translate(chunk, dest=...), 30 s client timeout *)
  | DeepTranslatorCall (chunk target : str)
      (* GoogleTranslator(source='auto', target=...).translate(chunk) *)
  | DeeplCall (auth_key chunk target_lang : str).
      (* deepl.Translator(auth_key).translate_text(chunk, target_lang=...) *)

(** What comes back: the translated text, or an exception [e] with
    [str(e) = msg].  A library that cannot be imported, a timeout, a
    provider error, and a result that is not a string (the concatenation in
    the same [try] block then raises [TypeError]) are all [Raised]. *)
Inductive reply :=
  | Returned (text : str)
  | Raised (msg : str).

Inductive event :=
  | StatusUpdate (msg : str)        (* self.status_update.emit(msg) *)
  | Progress (value : Z)            (* self.progress.emit(value) *)
  | TranslationDone (text : str)    (* self.translation_done.emit(text) *)
  | TranslationError (msg : str)    (* self.translation_error.emit(msg) *)
  | Sleep (seconds : Z)             (* time.sleep(seconds) *)
  | ReadIsRunning (b : bool)        (* a read of self._is_running *)
  | Net (i attempt : nat) (call : net_call) (r : reply).
      (* the backend call of attempt [attempt] for chunk [i], and its result *)

(** The world a run executes in.
    - [backend_reply i attempt call]: how the backend answers the call made
      at attempt [attempt] (from 0) for chunk [i] (from 0);
    - [is_running i]: the value of the flag [_is_running], which [stop()]
      clears from the UI thread, as read at the top of iteration [i];
    - [unicode_upper]: the uppercase mapping of non-ASCII characters. *)
Record env := {
  backend_reply : nat -> nat -> net_call -> reply;
  is_running : nat -> bool;
  unicode_upper : char -> list char
}.

(** The fields set by [TranslationWorker.__init__]. *)
Record TranslationWorker := {
  text : str;
  target_lang : str;
  translation_backend : str;
  deepl_api_key : str
}.

(** ** A monad for the effects of [run]: the events of a computation, and
    its value or the exception it raised. *)

Inductive res (A : Type) :=
  | Ok (a : A)
  | Exc (msg : str).
Arguments Ok {A} a.
Arguments Exc {A} msg.

Definition M (A : Type) : Type := list event * res A.

Definition M_ret {A} (a : A) : M A := ([], Ok a).

Definition M_bind {A B} (k : A -> M B) (m : M A) : M B :=
  match m with
  | (t, Ok a) => let '(t', r) := k a in (t ++ t', r)
  | (t, Exc e) => (t, Exc e)
  end.

#[global] Instance M_mret : MRet M := @M_ret.
#[global] Instance M_mbind : MBind M := @M_bind.

Definition raise {A} (msg : str) : M A := ([], Exc msg).
Definition emit (e : event) : M unit := ([e], Ok tt).

(** [try: m  except Exception as e: handler e] *)
Definition try_except {A} (m : M A) (handler : str -> M A) : M A :=
  match m with
  | (t, Ok a) => (t, Ok a)
  | (t, Exc e) => let '(t', r) := handler e in (t ++ t', r)
  end.

Definition events {A} (m : M A) : list event := fst m.
Definition result {A} (m : M A) : res A := snd m.

(** ** The backend adapters (lines 113-163) *)

(** One call to the outside: the event is recorded, a [Raised] reply
    becomes an exception of the caller. *)
Definition net_request (E : env) (i attempt : nat) (call : net_call) : M str :=
  let r := backend_reply E i attempt call in
  ([Net i attempt call r],
   match r with
   | Returned t => Ok t
   | Raised msg => Exc msg
   end).

Definition _translate_with_googletrans
    (w : TranslationWorker) (E : env) (i attempt : nat) (chunk : str) : M str :=
  net_request E i attempt (GoogletransCall chunk (target_lang w)).

Definition _translate_with_deep_translator
    (w : TranslationWorker) (E : env) (i attempt : nat) (chunk : str) : M str :=
  net_request E i attempt (DeepTranslatorCall chunk (target_lang w)).

(** The dictionary literal [deepl_lang_map] (lines 152-159). *)
Definition deepl_lang_items : list (str * str) :=
  [ (lit "en", lit "EN-US"); (lit "es", lit "ES"); (lit "fr", lit "FR");
    (lit "de", lit "DE"); (lit "it", lit "IT");
    (lit "pt", lit "PT-PT"); (lit "pl", lit "PL"); (lit "ru", lit "RU");
    (lit "ja", lit "JA"); (lit "zh", lit "ZH");
    (lit "nl", lit "NL"); (lit "sv", lit "SV"); (lit "da", lit "DA");
    (lit "fi", lit "FI"); (lit "el", lit "EL");
    (lit "cs", lit "CS"); (lit "ro", lit "RO"); (lit "hu", lit "HU");
    (lit "sk", lit "SK"); (lit "bg", lit "BG");
    (lit "et", lit "ET"); (lit "lv", lit "LV"); (lit "lt", lit "LT");
    (lit "sl", lit "SL"); (lit "tr", lit "TR");
    (lit "id", lit "ID"); (lit "uk", lit "UK"); (lit "ko", lit "KO");
    (lit "no", lit "NB") ].

Definition deepl_lang_map : gmap str str := list_to_map deepl_lang_items.

(** [d.get(key, default)] *)
Definition dict_get (d : gmap str str) (key default : str) : str :=
  match d !! key with
  | Some v => v
  | None => default
  end.

(** Line 161:
    [deepl_lang_map.get(self.target_lang, self.target_lang.upper())] *)
Definition deepl_target_lang (E : env) (code : str) : str :=
  dict_get deepl_lang_map code (py_upper (unicode_upper E) code).

Definition _translate_with_deepl
    (w : TranslationWorker) (E : env) (i attempt : nat) (chunk : str) : M str :=
  if bool_decide (deepl_api_key w = []) then
    raise (lit "DeepL API key is required. Please configure it in Settings.")
  else
    net_request E i attempt
      (DeeplCall (deepl_api_key w) chunk (deepl_target_lang E (target_lang w))).

Definition _translate_chunk
    (w : TranslationWorker) (E : env) (i attempt : nat) (chunk : str) : M str :=
  if str_eqb (translation_backend w) (lit "googletrans") then
    _translate_with_googletrans w E i attempt chunk
  else if str_eqb (translation_backend w) (lit "deep-translator") then
    _translate_with_deep_translator w E i attempt chunk
  else if str_eqb (translation_backend w) (lit "deepl") then
    _translate_with_deepl w E i attempt chunk
  else
    raise (lit "Unknown translation backend: " ++ translation_backend w).

(** ** [TranslationWorker.run] (lines 59-111) *)

Definition max_retries : nat := 3.

Definition retry_status (attempt i : nat) : str :=
  lit "Retry " ++ str_of_nat attempt ++ lit "/" ++ str_of_nat (max_retries - 1)
  ++ lit " for chunk " ++ str_of_nat (i + 1) ++ lit "...".

Definition failed_after (retry_error : str) : str :=
  lit "Translation failed after " ++ str_of_nat max_retries
  ++ lit " attempts. Error: " ++ retry_error.

(** The retry loop [for attempt in range(max_retries)] (lines 83-100) over
    the attempts still to make.  The status update, the sleep and the
    doubling of [retry_delay] stand first in the [try] block and cannot
    raise, so that the doubled delay is kept when the call after them
    fails.  A success leaves the loop ([break]) with the extended
    [translated_text]; a failure of the last attempt raises. *)
Fixpoint retry_loop (w : TranslationWorker) (E : env) (i : nat) (chunk : str)
    (attempts : list nat) (retry_delay : Z) (translated_text : str) : M str :=
  match attempts with
  | [] => mret translated_text
  | attempt :: rest =>
      retry_delay' ←
        (if 0 <? attempt then
           emit (StatusUpdate (retry_status attempt i));;
           emit (Sleep retry_delay);;
           mret (retry_delay * 2)%Z
         else mret retry_delay);
      try_except
        (translated_chunk ← _translate_chunk w E i attempt chunk;
         mret (translated_text ++ translated_chunk ++ lit " "))
        (fun retry_error =>
           if attempt =? max_retries - 1 then raise (failed_after retry_error)
           else retry_loop w E i chunk rest retry_delay' translated_text)
  end.

(** Line 102: [int((i + 1) / total_chunks * 100)].  The quotient of two
    [int]s is the correctly rounded double; a zero divisor raises. *)
Definition py_truediv (a b : Z) : M float :=
  if (b =? 0)%Z then raise (lit "division by zero")
  else mret (binary64_round (inject_Z a / inject_Z b)).

Definition progress_percent (completed total_chunks : nat) : M Z :=
  q ← py_truediv (Z.of_nat completed) (Z.of_nat total_chunks);
  mret (int_of_float (float_mul q (float_of_int 100))).

Definition processing_status (i total_chunks : nat) : str :=
  lit "Processing chunk " ++ str_of_nat (i + 1) ++ lit "/"
  ++ str_of_nat total_chunks ++ lit "...".

(** The loop [for i, chunk in enumerate(chunks)] (lines 71-103) from
    iteration [i] on.  The value is [None] when the loop left [run] by
    [return], and the accumulated text when it ran to its end. *)
Fixpoint chunk_loop (w : TranslationWorker) (E : env) (total_chunks : nat)
    (i : nat) (chunks : list str) (translated_text : str) : M (option str) :=
  match chunks with
  | [] => mret (Some translated_text)
  | chunk :: rest =>
      let running := is_running E i in
      emit (ReadIsRunning running);;
      if negb running then mret None
      else
        emit (StatusUpdate (processing_status i total_chunks));;
        translated_text' ←
          retry_loop w E i chunk (py_range 0 max_retries 1) 2 translated_text;
        progress ← progress_percent (i + 1) total_chunks;
        emit (Progress progress);;
        chunk_loop w E total_chunks (i + 1) rest translated_text'
  end.

Definition run_body (w : TranslationWorker) (E : env) : M unit :=
  let chunks := make_chunks (text w) in
  let total_chunks := length chunks in
  emit (StatusUpdate (lit "Translating " ++ str_of_nat total_chunks
                      ++ lit " chunk(s)..."));;
  r ← chunk_loop w E total_chunks 0 chunks [];
  match r with
  | None => mret tt
  | Some translated_text => emit (TranslationDone (strip translated_text))
  end.

(** [run]: everything the worker does, in order.  The outer handler
    (lines 107-111) turns an exception into the error signal. *)
Definition run (w : TranslationWorker) (E : env) : list event :=
  events (try_except (run_body w E)
                     (fun e => emit (TranslationError e))).

(** ** Outcomes *)

Inductive outcome :=
  | Success (translated_text : str)
  | Failure (error_description : str).

(** The outcomes a trace delivers, in order. *)
Fixpoint outcomes (tr : list event) : list outcome :=
  match tr with
  | [] => []
  | TranslationDone t :: tr' => Success t :: outcomes tr'
  | TranslationError e :: tr' => Failure e :: outcomes tr'
  | _ :: tr' => outcomes tr'
  end.

Definition is_read (e : event) : bool :=
  match e with ReadIsRunning _ => true | _ => false end.

Definition is_net (e : event) : bool :=
  match e with Net _ _ _ _ => true | _ => false end.

Definition is_sleep (e : event) : bool :=
  match e with Sleep _ => true | _ => false end.

Definition count (p : event -> bool) (tr : list event) : nat :=
  length (filter (fun e => p e = true) tr).

(** ** Notions used in the statements *)

Definition retry_pause (attempt i : nat) (delay : Z) : list event :=
  [StatusUpdate (retry_status attempt i); Sleep delay].

Definition reply_res (r : reply) : res str :=
  match r with Returned t => Ok t | Raised msg => Exc msg end.

(** The events of a retry loop: status updates, sleeps, and calls for the
    chunk at hand. *)
Definition retry_event (i : nat) (e : event) : bool :=
  match e with
  | StatusUpdate _ | Sleep _ => true
  | Net j _ _ _ => j =? i
  | _ => false
  end.

(** The value of [int(k / n * 100)]. *)
Definition percentZ (k n : Z) : Z :=
  int_of_float
    (float_mul (binary64_round (inject_Z k / inject_Z n)) (float_of_int 100)).

Definition percent (completed total_chunks : nat) : Z :=
  percentZ (Z.of_nat completed) (Z.of_nat total_chunks).

Definition chunk_start (i total_chunks : nat) : list event :=
  [ReadIsRunning true; StatusUpdate (processing_status i total_chunks)].

Definition translating_status (total_chunks : nat) : str :=
  lit "Translating " ++ str_of_nat total_chunks ++ lit " chunk(s)...".

Definition is_returned (e : event) : bool :=
  match e with Net _ _ _ (Returned _) => true | _ => false end.

(** Each backend call paired with the number of flag reads before it. *)
Fixpoint calls_with_reads (reads : nat) (tr : list event) : list (nat * nat) :=
  match tr with
  | [] => []
  | ReadIsRunning _ :: tr' => calls_with_reads (S reads) tr'
  | Net i _ _ _ :: tr' => (i, reads) :: calls_with_reads reads tr'
  | _ :: tr' => calls_with_reads reads tr'
  end.

(** What follows the first read of the flag that returned [False]. *)
Fixpoint after_cancel (tr : list event) : list event :=
  match tr with
  | [] => []
  | ReadIsRunning false :: tr' => tr'
  | _ :: tr' => after_cancel tr'
  end.

Definition cancel_seen (tr : list event) : bool :=
  existsb (fun e => match e with ReadIsRunning false => true | _ => false end) tr.

(** Each progress value paired with the chunk whose translation was
    returned since the previous progress value, if any. *)
Fixpoint progress_log (last : option nat) (tr : list event) : list (option nat * Z) :=
  match tr with
  | [] => []
  | Net i _ _ (Returned _) :: tr' => progress_log (Some i) tr'
  | Progress p :: tr' => (last, p) :: progress_log None tr'
  | _ :: tr' => progress_log last tr'
  end.

Fixpoint progress_values (tr : list event) : list Z :=
  match tr with
  | [] => []
  | Progress p :: tr' => p :: progress_values tr'
  | _ :: tr' => progress_values tr'
  end.

(** The translation the retry loop obtains for a chunk: what the first
    successful attempt among the three returns. *)
Definition first_success (w : TranslationWorker) (E : env) (i : nat) (chunk : str)
    : option str :=
  match result (_translate_chunk w E i 0 chunk) with
  | Ok t => Some t
  | Exc _ =>
      match result (_translate_chunk w E i 1 chunk) with
      | Ok t => Some t
      | Exc _ =>
          match result (_translate_chunk w E i 2 chunk) with
          | Ok t => Some t
          | Exc _ => None
          end
      end
  end.

(** The world [E], except that the first call for chunk [j] returns [t]. *)
Definition succeeding_at_first (E : env) (j : nat) (t : str) : env :=
  {| backend_reply := fun i a call =>
       if (i =? j) && (a =? 0) then Returned t else backend_reply E i a call;
     is_running := is_running E;
     unicode_upper := unicode_upper E |}.

(** The outcome a run ends with, from the result of its chunk loop. *)
Definition final_outcome (r : res (option str)) : list outcome :=
  match r with
  | Ok (Some t) => [Success (strip t)]
  | Ok None => []
  | Exc e => [Failure e]
  end.

(** The same value computed with the IEEE 754 operations of the standard
    library's specification of floating-point arithmetic ([SpecFloat]), at
    the parameters of binary64: precision 53, [emax] 1024. *)
Definition SF64_of_Z (n : Z) : spec_float :=
  match n with
  | Zpos p => binary_round 53 1024 false p 0
  | Zneg p => binary_round 53 1024 true p 0
  | Z0 => S754_zero false
  end.

Definition SF2Q (x : spec_float) : option Q :=
  match x with
  | S754_zero _ => Some 0%Q
  | S754_finite s m e =>
      Some ((if s then -1 else 1) * inject_Z (Zpos m) * 2 ^ e)%Q
  | _ => None
  end.

Definition percent_SF (k n : Z) : option Z :=
  match SF2Q (SFmul 53 1024 (SFdiv 53 1024 (SF64_of_Z k) (SF64_of_Z n))
                (SF64_of_Z 100)) with
  | Some y => Some (int_of_float y)
  | None => None
  end.

Definition Z_range (lo hi : Z) : list Z :=
  map (fun i => (lo + Z.of_nat i)%Z) (seq 0 (Z.to_nat (hi + 1 - lo))).

(** The world of [E] in which [stop()] is never called. *)
Definition never_stopped (E : env) : env :=
  {| backend_reply := backend_reply E;
     is_running := fun _ => true;
     unicode_upper := unicode_upper E |}.

(** ** The translate button ([TranslatorApp.translate_text], lines 1113-1161) *)

(** The worker object held in [self.worker]: its fields, the flag
    [_is_running], and whether its thread is running ([isRunning()]). *)
Record WorkerHandle := {
  handle_worker : TranslationWorker;
  handle_is_running : bool;
  handle_thread_running : bool
}.

(** The part of the window [translate_text] reads and writes. *)
Record TranslatorApp := {
  source_text : str;               (* self.source_text.toPlainText() *)
  target_lang_name : str;          (* self.target_lang.currentText() *)
  lang_map : gmap str str;         (* self.lang_map *)
  worker : option WorkerHandle;    (* self.worker *)
  app_translation_backend : str;   (* self.translation_backend *)
  app_deepl_api_key : str;         (* self.deepl_api_key *)
  progress_bar_visible : bool;
  progress_bar_value : Z;
  translate_button_enabled : bool;
  translate_button_text : str;
  status_label : str;
  target_text : str                (* where an outcome is displayed *)
}.

(** What [translate_text] does to worker threads. *)
Inductive ui_action :=
  | WorkerStop                     (* self.worker.stop() on the old worker *)
  | WorkerQuit                     (* self.worker.quit() *)
  | WorkerWait (ms : Z)            (* self.worker.wait(ms) *)
  | WorkerStart (w : TranslationWorker).
      (* a new TranslationWorker(...), its signals connected, start() *)

Definition PLACEHOLDER : str := lit "Enter or paste your text here...".

(** U+26A0 and the warning of line 1119. *)
Definition please_enter_text : str :=
  9888%N :: lit " Please enter text to translate".

Definition translate_text (app : TranslatorApp) : TranslatorApp * list ui_action :=
  let source := source_text app in
  if bool_decide (source = []) || str_eqb source PLACEHOLDER then
    ({| source_text := source_text app;
        target_lang_name := target_lang_name app;
        lang_map := lang_map app;
        worker := worker app;
        app_translation_backend := app_translation_backend app;
        app_deepl_api_key := app_deepl_api_key app;
        progress_bar_visible := progress_bar_visible app;
        progress_bar_value := progress_bar_value app;
        translate_button_enabled := translate_button_enabled app;
        translate_button_text := translate_button_text app;
        status_label := please_enter_text;
        target_text := target_text app |},
     [])
  else
    let target_lang_code := dict_get (lang_map app) (target_lang_name app) (lit "en") in
    let cleanup :=
      match worker app with
      | None => []
      | Some old =>
          WorkerStop
          :: (if handle_thread_running old then [WorkerQuit; WorkerWait 1000] else [])
      end in
    let w := {| text := source;
                target_lang := target_lang_code;
                translation_backend := app_translation_backend app;
                deepl_api_key := app_deepl_api_key app |} in
    ({| source_text := source_text app;
        target_lang_name := target_lang_name app;
        lang_map := lang_map app;
        worker := Some {| handle_worker := w;
                          handle_is_running := true;
                          handle_thread_running := true |};
        app_translation_backend := app_translation_backend app;
        app_deepl_api_key := app_deepl_api_key app;
        progress_bar_visible := true;
        progress_bar_value := 0;
        translate_button_enabled := false;
        translate_button_text := lit "Translating...";
        status_label := lit "Translating to " ++ target_lang_name app ++ lit "...";
        target_text := target_text app |},
     cleanup ++ [WorkerStart w]).

(** The workers an action list starts, and the outcomes their runs deliver
    in the world [E]. *)
Definition started (actions : list ui_action) : list TranslationWorker :=
  omap (fun a => match a with WorkerStart w => Some w | _ => None end) actions.

Definition delivered (E : env) (actions : list ui_action) : list outcome :=
  flat_map (fun w => outcomes (run w E)) (started actions).

(** A window as [__init__] leaves it, with [source] typed in. *)
Definition fresh_app (source : str) : TranslatorApp :=
  {| source_text := source;
     target_lang_name := lit "Spanish";
     lang_map := {[ lit "Spanish" := lit "es" ]};
     worker := None;
     app_translation_backend := lit "googletrans";
     app_deepl_api_key := [];
     progress_bar_visible := false;
     progress_bar_value := 0;
     translate_button_enabled := true;
     translate_button_text := lit "Translate";
     status_label := lit "Ready to translate";
     target_text := [] |}.

(** ** Concrete workers and worlds *)

(** A world in which every call returns [t] and [stop()] is never called. *)
Definition env_returning (t : str) : env :=
  {| backend_reply := fun _ _ _ => Returned t;
     is_running := fun _ => true;
     unicode_upper := fun c => [c] |}.

(** A world in which every call raises [msg]. *)
Definition env_raising (msg : str) : env :=
  {| backend_reply := fun _ _ _ => Raised msg;
     is_running := fun _ => true;
     unicode_upper := fun c => [c] |}.

(** A worker for the text "hi" and the target language "es". *)
Definition worker_hi (backend key : str) : TranslationWorker :=
  {| text := lit "hi";
     target_lang := lit "es";
     translation_backend := backend;
     deepl_api_key := key |}.

Definition deepl_key_required : str :=
  lit "DeepL API key is required. Please configure it in Settings.".

(** A world in which every call returns [t] and [stop()] is called from the
    UI thread after the worker has read the flag [s] times: the reads of
    iterations [0 .. s-1] see [True], a later read would see [False]. *)
Definition env_stopped_after (s : nat) (t : str) : env :=
  {| backend_reply := fun _ _ _ => Returned t;
     is_running := fun i => i <? s;
     unicode_upper := fun c => [c] |}.

(** A world in which the first two calls for each chunk raise [msg] and the
    third returns [t]. *)
Definition env_third_time (msg t : str) : env :=
  {| backend_reply := fun _ a _ => if a <? 2 then Raised msg else Returned t;
     is_running := fun _ => true;
     unicode_upper := fun c => [c] |}.

(** A worker for a text of 100 chunks: 450000 times the letter 'a'. *)
Definition worker_100_chunks : TranslationWorker :=
  {| text := replicate (100 * 4500) 97%N;
     target_lang := lit "es";
     translation_backend := lit "googletrans";
     deepl_api_key := [] |}.

(** A worker for a text of two chunks: 4501 times the letter 'a'. *)
Definition worker_two_chunks : TranslationWorker :=
  {| text := replicate 4501 97%N;
     target_lang := lit "es";
     translation_backend := lit "googletrans";
     deepl_api_key := [] |}.

(** ** Further notions on traces *)

(** The seconds a trace spends in [time.sleep]. *)
Fixpoint total_sleep (tr : list event) : Z :=
  match tr with
  | [] => 0
  | Sleep s :: tr' => s + total_sleep tr'
  | _ :: tr' => total_sleep tr'
  end.

(** The signal that delivers an outcome. *)
Definition event_of_outcome (o : outcome) : event :=
  match o with
  | Success t => TranslationDone t
  | Failure e => TranslationError e
  end.

(** What the adapter of the selected backend sends for [chunk]. *)
Definition sends (w : TranslationWorker) (E : env) (chunk : str) (call : net_call)
    : Prop :=
  (translation_backend w = lit "googletrans"
   /\ call = GoogletransCall chunk (target_lang w)) \/
  (translation_backend w = lit "deep-translator"
   /\ call = DeepTranslatorCall chunk (target_lang w)) \/
  (translation_backend w = lit "deepl" /\ deepl_api_key w <> []
   /\ call = DeeplCall (deepl_api_key w) chunk
               (deepl_target_lang E (target_lang w))).

(** The chunk and attempt of each backend call of a trace, in order. *)
Fixpoint call_keys (tr : list event) : list (nat * nat) :=
  match tr with
  | [] => []
  | Net i a _ _ :: tr' => (i, a) :: call_keys tr'
  | _ :: tr' => call_keys tr'
  end.

(** Chunk by chunk, attempt by attempt. *)
Definition key_lt (p q : nat * nat) : Prop :=
  p.1 < q.1 \/ (p.1 = q.1 /\ p.2 < q.2).

(** ** The window: what the handlers of the main thread write

    One setter for each widget property or attribute the handlers assign. *)

Definition set_source_text (v : str) (app : TranslatorApp) : TranslatorApp :=
  {| source_text := v;
     target_lang_name := target_lang_name app;
     lang_map := lang_map app;
     worker := worker app;
     app_translation_backend := app_translation_backend app;
     app_deepl_api_key := app_deepl_api_key app;
     progress_bar_visible := progress_bar_visible app;
     progress_bar_value := progress_bar_value app;
     translate_button_enabled := translate_button_enabled app;
     translate_button_text := translate_button_text app;
     status_label := status_label app;
     target_text := target_text app |}.

Definition set_target_lang_name (v : str) (app : TranslatorApp) : TranslatorApp :=
  {| source_text := source_text app;
     target_lang_name := v;
     lang_map := lang_map app;
     worker := worker app;
     app_translation_backend := app_translation_backend app;
     app_deepl_api_key := app_deepl_api_key app;
     progress_bar_visible := progress_bar_visible app;
     progress_bar_value := progress_bar_value app;
     translate_button_enabled := translate_button_enabled app;
     translate_button_text := translate_button_text app;
     status_label := status_label app;
     target_text := target_text app |}.

Definition set_worker (v : option WorkerHandle) (app : TranslatorApp) : TranslatorApp :=
  {| source_text := source_text app;
     target_lang_name := target_lang_name app;
     lang_map := lang_map app;
     worker := v;
     app_translation_backend := app_translation_backend app;
     app_deepl_api_key := app_deepl_api_key app;
     progress_bar_visible := progress_bar_visible app;
     progress_bar_value := progress_bar_value app;
     translate_button_enabled := translate_button_enabled app;
     translate_button_text := translate_button_text app;
     status_label := status_label app;
     target_text := target_text app |}.

Definition set_app_translation_backend (v : str) (app : TranslatorApp) : TranslatorApp :=
  {| source_text := source_text app;
     target_lang_name := target_lang_name app;
     lang_map := lang_map app;
     worker := worker app;
     app_translation_backend := v;
     app_deepl_api_key := app_deepl_api_key app;
     progress_bar_visible := progress_bar_visible app;
     progress_bar_value := progress_bar_value app;
     translate_button_enabled := translate_button_enabled app;
     translate_button_text := translate_button_text app;
     status_label := status_label app;
     target_text := target_text app |}.

Definition set_app_deepl_api_key (v : str) (app : TranslatorApp) : TranslatorApp :=
  {| source_text := source_text app;
     target_lang_name := target_lang_name app;
     lang_map := lang_map app;
     worker := worker app;
     app_translation_backend := app_translation_backend app;
     app_deepl_api_key := v;
     progress_bar_visible := progress_bar_visible app;
     progress_bar_value := progress_bar_value app;
     translate_button_enabled := translate_button_enabled app;
     translate_button_text := translate_button_text app;
     status_label := status_label app;
     target_text := target_text app |}.

Definition set_progress_bar_visible (v : bool) (app : TranslatorApp) : TranslatorApp :=
  {| source_text := source_text app;
     target_lang_name := target_lang_name app;
     lang_map := lang_map app;
     worker := worker app;
     app_translation_backend := app_translation_backend app;
     app_deepl_api_key := app_deepl_api_key app;
     progress_bar_visible := v;
     progress_bar_value := progress_bar_value app;
     translate_button_enabled := translate_button_enabled app;
     translate_button_text := translate_button_text app;
     status_label := status_label app;
     target_text := target_text app |}.

Definition set_progress_bar_value (v : Z) (app : TranslatorApp) : TranslatorApp :=
  {| source_text := source_text app;
     target_lang_name := target_lang_name app;
     lang_map := lang_map app;
     worker := worker app;
     app_translation_backend := app_translation_backend app;
     app_deepl_api_key := app_deepl_api_key app;
     progress_bar_visible := progress_bar_visible app;
     progress_bar_value := v;
     translate_button_enabled := translate_button_enabled app;
     translate_button_text := translate_button_text app;
     status_label := status_label app;
     target_text := target_text app |}.

Definition set_translate_button_enabled (v : bool) (app : TranslatorApp) : TranslatorApp :=
  {| source_text := source_text app;
     target_lang_name := target_lang_name app;
     lang_map := lang_map app;
     worker := worker app;
     app_translation_backend := app_translation_backend app;
     app_deepl_api_key := app_deepl_api_key app;
     progress_bar_visible := progress_bar_visible app;
     progress_bar_value := progress_bar_value app;
     translate_button_enabled := v;
     translate_button_text := translate_button_text app;
     status_label := status_label app;
     target_text := target_text app |}.

Definition set_translate_button_text (v : str) (app : TranslatorApp) : TranslatorApp :=
  {| source_text := source_text app;
     target_lang_name := target_lang_name app;
     lang_map := lang_map app;
     worker := worker app;
     app_translation_backend := app_translation_backend app;
     app_deepl_api_key := app_deepl_api_key app;
     progress_bar_visible := progress_bar_visible app;
     progress_bar_value := progress_bar_value app;
     translate_button_enabled := translate_button_enabled app;
     translate_button_text := v;
     status_label := status_label app;
     target_text := target_text app |}.

Definition set_status_label (v : str) (app : TranslatorApp) : TranslatorApp :=
  {| source_text := source_text app;
     target_lang_name := target_lang_name app;
     lang_map := lang_map app;
     worker := worker app;
     app_translation_backend := app_translation_backend app;
     app_deepl_api_key := app_deepl_api_key app;
     progress_bar_visible := progress_bar_visible app;
     progress_bar_value := progress_bar_value app;
     translate_button_enabled := translate_button_enabled app;
     translate_button_text := translate_button_text app;
     status_label := v;
     target_text := target_text app |}.

Definition set_target_text (v : str) (app : TranslatorApp) : TranslatorApp :=
  {| source_text := source_text app;
     target_lang_name := target_lang_name app;
     lang_map := lang_map app;
     worker := worker app;
     app_translation_backend := app_translation_backend app;
     app_deepl_api_key := app_deepl_api_key app;
     progress_bar_visible := progress_bar_visible app;
     progress_bar_value := progress_bar_value app;
     translate_button_enabled := translate_button_enabled app;
     translate_button_text := translate_button_text app;
     status_label := status_label app;
     target_text := v |}.

(** [f"{n:,}"]: the decimal digits of [n], a comma before each group of
    three counted from the right. *)
Fixpoint group3 (digits : list char) : list char :=
  match digits with
  | a :: b :: c :: ((_ :: _) as rest) => a :: b :: c :: 44%N :: group3 rest
  | _ => digits
  end.

Definition format_thousands (n : nat) : str :=
  rev (group3 (rev (str_of_nat n))).

(** [s.split()]: the maximal runs of characters that are not whitespace.
    [word] is the run being read, last character first. *)
Fixpoint split_from (word : str) (s : str) : list str :=
  match s with
  | [] => match word with [] => [] | _ => [rev word] end
  | c :: s' =>
      if isspace c then
        match word with
        | [] => split_from [] s'
        | _ => rev word :: split_from [] s'
        end
      else split_from (c :: word) s'
  end.

Definition py_split (s : str) : list str := split_from [] s.

(** The window with the label of the status bar that [TranslatorApp] leaves
    out. *)
Record Window := {
  window_app : TranslatorApp;
  char_count_label : str           (* self.char_count_label.text() *)
}.

(** [QProgressBar.setValue]: a value outside the range of the bar is
    ignored.  The bar is created at lines 877-880 and keeps the range Qt
    gives it, 0 to 100. *)
Definition progress_bar_setValue (value : Z) (app : TranslatorApp) : TranslatorApp :=
  if ((0 <=? value) && (value <=? 100))%Z then set_progress_bar_value value app
  else app.

(** [update_progress] (lines 1163-1165) *)
Definition update_progress (win : Window) (value : Z) : Window :=
  {| window_app := progress_bar_setValue value (window_app win);
     char_count_label := char_count_label win |}.

(** U+2713 and the message of line 1173. *)
Definition translation_complete : str := 10003%N :: lit " Translation complete!".

(** U+26A0 and the message of line 1184. *)
Definition translation_failed : str :=
  9888%N :: lit " Translation failed - Please try again".

(** [translation_finished] (lines 1167-1176).  [target_text] is the string
    handed to [self.target_text.setText]. *)
Definition translation_finished (win : Window) (translated_text : str) : Window :=
  let app := set_target_text translated_text (window_app win) in
  let app := set_progress_bar_visible false app in
  let app := set_translate_button_enabled true app in
  let app := set_translate_button_text (lit "Translate") app in
  let app := set_status_label translation_complete app in
  let word_count := length (py_split translated_text) in
  {| window_app := app;
     char_count_label :=
       lit "Words: " ++ format_thousands word_count ++ lit " | Characters: "
       ++ format_thousands (length (source_text app)) |}.

(** The f-string of line 1180; 10 is the line feed. *)
Definition error_report (error_message : str) : str :=
  lit "Translation Error:" ++ [10%N; 10%N] ++ error_message ++ [10%N; 10%N]
  ++ lit "Please try again.".

(** [translation_error] (lines 1178-1184) *)
Definition translation_error (win : Window) (error_message : str) : Window :=
  let app := set_target_text (error_report error_message) (window_app win) in
  let app := set_progress_bar_visible false app in
  let app := set_translate_button_enabled true app in
  let app := set_translate_button_text (lit "Translate") app in
  let app := set_status_label translation_failed app in
  {| window_app := app; char_count_label := char_count_label win |}.

(** The slot connected to [status_update] at line 1152:
    [lambda msg: self.status_label.setText(msg)]. *)
Definition show_status (win : Window) (msg : str) : Window :=
  {| window_app := set_status_label msg (window_app win);
     char_count_label := char_count_label win |}.

(** [update_char_count] (lines 1001-1007), the slot of [textChanged] (line
    822), once the text of the source box has become [s]. *)
Definition source_edited (win : Window) (s : str) : Window :=
  {| window_app := set_source_text s (window_app win);
     char_count_label := lit "Characters: " ++ format_thousands (length s) |}.

(** The signals of the worker, which lines 1149-1152 connect to the slots
    above; the other events of a trace are no signals. *)
Definition is_signal (e : event) : bool :=
  match e with
  | StatusUpdate _ | Progress _ | TranslationDone _ | TranslationError _ => true
  | _ => false
  end.

Definition signals (tr : list event) : list event := filter (fun e => is_signal e = true) tr.

Definition is_outcome_signal (e : event) : bool :=
  match e with
  | TranslationDone _ | TranslationError _ => true
  | _ => false
  end.

(** The slot that runs for a signal. *)
Definition handle_signal (win : Window) (e : event) : Window :=
  match e with
  | StatusUpdate msg => show_status win msg
  | Progress value => update_progress win value
  | TranslationDone translated_text => translation_finished win translated_text
  | TranslationError error_message => translation_error win error_message
  | _ => win
  end.

(** ** The settings dialog *)

(** What the dialog holds when it is closed: the radio buttons and the text
    of the key field. *)
Record SettingsDialog := {
  radio_googletrans : bool;        (* self.radio_googletrans.isChecked() *)
  radio_deep_translator : bool;    (* self.radio_deep_translator.isChecked() *)
  radio_deepl : bool;              (* self.radio_deepl.isChecked() *)
  api_key_input : str              (* self.api_key_input.text() *)
}.

(** [SettingsDialog.get_settings] (lines 556-565) *)
Definition get_settings (d : SettingsDialog) : str * str :=
  let backend :=
    if radio_googletrans d then lit "googletrans"
    else if radio_deep_translator d then lit "deep-translator"
    else lit "deepl" in
  (backend, strip (api_key_input d)).

(** [dialog.exec()], and the dialog as the user left it. *)
Inductive dialog_code :=
  | Accepted (d : SettingsDialog)
  | Rejected.

(** The dictionary literal [backend_names] (lines 976-980). *)
Definition backend_names : gmap str str :=
  list_to_map
    [ (lit "googletrans", lit "Google Translate (googletrans)");
      (lit "deep-translator", lit "Deep Translator");
      (lit "deepl", lit "DeepL API") ].

(** [TranslatorApp.open_settings] (lines 967-983).  The timer of line 983
    writes the status label three seconds later; see [SetStatus] below. *)
Definition open_settings (app : TranslatorApp) (r : dialog_code) : TranslatorApp :=
  match r with
  | Accepted d =>
      let '(backend, api_key) := get_settings d in
      let app := set_app_translation_backend backend app in
      let app := set_app_deepl_api_key api_key app in
      let backend_name := dict_get backend_names backend backend in
      set_status_label (10003%N :: lit " Backend set to: " ++ backend_name) app
  | Rejected => app
  end.

Definition recognised (backend : str) : Prop :=
  backend = lit "googletrans" \/ backend = lit "deep-translator"
  \/ backend = lit "deepl".

(** ** The window and its worker over time *)

(** The window, and the signals workers have emitted or will emit for which
    the slot has not run yet.  Signals cross from the worker thread to the
    main thread through its event queue, in the order of emission. *)
Record session := {
  window : Window;
  pending : list event
}.

(** What happens on the main thread.
    - [ClickTranslate E thread_running]: a click on the translate button;
      [E] is the world the run of a new worker executes in, and
      [thread_running] what [isRunning()] answers for the previous one;
    - [HandleSignal]: the slot of the next queued signal runs;
    - [OpenSettings r]: the settings button, with the result of the dialog;
    - [EditSource s]: the text of the source box becomes [s] (typing, Clear,
      Paste, a file);
    - [SelectTarget name]: the target language becomes [name];
    - [SetStatus msg]: another handler or a timer writes the status label. *)
Inductive ui_input :=
  | ClickTranslate (E : env) (thread_running : bool)
  | HandleSignal
  | OpenSettings (r : dialog_code)
  | EditSource (s : str)
  | SelectTarget (name : str)
  | SetStatus (msg : str).

Definition observe_thread (thread_running : bool) (app : TranslatorApp)
    : TranslatorApp :=
  match worker app with
  | None => app
  | Some h =>
      set_worker (Some {| handle_worker := handle_worker h;
                          handle_is_running := handle_is_running h;
                          handle_thread_running := thread_running |}) app
  end.

Definition on_app (f : TranslatorApp -> TranslatorApp) (s : session) : session :=
  {| window := {| window_app := f (window_app (window s));
                  char_count_label := char_count_label (window s) |};
     pending := pending s |}.

(** One step.  A button that is disabled emits no [clicked] (the connection
    is at line 894). *)
Definition ui_step (s : session) (input : ui_input) : session * list ui_action :=
  match input with
  | ClickTranslate E thread_running =>
      if translate_button_enabled (window_app (window s)) then
        let '(app, actions) :=
          translate_text (observe_thread thread_running (window_app (window s))) in
        ({| window := {| window_app := app;
                         char_count_label := char_count_label (window s) |};
            pending := pending s
                       ++ flat_map (fun w => signals (run w E)) (started actions) |},
         actions)
      else (s, [])
  | HandleSignal =>
      match pending s with
      | [] => (s, [])
      | e :: rest =>
          ({| window := handle_signal (window s) e; pending := rest |}, [])
      end
  | OpenSettings r => (on_app (fun app => open_settings app r) s, [])
  | EditSource new_text =>
      ({| window := source_edited (window s) new_text; pending := pending s |}, [])
  | SelectTarget name => (on_app (set_target_lang_name name) s, [])
  | SetStatus msg => (on_app (set_status_label msg) s, [])
  end.

Fixpoint ui_run (s : session) (inputs : list ui_input) : session * list ui_action :=
  match inputs with
  | [] => (s, [])
  | input :: rest =>
      let '(s', actions) := ui_step s input in
      let '(s'', actions') := ui_run s' rest in
      (s'', actions ++ actions')
  end.

(** The window as [__init__] leaves it (lines 573-585, 638-646), with the
    languages of [fresh_app]. *)
Definition initial_session : session :=
  {| window := {| window_app := fresh_app [];
                  char_count_label := lit "Characters: 0" |};
     pending := [] |}.

(** A dialog in which DeepL is selected and the key field holds [key]. *)
Definition deepl_dialog (key : str) : SettingsDialog :=
  {| radio_googletrans := false;
     radio_deep_translator := false;
     radio_deepl := true;
     api_key_input := key |}.

(** An outcome signal, if there is one, is the last of the list. *)
Fixpoint outcome_last (l : list event) : Prop :=
  match l with
  | [] => True
  | e :: rest => (is_outcome_signal e = true -> rest = []) /\ outcome_last rest
  end.

(** The signals that wait come from the worker the window holds. *)
Definition from_current_worker (s : session) : Prop :=
  pending s <> [] ->
  exists h E, worker (window_app (window s)) = Some h
              /\ pending s `suffix_of` signals (run (handle_worker h) E).

(** What holds of a session at all times. *)
Definition session_ok (s : session) : Prop :=
  (translate_button_enabled (window_app (window s)) = true -> pending s = [])
  /\ outcome_last (pending s)
  /\ from_current_worker s.


(** The dialog of the last save among [inputs], if any. *)
Definition saved (input : ui_input) : option SettingsDialog :=
  match input with
  | OpenSettings (Accepted d) => Some d
  | _ => None
  end.

Definition last_saved (inputs : list ui_input) : option SettingsDialog :=
  last (omap saved inputs).

(** The backend and key in force after [inputs], from [backend] and [key]. *)
Definition settings_after (backend key : str) (inputs : list ui_input) : str * str :=
  match last_saved inputs with
  | Some d => get_settings d
  | None => (backend, key)
  end.

(** ** Lemmas on chunking *)

Section Chunking.
Context {A : Type}.
Implicit Types (text : list A) (size : nat).

Lemma py_slice_step text i size : py_slice text i (i + size) = take size (drop i text).
Proof. unfold py_slice. f_equal. lia. Qed.

Lemma range_from_concat text size fuel i :
  0 < size -> length text - i <= fuel ->
  concat (map (fun j => py_slice text j (j + size))
              (range_from fuel i (length text) size)) = drop i text.
Proof.
  intros Hsize. revert i.
  induction fuel as [|fuel IH]; intros i Hfuel; simpl.
  - rewrite drop_ge by lia. reflexivity.
  - destruct (Nat.ltb_spec i (length text)) as [Hlt|Hge]; simpl.
    + rewrite IH by lia. rewrite py_slice_step.
      rewrite <- (drop_drop text size i). apply take_drop.
    + rewrite drop_ge by lia. reflexivity.
Qed.

Lemma range_from_length L size fuel i :
  0 < size -> L - i <= fuel ->
  length (range_from fuel i L size) = (L - i + (size - 1)) / size.
Proof.
  intros Hsize. revert i.
  induction fuel as [|fuel IH]; intros i Hfuel; simpl.
  - replace (L - i) with 0 by lia. simpl.
    symmetry. apply Nat.div_small. lia.
  - destruct (Nat.ltb_spec i L) as [Hlt|Hge]; simpl.
    + rewrite IH by lia.
      destruct (Nat.le_gt_cases (i + size) L) as [Hfull|Hlast].
      * replace (L - i + (size - 1)) with (L - (i + size) + (size - 1) + 1 * size) by lia.
        rewrite Nat.div_add by lia. lia.
      * replace (L - (i + size)) with 0 by lia.
        rewrite (Nat.div_small (0 + (size - 1)) size) by lia.
        apply (Nat.div_unique _ _ 1 (L - i - 1)); lia.
    + replace (L - i) with 0 by lia. simpl.
      symmetry. apply Nat.div_small. lia.
Qed.

Lemma range_from_slices_bounded text size fuel i :
  Forall (fun c : list A => length c <= size)
         (map (fun j => py_slice text j (j + size))
              (range_from fuel i (length text) size)).
Proof.
  revert i. induction fuel as [|fuel IH]; intros i; simpl.
  - constructor.
  - destruct (i <? length text); simpl; [|constructor].
    constructor; [|apply IH].
    rewrite py_slice_step, length_take. lia.
Qed.

Lemma range_from_slices_nonempty text size fuel i :
  0 < size ->
  Forall (fun c : list A => c <> [])
         (map (fun j => py_slice text j (j + size))
              (range_from fuel i (length text) size)).
Proof.
  intros Hsize. revert i. induction fuel as [|fuel IH]; intros i; simpl.
  - constructor.
  - destruct (Nat.ltb_spec i (length text)) as [Hlt|Hge]; simpl; [|constructor].
    constructor; [|apply IH].
    rewrite py_slice_step. intros Hnil.
    apply (f_equal length) in Hnil.
    rewrite length_take, length_drop in Hnil. simpl in Hnil. lia.
Qed.

Lemma chunks_of_concat text size : 0 < size -> concat (chunks_of size text) = text.
Proof.
  intros Hsize. unfold chunks_of, py_range.
  rewrite range_from_concat by lia. apply drop_0.
Qed.

Lemma chunks_of_length text size :
  0 < size -> length (chunks_of size text) = (length text + (size - 1)) / size.
Proof.
  intros Hsize. unfold chunks_of, py_range.
  rewrite length_map, range_from_length by lia. f_equal. lia.
Qed.

Lemma chunks_of_bounded text size :
  Forall (fun c : list A => length c <= size) (chunks_of size text).
Proof. apply range_from_slices_bounded. Qed.

Lemma chunks_of_nonempty text size :
  0 < size -> Forall (fun c : list A => c <> []) (chunks_of size text).
Proof. apply range_from_slices_nonempty. Qed.

Lemma chunks_of_nil size : chunks_of size ([] : list A) = [].
Proof. reflexivity. Qed.

Lemma chunks_of_short text size :
  text <> [] -> length text <= size -> chunks_of size text = [text].
Proof.
  intros Hne Hlen. unfold chunks_of, py_range.
  destruct text as [|a text']; [congruence|].
  rewrite Nat.sub_0_r. cbn [length range_from].
  destruct (Nat.ltb_spec 0 (S (length text'))) as [_|]; [|lia].
  assert (Hrest : forall fuel, range_from fuel (0 + size) (S (length text')) size = []).
  { intros [|fuel]; simpl; [reflexivity|].
    cbn [length] in Hlen.
    destruct (Nat.ltb_spec size (S (length text'))); [lia|reflexivity]. }
  rewrite Hrest. cbn [map]. f_equal.
  rewrite py_slice_step, drop_0. apply take_ge. exact Hlen.
Qed.
End Chunking.

Lemma make_chunks_bracket {A} (text : list A) :
  length text <= length (make_chunks text) * 4500 < length text + 4500.
Proof.
  unfold make_chunks. rewrite chunks_of_length by (unfold CHUNK_SIZE; lia).
  change (CHUNK_SIZE - 1) with 4499. change CHUNK_SIZE with 4500.
  pose proof (Nat.div_mod_eq (length text + 4499) 4500) as Hdiv.
  pose proof (Nat.mod_upper_bound (length text + 4499) 4500) as Hmod.
  lia.
Qed.


(** ** Lemmas on the monad *)

Lemma M_bind_ok {A B} (k : A -> M B) t a :
  M_bind k (t, Ok a) = (t ++ events (k a), result (k a)).
Proof. unfold M_bind, events, result. destruct (k a). reflexivity. Qed.

Lemma M_bind_exc {A B} (k : A -> M B) t e : M_bind k (t, Exc e) = (t, Exc e).
Proof. reflexivity. Qed.

Ltac unfold_M :=
  unfold mbind, M_mbind, mret, M_mret, emit, raise, try_except, M_bind, M_ret,
    events, result in *.

Ltac norm_app :=
  repeat first [progress cbn [app] | rewrite <- app_assoc | rewrite app_nil_r].

(** ** The retry loop in closed form *)

Lemma retry_loop_closed w E i chunk acc :
  retry_loop w E i chunk (py_range 0 max_retries 1) 2 acc =
  match _translate_chunk w E i 0 chunk with
  | (ev0, Ok t) => (ev0, Ok (acc ++ t ++ lit " "))
  | (ev0, Exc _) =>
      match _translate_chunk w E i 1 chunk with
      | (ev1, Ok t) =>
          (ev0 ++ retry_pause 1 i 2 ++ ev1, Ok (acc ++ t ++ lit " "))
      | (ev1, Exc _) =>
          match _translate_chunk w E i 2 chunk with
          | (ev2, Ok t) =>
              (ev0 ++ retry_pause 1 i 2 ++ ev1 ++ retry_pause 2 i 4 ++ ev2,
               Ok (acc ++ t ++ lit " "))
          | (ev2, Exc e) =>
              (ev0 ++ retry_pause 1 i 2 ++ ev1 ++ retry_pause 2 i 4 ++ ev2,
               Exc (failed_after e))
          end
      end
  end.
Proof.
  unfold py_range, max_retries. cbn [range_from Nat.sub Nat.ltb Nat.leb Nat.add].
  cbn [retry_loop]. unfold_M. cbn [Nat.ltb Nat.leb Nat.eqb Nat.sub].
  destruct (_translate_chunk w E i 0 chunk) as [ev0 [t0|e0]];
    [rewrite ?app_nil_r; reflexivity|].
  destruct (_translate_chunk w E i 1 chunk) as [ev1 [t1|e1]];
    [cbn; rewrite ?app_nil_r; reflexivity|].
  destruct (_translate_chunk w E i 2 chunk) as [ev2 [t2|e2]];
    cbn; rewrite ?app_nil_r, <- ?app_assoc; reflexivity.
Qed.

(** ** One attempt *)

Lemma translate_chunk_shape w E i a chunk :
  (exists msg, _translate_chunk w E i a chunk = ([], Exc msg)) \/
  (exists call, _translate_chunk w E i a chunk =
                ([Net i a call (backend_reply E i a call)],
                 reply_res (backend_reply E i a call))).
Proof.
  unfold _translate_chunk, _translate_with_googletrans,
    _translate_with_deep_translator, _translate_with_deepl, raise.
  repeat match goal with
         | |- context [if ?b then _ else _] => destruct b
         end;
    first [left; eexists; reflexivity
          |right; eexists; unfold net_request, reply_res; reflexivity].
Qed.

Lemma translate_chunk_events w E i a chunk :
  forallb (retry_event i) (events (_translate_chunk w E i a chunk)) = true.
Proof.
  destruct (translate_chunk_shape w E i a chunk) as [[m ->]|[c ->]]; cbn;
    [reflexivity|]. rewrite Nat.eqb_refl. reflexivity.
Qed.

Lemma retry_loop_events w E i chunk acc :
  forallb (retry_event i)
    (events (retry_loop w E i chunk (py_range 0 max_retries 1) 2 acc)) = true.
Proof.
  rewrite retry_loop_closed.
  pose proof (translate_chunk_events w E i 0 chunk) as H0.
  pose proof (translate_chunk_events w E i 1 chunk) as H1.
  pose proof (translate_chunk_events w E i 2 chunk) as H2.
  destruct (_translate_chunk w E i 0 chunk) as [ev0 [t0|e0]]; [exact H0|].
  destruct (_translate_chunk w E i 1 chunk) as [ev1 [t1|e1]];
  [|destruct (_translate_chunk w E i 2 chunk) as [ev2 [t2|e2]]];
    unfold events in *; cbn [fst] in *;
    rewrite ?forallb_app, ?H0, ?H1, ?H2; reflexivity.
Qed.

(** ** The progress value *)

Lemma progress_percent_ok k n :
  n <> 0 -> progress_percent k n = ([], Ok (percent k n)).
Proof.
  intros Hn. unfold progress_percent, py_truediv.
  destruct (Z.eqb_spec (Z.of_nat n) 0) as [Hz|_]; [lia|]. reflexivity.
Qed.

Lemma progress_percent_zero k :
  progress_percent k 0 = ([], Exc (lit "division by zero")).
Proof. reflexivity. Qed.

(** ** One iteration of the chunk loop *)

Lemma chunk_loop_cons w E n i chunk rest acc :
  chunk_loop w E n i (chunk :: rest) acc =
  if is_running E i then
    match retry_loop w E i chunk (py_range 0 max_retries 1) 2 acc with
    | (ev, Exc e) => (chunk_start i n ++ ev, Exc e)
    | (ev, Ok acc') =>
        match n with
        | 0 => (chunk_start i n ++ ev, Exc (lit "division by zero"))
        | S _ =>
            (chunk_start i n ++ ev ++ [Progress (percent (i + 1) n)]
             ++ events (chunk_loop w E n (i + 1) rest acc'),
             result (chunk_loop w E n (i + 1) rest acc'))
        end
    end
  else ([ReadIsRunning false], Ok None).
Proof.
  cbn [chunk_loop].
  destruct (is_running E i); [|reflexivity].
  cbn [negb].
  destruct (retry_loop w E i chunk (py_range 0 max_retries 1) 2 acc)
    as [ev [acc'|e]]; [|reflexivity].
  destruct n as [|n'].
  - rewrite progress_percent_zero. unfold_M. unfold chunk_start.
    cbn [app]. rewrite ?app_nil_r. reflexivity.
  - rewrite progress_percent_ok by lia.
    unfold_M. unfold chunk_start. cbn [app fst snd].
    destruct (chunk_loop w E (S n') (i + 1) rest acc') as [ev' r].
    cbn [app fst snd]. rewrite ?app_nil_r, <- ?app_assoc. reflexivity.
Qed.

Lemma chunk_loop_nil w E n i acc : chunk_loop w E n i [] acc = ([], Ok (Some acc)).
Proof. reflexivity. Qed.

Lemma run_unfold w E chunks :
  make_chunks (text w) = chunks ->
  run w E =
  StatusUpdate (translating_status (length chunks))
  :: events (chunk_loop w E (length chunks) 0 chunks [])
  ++ match result (chunk_loop w E (length chunks) 0 chunks []) with
     | Ok (Some t) => [TranslationDone (strip t)]
     | Ok None => []
     | Exc e => [TranslationError e]
     end.
Proof.
  intros <-. unfold run, run_body.
  destruct (chunk_loop w E (length (make_chunks (text w))) 0
              (make_chunks (text w)) []) as [ev [[t|]|e]];
    unfold_M; cbn [app fst snd]; rewrite ?app_nil_r; reflexivity.
Qed.

(** ** Observations on traces *)

(** ** Traces of retry events *)

Lemma outcomes_app t1 t2 : outcomes (t1 ++ t2) = outcomes t1 ++ outcomes t2.
Proof.
  induction t1 as [|[] t1 IH]; cbn [outcomes app]; rewrite ?IH; reflexivity.
Qed.

Lemma count_app p t1 t2 : count p (t1 ++ t2) = count p t1 + count p t2.
Proof. unfold count. rewrite filter_app, length_app. reflexivity. Qed.

Lemma count_cons p e t : count p (e :: t) = (if p e then 1 else 0) + count p t.
Proof.
  unfold count. rewrite filter_cons.
  destruct (p e); case_decide; try congruence; reflexivity.
Qed.

Lemma count_nil p : count p [] = 0.
Proof. reflexivity. Qed.

Section RetryEvents.
Variables (i : nat) (ev : list event).
Hypothesis Hev : forallb (retry_event i) ev = true.

Lemma retry_events_outcomes : outcomes ev = [].
Proof using Hev.
  induction ev as [|e t IH]; [reflexivity|].
  cbn [forallb] in Hev. apply andb_prop in Hev as [He Ht].
  destruct e; try discriminate He; cbn [outcomes]; auto.
Qed.

Lemma retry_events_reads : count is_read ev = 0.
Proof using Hev.
  induction ev as [|e t IH]; [reflexivity|].
  cbn [forallb] in Hev. apply andb_prop in Hev as [He Ht].
  rewrite count_cons, IH by exact Ht.
  destruct e; try discriminate He; reflexivity.
Qed.

Lemma retry_events_calls reads t2 :
  Forall (fun p => p.2 = p.1 + 1) (calls_with_reads reads t2) ->
  reads = i + 1 ->
  Forall (fun p => p.2 = p.1 + 1) (calls_with_reads reads (ev ++ t2)).
Proof using Hev.
  intros Ht2 ->.
  induction ev as [|e t IH]; [exact Ht2|].
  cbn [forallb] in Hev. apply andb_prop in Hev as [He Ht].
  destruct e; try discriminate He; cbn [calls_with_reads app]; auto.
  constructor; [|auto].
  cbn in He. apply Nat.eqb_eq in He. subst. reflexivity.
Qed.

Lemma retry_events_after_cancel t2 : after_cancel (ev ++ t2) = after_cancel t2.
Proof using Hev.
  induction ev as [|e t IH]; [reflexivity|].
  cbn [forallb] in Hev. apply andb_prop in Hev as [He Ht].
  destruct e; try discriminate He; cbn [after_cancel app]; auto.
Qed.

Lemma retry_events_cancel_seen : cancel_seen ev = false.
Proof using Hev.
  induction ev as [|e t IH]; [reflexivity|].
  cbn [forallb] in Hev. apply andb_prop in Hev as [He Ht].
  destruct e; try discriminate He; cbn [cancel_seen existsb]; auto.
Qed.

Lemma retry_events_progress_values : progress_values ev = [].
Proof using Hev.
  induction ev as [|e t IH]; [reflexivity|].
  cbn [forallb] in Hev. apply andb_prop in Hev as [He Ht].
  destruct e; try discriminate He; cbn [progress_values]; auto.
Qed.
End RetryEvents.

(** ** Invariants of the chunk loop *)

Ltac chunk_step w E n i chunk acc :=
  rewrite (chunk_loop_cons w E n i chunk);
  let Hretry := fresh "Hretry" in
  pose proof (retry_loop_events w E i chunk acc) as Hretry;
  let ev := fresh "ev" in
  let acc' := fresh "acc'" in
  let e := fresh "e" in
  let Hrun := fresh "Hrun" in
  let Hloop := fresh "Hloop" in
  destruct (is_running E i) eqn:Hrun;
  [ destruct (retry_loop w E i chunk (py_range 0 max_retries 1) 2 acc)
      as [ev [acc'|e]] eqn:Hloop;
    [ destruct n | ] | ];
  unfold events, result in *; cbn [fst snd] in *.

Lemma chunk_loop_outcomes w E n chunks : forall i acc,
  outcomes (events (chunk_loop w E n i chunks acc)) = [].
Proof.
  induction chunks as [|chunk rest IH]; intros i acc; [reflexivity|].
  chunk_step w E n i chunk acc;
    unfold chunk_start; cbn [app outcomes];
    rewrite ?outcomes_app, ?(retry_events_outcomes i) by assumption;
    try reflexivity.
  cbn [app outcomes]. apply IH.
Qed.

Lemma chunk_loop_calls w E n chunks : forall i acc,
  Forall (fun p => p.2 = p.1 + 1)
         (calls_with_reads i (events (chunk_loop w E n i chunks acc))).
Proof.
  induction chunks as [|chunk rest IH]; intros i acc; [constructor|].
  chunk_step w E n i chunk acc;
    unfold chunk_start; cbn [app calls_with_reads]; try constructor.
  - rewrite <- (app_nil_r ev).
    apply (retry_events_calls i); [assumption|constructor|lia].
  - apply (retry_events_calls i); [assumption| |lia].
    cbn [app calls_with_reads]. replace (S i) with (i + 1) by lia. apply IH.
  - rewrite <- (app_nil_r ev).
    apply (retry_events_calls i); [assumption|constructor|lia].
Qed.

Lemma chunk_loop_cancel w E n chunks : forall i acc,
  let m := chunk_loop w E n i chunks acc in
  after_cancel (events m) = [] /\
  (cancel_seen (events m) = true <-> result m = Ok None).
Proof.
  induction chunks as [|chunk rest IH]; intros i acc; cbn zeta.
  - cbn. split; [reflexivity|]. split; discriminate.
  - chunk_step w E n i chunk acc; unfold chunk_start;
      cbn [app after_cancel cancel_seen existsb orb].
    + rewrite <- (app_nil_r ev), (retry_events_after_cancel i) by assumption.
      fold (cancel_seen (ev ++ [])). rewrite app_nil_r.
      rewrite (retry_events_cancel_seen i) by assumption.
      split; [reflexivity|]. split; discriminate.
    + rewrite (retry_events_after_cancel i) by assumption.
      cbn [app after_cancel].
      destruct (IH (i + 1) acc') as [IH1 IH2].
      split; [exact IH1|].
      rewrite existsb_app. fold (cancel_seen ev).
      rewrite (retry_events_cancel_seen i) by assumption.
      cbn [orb existsb]. exact IH2.
    + rewrite <- (app_nil_r ev), (retry_events_after_cancel i) by assumption.
      fold (cancel_seen (ev ++ [])). rewrite app_nil_r.
      rewrite (retry_events_cancel_seen i) by assumption.
      split; [reflexivity|]. split; discriminate.
    + split; [reflexivity|]. split; reflexivity.
Qed.

Lemma chunk_loop_app w E n cs1 : forall cs2 i acc,
  chunk_loop w E n i (cs1 ++ cs2) acc =
  match chunk_loop w E n i cs1 acc with
  | (ev1, Ok (Some acc1)) =>
      (ev1 ++ events (chunk_loop w E n (i + length cs1) cs2 acc1),
       result (chunk_loop w E n (i + length cs1) cs2 acc1))
  | other => other
  end.
Proof.
  induction cs1 as [|chunk rest IH]; intros cs2 i acc.
  - cbn [app length chunk_loop]. unfold mret, M_mret, M_ret.
    rewrite Nat.add_0_r. cbn [app]. destruct (chunk_loop w E n i cs2 acc).
    reflexivity.
  - rewrite <- app_comm_cons, !chunk_loop_cons.
    destruct (is_running E i); [|reflexivity].
    destruct (retry_loop w E i chunk (py_range 0 max_retries 1) 2 acc)
      as [ev [acc'|e]]; [|reflexivity].
    destruct n; [reflexivity|].
    rewrite IH.
    destruct (chunk_loop w E (S n) (i + 1) rest acc') as [ev1 [[acc1|]|e1]];
      unfold events, result; cbn [fst snd length]; try reflexivity.
    replace (i + 1 + length rest) with (i + S (length rest)) by lia.
    rewrite <- !app_assoc. reflexivity.
Qed.

(** ** Rounding *)

Local Open Scope Q_scope.

Lemma round_half_even_cases x :
  let f := Qfloor x in
  inject_Z f <= x < inject_Z f + 1 /\
  ((x - inject_Z f < 1 # 2 /\ round_half_even x = f) \/
   (x - inject_Z f == 1 # 2 /\ (round_half_even x = f \/ round_half_even x = (f + 1)%Z)
    /\ Z.even (round_half_even x) = true) \/
   (1 # 2 < x - inject_Z f /\ round_half_even x = (f + 1)%Z)).
Proof.
  intros f.
  assert (Hf : inject_Z f <= x < inject_Z f + 1).
  { split; [apply Qfloor_le|].
    pose proof (Qlt_floor x) as H. rewrite inject_Z_plus in H. exact H. }
  split; [exact Hf|].
  unfold round_half_even. fold f.
  destruct (x - inject_Z f ?= 1 # 2) eqn:Hcmp.
  - apply Qeq_alt in Hcmp. right. left. split; [exact Hcmp|].
    destruct (Z.even f) eqn:He.
    + split; [left; reflexivity|exact He].
    + split; [right; reflexivity|].
      rewrite Z.even_add, He. reflexivity.
  - apply Qlt_alt in Hcmp. left. split; [exact Hcmp|reflexivity].
  - apply Qgt_alt in Hcmp. right. right. split; [exact Hcmp|reflexivity].
Qed.

Lemma round_half_even_near x :
  x - (1 # 2) <= inject_Z (round_half_even x) <= x + (1 # 2).
Proof.
  destruct (round_half_even_cases x) as [Hf [[H ->]|[[H [[->| ->] _]]|[H ->]]]];
    rewrite ?inject_Z_plus; change (inject_Z 1) with 1; lra.
Qed.

Lemma round_half_even_mono x y : x <= y -> (round_half_even x <= round_half_even y)%Z.
Proof.
  intros Hxy.
  pose proof (Qfloor_resp_le x y Hxy) as Hfl.
  destruct (round_half_even_cases x) as [Hfx Hx].
  destruct (round_half_even_cases y) as [Hfy Hy].
  destruct (Z.eq_dec (Qfloor x) (Qfloor y)) as [Heq|Hne].
  - rewrite <- Heq in *.
    destruct Hx as [[Hx ->]|[[Hx [Hrx Hex]]|[Hx ->]]];
      destruct Hy as [[Hy ->]|[[Hy [Hry Hey]]|[Hy ->]]];
      try lia; try (exfalso; lra).
    destruct Hrx as [Hrx|Hrx]; destruct Hry as [Hry|Hry];
      rewrite Hrx, Hry in *; try lia.
    rewrite Z.even_add in Hex. destruct (Z.even (Qfloor x)); discriminate.
  - assert (Hlt : (Qfloor x + 1 <= Qfloor y)%Z) by lia.
    assert (Hrx : (round_half_even x <= Qfloor x + 1)%Z).
    { destruct Hx as [[_ ->]|[[_ [[->| ->] _]]|[_ ->]]]; lia. }
    assert (Hry : (Qfloor y <= round_half_even y)%Z).
    { destruct Hy as [[_ ->]|[[_ [[->| ->] _]]|[_ ->]]]; lia. }
    lia.
Qed.

Lemma round_half_even_Z n : round_half_even (inject_Z n) = n.
Proof.
  destruct (round_half_even_cases (inject_Z n)) as [_ H].
  rewrite Qfloor_Z in H.
  destruct H as [[_ H]|[[H _]|[H _]]]; [exact H| |]; exfalso; lra.
Qed.

Lemma round_half_even_ge n x : inject_Z n <= x -> (n <= round_half_even x)%Z.
Proof.
  intros H. rewrite <- (round_half_even_Z n).
  apply round_half_even_mono. exact H.
Qed.

Lemma round_half_even_le n x : x <= inject_Z n -> (round_half_even x <= n)%Z.
Proof.
  intros H. rewrite <- (round_half_even_Z n).
  apply round_half_even_mono. exact H.
Qed.

(** ** Binary exponents *)

Lemma two_power_pos z : 0 < 2 ^ z.
Proof. apply Qpower_0_lt. reflexivity. Qed.

Lemma two_power_succ z : 2 ^ (z + 1) == 2 * 2 ^ z.
Proof. rewrite Qpower_plus by discriminate. change (2 ^ 1) with 2. ring. Qed.

Lemma two_power_pred z : 2 ^ (z - 1) == 2 ^ z / 2.
Proof. rewrite Qpower_minus by discriminate. reflexivity. Qed.

Lemma two_power_le a b : (a <= b)%Z -> 2 ^ a <= 2 ^ b.
Proof. intros H. apply Qpower_le_compat_l; [exact H|discriminate]. Qed.

Lemma two_power_lt a b : (a < b)%Z -> 2 ^ a < 2 ^ b.
Proof. intros H. apply Qpower_lt_compat_l; [exact H|reflexivity]. Qed.

Lemma inject_Z_log2 n :
  (0 < n)%Z -> 2 ^ Z.log2 n <= inject_Z n < 2 ^ (Z.log2 n + 1).
Proof.
  intros Hn. pose proof (Z.log2_spec n Hn) as [Hlo Hhi].
  pose proof (Z.log2_nonneg n) as Hnn.
  change 2 with (inject_Z 2).
  rewrite <- !Zpower_Qpower by lia. rewrite <- Zle_Qle, <- Zlt_Qlt.
  rewrite <- Z.add_1_r in Hhi. split; assumption.
Qed.

Lemma ilog2_spec x : 0 < x -> 2 ^ ilog2 x <= x < 2 ^ (ilog2 x + 1).
Proof.
  intros Hx. destruct x as [a b]. unfold ilog2. cbn [Qnum Qden].
  assert (Ha : (0 < a)%Z).
  { unfold Qlt in Hx. cbn in Hx. lia. }
  pose proof (inject_Z_log2 a Ha) as [Ha1 Ha2].
  pose proof (inject_Z_log2 (Z.pos b) eq_refl) as [Hb1 Hb2].
  set (la := Z.log2 a) in *. set (lb := Z.log2 (Z.pos b)) in *.
  assert (Hab : a # b == inject_Z a / inject_Z (Z.pos b)) by apply Qmake_Qdiv.
  assert (Hbpos : 0 < inject_Z (Z.pos b)) by reflexivity.
  pose proof (two_power_pos la) as Pla. pose proof (two_power_pos lb) as Plb.
  assert (Hsub : 2 ^ (la - lb) == 2 ^ la / 2 ^ lb).
  { apply Qpower_minus. discriminate. }
  assert (Hup : a # b < 2 ^ (la - lb + 1)).
  { rewrite Hab, two_power_succ, Hsub.
    rewrite two_power_succ in Ha2.
    apply Qlt_shift_div_r; [exact Hbpos|].
    assert (2 * (2 ^ la / 2 ^ lb) * inject_Z (Z.pos b)
            == 2 * 2 ^ la * (inject_Z (Z.pos b) / 2 ^ lb)) as -> by (field; lra).
    assert (1 <= inject_Z (Z.pos b) / 2 ^ lb).
    { apply Qle_shift_div_l; [exact Plb|]. lra. }
    nra. }
  assert (Hlow : 2 ^ (la - lb - 1) < a # b).
  { rewrite Hab, two_power_pred, Hsub.
    rewrite two_power_succ in Hb2.
    apply Qlt_shift_div_l; [exact Hbpos|].
    assert (2 ^ la / 2 ^ lb / 2 * inject_Z (Z.pos b)
            == 2 ^ la * (inject_Z (Z.pos b) / (2 * 2 ^ lb))) as -> by (field; lra).
    assert (inject_Z (Z.pos b) / (2 * 2 ^ lb) < 1).
    { apply Qlt_shift_div_r; lra. }
    nra. }
  destruct (Qle_bool (2 ^ (la - lb)) (a # b)) eqn:Hle.
  - apply Qle_bool_iff in Hle. split; assumption.
  - assert (Hlt : a # b < 2 ^ (la - lb)).
    { apply Qnot_le_lt. intros H. apply Qle_bool_iff in H. congruence. }
    replace (la - lb - 1 + 1)%Z with (la - lb)%Z by lia.
    split; [apply Qlt_le_weak; exact Hlow|exact Hlt].
Qed.

Lemma ilog2_unique x l : 2 ^ l <= x < 2 ^ (l + 1) -> ilog2 x = l.
Proof.
  intros [Hlo Hhi].
  assert (Hx : 0 < x) by (pose proof (two_power_pos l); lra).
  destruct (ilog2_spec x Hx) as [Ilo Ihi].
  destruct (Z.lt_trichotomy (ilog2 x) l) as [Hlt|[Heq|Hgt]]; [|exact Heq|].
  - exfalso. pose proof (two_power_le (ilog2 x + 1) l ltac:(lia)). lra.
  - exfalso. pose proof (two_power_le (l + 1) (ilog2 x) ltac:(lia)). lra.
Qed.

Lemma ilog2_mono x y : 0 < x -> x <= y -> (ilog2 x <= ilog2 y)%Z.
Proof.
  intros Hx Hxy.
  destruct (ilog2_spec x Hx) as [Xlo Xhi].
  destruct (ilog2_spec y ltac:(lra)) as [Ylo Yhi].
  destruct (Z_le_gt_dec (ilog2 x) (ilog2 y)) as [H|H]; [exact H|].
  exfalso. pose proof (two_power_le (ilog2 y + 1) (ilog2 x) ltac:(lia)). lra.
Qed.

Lemma ulp_exp_mono x y : 0 < x -> x <= y -> (ulp_exp x <= ulp_exp y)%Z.
Proof.
  intros Hx Hxy. pose proof (ilog2_mono x y Hx Hxy). unfold ulp_exp. lia.
Qed.

(** ** The nearest double *)

Lemma scaled_lt x e m : 0 < x -> x < 2 ^ (e + m) -> x / 2 ^ e < 2 ^ m.
Proof.
  intros Hx H. apply Qlt_shift_div_r; [apply two_power_pos|].
  rewrite <- Qpower_plus by discriminate.
  replace (m + e)%Z with (e + m)%Z by lia. exact H.
Qed.

Lemma scaled_ge x e m : 2 ^ (e + m) <= x -> 2 ^ m <= x / 2 ^ e.
Proof.
  intros H. apply Qle_shift_div_l; [apply two_power_pos|].
  rewrite <- Qpower_plus by discriminate.
  replace (m + e)%Z with (e + m)%Z by lia. exact H.
Qed.

Lemma inject_Z_two_power m : (0 <= m)%Z -> inject_Z (2 ^ m) == 2 ^ m.
Proof. intros H. apply (Zpower_Qpower 2 m H). Qed.

Lemma round_pos_upper x : 0 < x -> round_pos x <= 2 ^ (ulp_exp x + 53).
Proof.
  intros Hx. unfold round_pos.
  destruct (ilog2_spec x Hx) as [_ Hhi].
  assert (Hs : x / 2 ^ ulp_exp x <= inject_Z (2 ^ 53)).
  { rewrite inject_Z_two_power by lia. apply Qlt_le_weak.
    apply scaled_lt; [exact Hx|].
    apply (Qlt_le_trans _ _ _ Hhi). apply two_power_le. unfold ulp_exp. lia. }
  apply round_half_even_le in Hs. rewrite Zle_Qle in Hs.
  rewrite inject_Z_two_power in Hs by lia.
  rewrite Qpower_plus by discriminate.
  pose proof (two_power_pos (ulp_exp x)) as Hp.
  rewrite (Qmult_comm (2 ^ ulp_exp x)).
  apply Qmult_le_compat_r; [exact Hs|lra].
Qed.

Lemma round_pos_lower x :
  0 < x -> (-1074 < ulp_exp x)%Z -> 2 ^ (ulp_exp x + 52) <= round_pos x.
Proof.
  intros Hx Hnormal. unfold round_pos.
  destruct (ilog2_spec x Hx) as [Hlo _].
  assert (He : ulp_exp x = (ilog2 x - 52)%Z) by (unfold ulp_exp in *; lia).
  assert (Hs : inject_Z (2 ^ 52) <= x / 2 ^ ulp_exp x).
  { rewrite inject_Z_two_power by lia. apply scaled_ge.
    rewrite He. replace (ilog2 x - 52 + 52)%Z with (ilog2 x) by lia. exact Hlo. }
  apply round_half_even_ge in Hs. rewrite Zle_Qle in Hs.
  rewrite inject_Z_two_power in Hs by lia.
  rewrite Qpower_plus by discriminate.
  pose proof (two_power_pos (ulp_exp x)) as Hp.
  rewrite (Qmult_comm (2 ^ ulp_exp x)).
  apply Qmult_le_compat_r; [exact Hs|lra].
Qed.

Lemma round_pos_nonneg x : 0 < x -> 0 <= round_pos x.
Proof.
  intros Hx. unfold round_pos.
  pose proof (two_power_pos (ulp_exp x)) as Hp.
  assert (Hs : inject_Z 0 <= x / 2 ^ ulp_exp x).
  { apply Qle_shift_div_l; [exact Hp|]. change (inject_Z 0) with 0. lra. }
  apply round_half_even_ge in Hs. rewrite Zle_Qle in Hs.
  change (inject_Z 0) with 0 in Hs. nra.
Qed.

Lemma round_pos_mono x y : 0 < x -> x <= y -> round_pos x <= round_pos y.
Proof.
  intros Hx Hxy.
  assert (Hy : 0 < y) by lra.
  pose proof (ulp_exp_mono x y Hx Hxy) as He.
  destruct (Z.eq_dec (ulp_exp x) (ulp_exp y)) as [Heq|Hne].
  - unfold round_pos. rewrite Heq.
    pose proof (two_power_pos (ulp_exp y)) as Hp.
    apply Qmult_le_compat_r; [|lra].
    rewrite <- Zle_Qle. apply round_half_even_mono.
    apply Qmult_le_compat_r; [exact Hxy|].
    apply Qlt_le_weak, Qinv_lt_0_compat. exact Hp.
  - pose proof (round_pos_upper x Hx) as Hup.
    assert (Hnormal : (-1074 < ulp_exp y)%Z) by (unfold ulp_exp in *; lia).
    pose proof (round_pos_lower y Hy Hnormal) as Hlow.
    pose proof (two_power_le (ulp_exp x + 53) (ulp_exp y + 52) ltac:(lia)).
    lra.
Qed.

Lemma binary64_round_nonneg x : 0 <= x -> 0 <= binary64_round x.
Proof.
  intros Hx. unfold binary64_round.
  destruct (x ?= 0) eqn:Hc.
  - lra.
  - apply Qlt_alt in Hc. lra.
  - apply Qgt_alt in Hc. apply round_pos_nonneg. exact Hc.
Qed.

Lemma binary64_round_pos x : 0 < x -> binary64_round x = round_pos x.
Proof.
  intros Hx. unfold binary64_round.
  destruct (x ?= 0) eqn:Hc; [| |reflexivity].
  - apply Qeq_alt in Hc. lra.
  - apply Qlt_alt in Hc. lra.
Qed.

(** Rounding is monotone. *)
Lemma binary64_round_mono x y :
  0 <= x -> x <= y -> binary64_round x <= binary64_round y.
Proof.
  intros Hx Hxy.
  destruct (Qlt_le_dec 0 x) as [Hpos|Hzero].
  - rewrite !binary64_round_pos by lra. apply round_pos_mono; assumption.
  - assert (Hx0 : x == 0) by lra.
    assert (binary64_round x = 0) as ->.
    { unfold binary64_round. apply Qeq_alt in Hx0. rewrite Hx0. reflexivity. }
    apply binary64_round_nonneg. lra.
Qed.

Lemma binary64_round_eq x y :
  0 <= x -> x == y -> binary64_round x == binary64_round y.
Proof.
  intros Hx Hxy. apply Qle_antisym; apply binary64_round_mono; lra.
Qed.

(** The relative error of rounding is at most 2^-53 in the normal range. *)
Lemma round_pos_error x :
  0 < x -> (-1022 <= ilog2 x)%Z ->
  x * (1 - 2 ^ (-53)) <= round_pos x <= x * (1 + 2 ^ (-53)).
Proof.
  intros Hx Hnormal. unfold round_pos.
  assert (He : ulp_exp x = (ilog2 x - 52)%Z) by (unfold ulp_exp; lia).
  destruct (ilog2_spec x Hx) as [Hlo _].
  pose proof (two_power_pos (ulp_exp x)) as Hp.
  pose proof (round_half_even_near (x / 2 ^ ulp_exp x)) as [Hn1 Hn2].
  set (r := inject_Z (round_half_even (x / 2 ^ ulp_exp x))) in *.
  assert (Hx' : x == x / 2 ^ ulp_exp x * 2 ^ ulp_exp x) by (field; lra).
  assert (Hhalf : 2 ^ ulp_exp x * (1 # 2) <= x * 2 ^ (-53)).
  { assert (2 ^ ulp_exp x == 2 ^ ilog2 x * 2 ^ (-52)) as ->.
    { rewrite He. replace (ilog2 x - 52)%Z with (ilog2 x + -52)%Z by lia.
      apply Qpower_plus. discriminate. }
    assert (2 ^ (-53) == 2 ^ (-52) * (1 # 2)) as -> by reflexivity.
    pose proof (two_power_pos (-52)). nra. }
  set (s := x / 2 ^ ulp_exp x) in *. set (p := 2 ^ ulp_exp x) in *.
  set (v := 2 ^ (-53)) in *.
  split; nra.
Qed.

(** ** The progress value *)

Lemma float_100 : float_of_int 100 == 100.
Proof. vm_compute. reflexivity. Qed.

Lemma binary64_round_1 : binary64_round 1 == 1.
Proof. vm_compute. reflexivity. Qed.

Lemma binary64_round_100 : binary64_round 100 == 100.
Proof. vm_compute. reflexivity. Qed.

Lemma int_of_float_nonneg y : 0 <= y -> int_of_float y = Qfloor y.
Proof.
  intros Hy. unfold int_of_float.
  apply Qle_bool_iff in Hy. rewrite Hy. reflexivity.
Qed.

Lemma inject_Z_pos n : (0 < n)%Z -> 0 < inject_Z n.
Proof. intros H. change 0 with (inject_Z 0). rewrite <- Zlt_Qlt. exact H. Qed.

Lemma inject_Z_nonneg n : (0 <= n)%Z -> 0 <= inject_Z n.
Proof. intros H. change 0 with (inject_Z 0). rewrite <- Zle_Qle. exact H. Qed.

Lemma ratio_nonneg k n : (0 <= k)%Z -> (0 < n)%Z -> 0 <= inject_Z k / inject_Z n.
Proof.
  intros Hk Hn. apply Qle_shift_div_l.
  - apply inject_Z_pos. exact Hn.
  - rewrite Qmult_0_l. apply inject_Z_nonneg. exact Hk.
Qed.

Lemma percent_percentZ k n : percent k n = percentZ (Z.of_nat k) (Z.of_nat n).
Proof. reflexivity. Qed.

Lemma percentZ_mono k k' n :
  (0 <= k)%Z -> (k <= k')%Z -> (0 < n)%Z -> (percentZ k n <= percentZ k' n)%Z.
Proof.
  intros Hk Hkk Hn. unfold percentZ, float_mul.
  pose proof float_100 as Hc.
  pose proof (ratio_nonneg k n Hk Hn) as Hx.
  assert (Hxx : inject_Z k / inject_Z n <= inject_Z k' / inject_Z n).
  { apply Qmult_le_compat_r.
    - rewrite <- Zle_Qle. exact Hkk.
    - apply Qlt_le_weak, Qinv_lt_0_compat, inject_Z_pos. exact Hn. }
  pose proof (binary64_round_mono _ _ Hx Hxx) as Hq.
  pose proof (binary64_round_nonneg _ Hx) as Hq0.
  set (q := binary64_round (inject_Z k / inject_Z n)) in *.
  set (q' := binary64_round (inject_Z k' / inject_Z n)) in *.
  set (c := float_of_int 100) in *.
  assert (Hz0 : 0 <= q * c) by nra.
  assert (Hzz : q * c <= q' * c) by nra.
  pose proof (binary64_round_mono _ _ Hz0 Hzz) as Hy.
  pose proof (binary64_round_nonneg _ Hz0) as Hy0.
  rewrite !int_of_float_nonneg by lra.
  apply Qfloor_resp_le. exact Hy.
Qed.

Lemma percentZ_full n : (0 < n)%Z -> percentZ n n = 100%Z.
Proof.
  intros Hn. unfold percentZ, float_mul.
  assert (Hn' : 0 < inject_Z n) by (apply inject_Z_pos; exact Hn).
  assert (Hx : inject_Z n / inject_Z n == 1) by (field; lra).
  assert (Hq : binary64_round (inject_Z n / inject_Z n) == 1).
  { transitivity (binary64_round 1); [|exact binary64_round_1].
    apply binary64_round_eq; [lra|exact Hx]. }
  assert (Hz : binary64_round (inject_Z n / inject_Z n) * float_of_int 100 == 100).
  { rewrite Hq, float_100. reflexivity. }
  assert (Hy : binary64_round
                 (binary64_round (inject_Z n / inject_Z n) * float_of_int 100)
               == 100).
  { transitivity (binary64_round 100); [|exact binary64_round_100].
    apply binary64_round_eq; [lra|exact Hz]. }
  rewrite int_of_float_nonneg by lra.
  rewrite (Qfloor_comp _ _ Hy). reflexivity.
Qed.

Lemma ilog2_ge x m : 2 ^ m <= x -> (m <= ilog2 x)%Z.
Proof.
  intros H. pose proof (two_power_pos m) as Hp.
  rewrite <- (ilog2_unique (2 ^ m) m).
  - apply ilog2_mono; assumption.
  - split; [apply Qle_refl|apply two_power_lt; lia].
Qed.

(** The value computed in floating point is the exact percentage rounded
    down, or one less. *)
Lemma percentZ_bounds k n :
  (1 <= k <= n)%Z -> (n <= 2 ^ 44)%Z ->
  (100 * k / n - 1 <= percentZ k n <= 100 * k / n)%Z.
Proof.
  intros [Hk Hkn] Hn.
  assert (Hn0 : (0 < n)%Z) by lia.
  pose proof (inject_Z_pos n Hn0) as Qn.
  assert (Qk : 1 <= inject_Z k) by (change 1 with (inject_Z 1); rewrite <- Zle_Qle; lia).
  assert (Qkn : inject_Z k <= inject_Z n) by (rewrite <- Zle_Qle; exact Hkn).
  assert (Qn44 : inject_Z n <= 17592186044416).
  { change 17592186044416 with (inject_Z (2 ^ 44)). rewrite <- Zle_Qle. exact Hn. }
  set (x := inject_Z k / inject_Z n).
  assert (Hinv : x * inject_Z n == inject_Z k) by (unfold x; field; lra).
  assert (Hx1 : x <= 1).
  { unfold x. apply Qle_shift_div_r; [exact Qn|lra]. }
  assert (Hxd : (1 # 17592186044416) <= x).
  { unfold x. apply Qle_shift_div_l; [exact Qn|]. lra. }
  assert (Hx0 : 0 < x) by lra.
  (* the quotient *)
  assert (Hlx : (-1022 <= ilog2 x)%Z).
  { assert (H : 2 ^ (-44) <= x)
      by (change (2 ^ (-44)) with (1 # 17592186044416); exact Hxd).
    apply ilog2_ge in H. lia. }
  pose proof (round_pos_error x Hx0 Hlx) as [Hq1 Hq2].
  change (2 ^ (-53)) with (1 # 9007199254740992) in Hq1, Hq2.
  unfold percentZ, float_mul. fold x.
  rewrite (binary64_round_pos x Hx0).
  set (q := round_pos x) in *.
  (* the product *)
  pose proof float_100 as Hc.
  assert (Hz : q * float_of_int 100 == q * 100) by (rewrite Hc; reflexivity).
  set (z := q * float_of_int 100) in *.
  assert (Hz0 : 0 < z) by lra.
  assert (Hlz : (-1022 <= ilog2 z)%Z).
  { assert (H : 2 ^ (-44) <= z)
      by (change (2 ^ (-44)) with (1 # 17592186044416); lra).
    apply ilog2_ge in H. lia. }
  pose proof (round_pos_error z Hz0 Hlz) as [Hy1 Hy2].
  change (2 ^ (-53)) with (1 # 9007199254740992) in Hy1, Hy2.
  rewrite (binary64_round_pos z Hz0).
  set (y := round_pos z) in *.
  assert (Hy0 : 0 <= y) by lra.
  rewrite (int_of_float_nonneg y Hy0).
  (* the exact percentage *)
  set (F := (100 * k / n)%Z).
  assert (HF : F = Qfloor (100 * x)).
  { unfold F. rewrite Zdiv_Qdiv. apply Qfloor_comp.
    rewrite inject_Z_mult. unfold x. change (inject_Z 100) with 100.
    field. lra. }
  assert (HF1 : inject_Z F <= 100 * x) by (rewrite HF; apply Qfloor_le).
  assert (HF2 : 100 * x + / inject_Z n <= inject_Z F + 1).
  { assert (Hz' : (100 * k + 1 <= n * (F + 1))%Z).
    { pose proof (Z.mul_succ_div_gt (100 * k) n Hn0) as H. fold F in H. lia. }
    rewrite Zle_Qle in Hz'.
    rewrite inject_Z_plus, !inject_Z_mult, inject_Z_plus in Hz'.
    change (inject_Z 100) with 100 in Hz'. change (inject_Z 1) with 1 in Hz'.
    rewrite <- Hinv in Hz'.
    assert (Hdiv : (100 * (x * inject_Z n) + 1) / inject_Z n
                   <= inject_Z n * (inject_Z F + 1) / inject_Z n).
    { apply Qmult_le_compat_r; [exact Hz'|].
      apply Qlt_le_weak, Qinv_lt_0_compat. exact Qn. }
    assert (E1 : (100 * (x * inject_Z n) + 1) / inject_Z n
                 == 100 * x + / inject_Z n) by (field; lra).
    assert (E2 : inject_Z n * (inject_Z F + 1) / inject_Z n == inject_Z F + 1)
      by (field; lra).
    rewrite E1, E2 in Hdiv. exact Hdiv. }
  assert (Hd : (1 # 17592186044416) <= / inject_Z n).
  { change (1 # 17592186044416) with (/ 17592186044416).
    apply Qle_shift_inv_l; [exact Qn|].
    assert (E : / 17592186044416 * inject_Z n == inject_Z n / 17592186044416)
      by (field; discriminate).
    rewrite E. apply Qle_shift_div_r; [reflexivity|]. lra. }
  split.
  - assert (H : inject_Z (F - 1) <= y).
    { unfold Zminus. rewrite inject_Z_plus, inject_Z_opp.
      change (inject_Z 1) with 1. lra. }
    apply Qfloor_resp_le in H. rewrite Qfloor_Z in H. exact H.
  - assert (H : y < inject_Z (F + 1)).
    { rewrite inject_Z_plus. change (inject_Z 1) with 1. lra. }
    pose proof (Qfloor_le y) as Hfl.
    assert (Hlt : inject_Z (Qfloor y) < inject_Z (F + 1)) by lra.
    rewrite <- Zlt_Qlt in Hlt. lia.
Qed.

Local Close Scope Q_scope.

(** The model of this file and the operations of [SpecFloat] give the same
    progress value for every number of chunks up to 100. *)
Lemma percent_agrees_with_SpecFloat :
  forallb (fun n =>
    forallb (fun k => bool_decide (percent_SF k n = Some (percentZ k n)))
            (Z_range 1 n))
    (Z_range 1 100) = true.
Proof. vm_compute. reflexivity. Qed.

(** ** Chunking *)

(** C2.  For every text of length L, chunking produces exactly
    ceil(L / 4500) chunks (the least n with L <= 4500 n), each of at most
    4500 characters; the chunks concatenated in order are the text; the
    empty text has no chunk. *)
Theorem chunking_partitions_text {A} (text : list A) :
  length (make_chunks text) = (length text + 4499) / 4500 /\
  length text <= length (make_chunks text) * 4500 < length text + 4500 /\
  Forall (fun c : list A => length c <= 4500) (make_chunks text) /\
  concat (make_chunks text) = text /\
  make_chunks ([] : list A) = [].
Proof.
  assert (Hsize : 0 < CHUNK_SIZE) by (unfold CHUNK_SIZE; lia).
  assert (Hlen : length (make_chunks text) = (length text + 4499) / 4500).
  { unfold make_chunks. rewrite chunks_of_length by exact Hsize. reflexivity. }
  split; [exact Hlen|].
  split.
  { rewrite Hlen.
    pose proof (Nat.div_mod_eq (length text + 4499) 4500) as Hdiv.
    pose proof (Nat.mod_upper_bound (length text + 4499) 4500) as Hmod.
    lia. }
  split; [apply chunks_of_bounded|].
  split; [apply chunks_of_concat; exact Hsize|reflexivity].
Qed.

(** ** Retries *)

Lemma chunk_loop_reach w E n chunks i chunk pre acc :
  chunks !! i = Some chunk ->
  chunk_loop w E n 0 (take i chunks) [] = (pre, Ok (Some acc)) ->
  chunk_loop w E n 0 chunks [] =
  (pre ++ events (chunk_loop w E n i (chunk :: drop (S i) chunks) acc),
   result (chunk_loop w E n i (chunk :: drop (S i) chunks) acc)).
Proof.
  intros Hi Hpre.
  pose proof (chunk_loop_app w E n (take i chunks) (chunk :: drop (S i) chunks) 0 [])
    as Happ.
  rewrite take_drop_middle in Happ by exact Hi.
  rewrite Happ, Hpre. cbn [Nat.add].
  rewrite length_take, Nat.min_l; [reflexivity|].
  apply lookup_lt_Some in Hi. lia.
Qed.

Lemma failed_after_eq e :
  failed_after e = lit "Translation failed after 3 attempts. Error: " ++ e.
Proof. reflexivity. Qed.

Lemma translate_chunk_count_net w E i a chunk :
  count is_net (events (_translate_chunk w E i a chunk)) <= 1.
Proof.
  destruct (translate_chunk_shape w E i a chunk) as [[m ->]|[c ->]];
    unfold events; cbn [fst]; rewrite ?count_cons, ?count_nil; cbn; lia.
Qed.

Lemma translate_chunk_count_sleep w E i a chunk :
  count is_sleep (events (_translate_chunk w E i a chunk)) = 0.
Proof.
  destruct (translate_chunk_shape w E i a chunk) as [[m ->]|[c ->]];
    unfold events; cbn [fst]; rewrite ?count_cons, ?count_nil; cbn; lia.
Qed.

(** C1.  For every chunk the retry loop makes at most three attempts, the
    second after a sleep of 2 seconds and the third after a sleep of 4
    seconds, and it stops at the first attempt that succeeds.  When a chunk
    is reached and its three attempts fail, the run ends with the error
    signal, whose text ends with the description of the last error; nothing
    is done for any later chunk. *)
Theorem three_attempts_then_failure (w : TranslationWorker) (E : env) :
  (forall i chunk acc,
     let attempt a := _translate_chunk w E i a chunk in
     let loop := retry_loop w E i chunk (py_range 0 max_retries 1) 2 acc in
     (forall t, result (attempt 0) = Ok t ->
        loop = (events (attempt 0), Ok (acc ++ t ++ lit " "))) /\
     (forall e0 t, result (attempt 0) = Exc e0 -> result (attempt 1) = Ok t ->
        loop = (events (attempt 0)
                ++ [StatusUpdate (retry_status 1 i); Sleep 2]
                ++ events (attempt 1),
                Ok (acc ++ t ++ lit " "))) /\
     (forall e0 e1 t, result (attempt 0) = Exc e0 ->
        result (attempt 1) = Exc e1 -> result (attempt 2) = Ok t ->
        loop = (events (attempt 0)
                ++ [StatusUpdate (retry_status 1 i); Sleep 2]
                ++ events (attempt 1)
                ++ [StatusUpdate (retry_status 2 i); Sleep 4]
                ++ events (attempt 2),
                Ok (acc ++ t ++ lit " "))) /\
     (forall e0 e1 e2, result (attempt 0) = Exc e0 ->
        result (attempt 1) = Exc e1 -> result (attempt 2) = Exc e2 ->
        loop = (events (attempt 0)
                ++ [StatusUpdate (retry_status 1 i); Sleep 2]
                ++ events (attempt 1)
                ++ [StatusUpdate (retry_status 2 i); Sleep 4]
                ++ events (attempt 2),
                Exc (lit "Translation failed after 3 attempts. Error: " ++ e2))) /\
     count is_net (events loop) <= 3 /\
     count is_sleep (events loop) <= 2) /\
  (forall i chunk pre acc e0 e1 e2,
     let chunks := make_chunks (text w) in
     let attempt a := _translate_chunk w E i a chunk in
     chunks !! i = Some chunk ->
     chunk_loop w E (length chunks) 0 (take i chunks) [] = (pre, Ok (Some acc)) ->
     is_running E i = true ->
     result (attempt 0) = Exc e0 ->
     result (attempt 1) = Exc e1 ->
     result (attempt 2) = Exc e2 ->
     run w E =
       [StatusUpdate (translating_status (length chunks))]
       ++ pre
       ++ [ReadIsRunning true; StatusUpdate (processing_status i (length chunks))]
       ++ events (attempt 0)
       ++ [StatusUpdate (retry_status 1 i); Sleep 2]
       ++ events (attempt 1)
       ++ [StatusUpdate (retry_status 2 i); Sleep 4]
       ++ events (attempt 2)
       ++ [TranslationError
             (lit "Translation failed after 3 attempts. Error: " ++ e2)] /\
     outcomes (run w E) =
       [Failure (lit "Translation failed after 3 attempts. Error: " ++ e2)]).
Proof.
  split.
  - intros i chunk acc attempt loop. subst loop.
    rewrite retry_loop_closed.
    pose proof (translate_chunk_count_net w E i 0 chunk) as N0.
    pose proof (translate_chunk_count_net w E i 1 chunk) as N1.
    pose proof (translate_chunk_count_net w E i 2 chunk) as N2.
    pose proof (translate_chunk_count_sleep w E i 0 chunk) as S0.
    pose proof (translate_chunk_count_sleep w E i 1 chunk) as S1.
    pose proof (translate_chunk_count_sleep w E i 2 chunk) as S2.
    subst attempt. cbn beta.
    destruct (_translate_chunk w E i 0 chunk) as [ev0 [t0|x0]];
      [|destruct (_translate_chunk w E i 1 chunk) as [ev1 [t1|x1]];
        [|destruct (_translate_chunk w E i 2 chunk) as [ev2 [t2|x2]]]];
      unfold events, result, retry_pause in *; cbn [fst snd] in *;
      (repeat split;
       try (intros; simplify_eq; rewrite ?failed_after_eq; reflexivity);
       rewrite ?count_app, ?count_cons, ?count_nil; cbn [is_net is_sleep]; try lia).
  - intros i chunk pre acc e0 e1 e2 chunks attempt Hi Hpre Hrun H0 H1 H2.
    assert (Hrun_eq : run w E =
       [StatusUpdate (translating_status (length chunks))]
       ++ pre
       ++ [ReadIsRunning true; StatusUpdate (processing_status i (length chunks))]
       ++ events (attempt 0)
       ++ [StatusUpdate (retry_status 1 i); Sleep 2]
       ++ events (attempt 1)
       ++ [StatusUpdate (retry_status 2 i); Sleep 4]
       ++ events (attempt 2)
       ++ [TranslationError
             (lit "Translation failed after 3 attempts. Error: " ++ e2)]).
    { rewrite (run_unfold w E chunks eq_refl).
      rewrite (chunk_loop_reach w E _ chunks i chunk pre acc Hi Hpre).
      rewrite chunk_loop_cons, Hrun, retry_loop_closed.
      subst attempt. cbn beta in *.
      destruct (_translate_chunk w E i 0 chunk) as [ev0 [t0|x0]];
        [discriminate H0|].
      destruct (_translate_chunk w E i 1 chunk) as [ev1 [t1|x1]];
        [discriminate H1|].
      destruct (_translate_chunk w E i 2 chunk) as [ev2 [t2|x2]];
        [discriminate H2|].
      unfold events, result, retry_pause, chunk_start in *; cbn [fst snd] in *.
      injection H2 as ->. rewrite failed_after_eq.
      norm_app. reflexivity. }
    split; [exact Hrun_eq|].
    rewrite Hrun_eq.
    pose proof (chunk_loop_outcomes w E (length chunks) (take i chunks) 0 []) as Hout.
    rewrite Hpre in Hout. unfold events in Hout. cbn [fst] in Hout.
    rewrite !outcomes_app, Hout. subst attempt. cbn beta.
    rewrite (retry_events_outcomes i (events (_translate_chunk w E i 0 chunk)))
      by apply translate_chunk_events.
    rewrite (retry_events_outcomes i (events (_translate_chunk w E i 1 chunk)))
      by apply translate_chunk_events.
    rewrite (retry_events_outcomes i (events (_translate_chunk w E i 2 chunk)))
      by apply translate_chunk_events.
    reflexivity.
Qed.

Lemma three_attempts_witness :
  outcomes (run (worker_hi (lit "googletrans") []) (env_raising (lit "boom"))) =
  [Failure (lit "Translation failed after 3 attempts. Error: boom")].
Proof.
  apply (proj2 (three_attempts_then_failure
                  (worker_hi (lit "googletrans") []) (env_raising (lit "boom")))
               0 (lit "hi") [] [] (lit "boom") (lit "boom") (lit "boom"));
    reflexivity.
Defined.

(** ** Errors raised before any call: a missing DeepL key, an unknown
    backend *)

Lemma make_chunks_cons {A} (text : list A) :
  text <> [] -> exists chunk rest, make_chunks text = chunk :: rest.
Proof.
  intros Hne. destruct (make_chunks text) as [|chunk rest] eqn:Hc; [|eauto].
  exfalso. apply Hne.
  rewrite <- (chunks_of_concat text CHUNK_SIZE) by (unfold CHUNK_SIZE; lia).
  unfold make_chunks in Hc. rewrite Hc. reflexivity.
Qed.

Lemma make_chunks_nil {A} : make_chunks ([] : list A) = [].
Proof. reflexivity. Qed.

(** A run whose adapter raises [msg] by itself at every attempt. *)
Lemma run_local_failure w E msg :
  (forall i a chunk, _translate_chunk w E i a chunk = ([], Exc msg)) ->
  count is_net (run w E) = 0 /\
  (text w <> [] -> is_running E 0 = true ->
   run w E =
     [StatusUpdate (translating_status (length (make_chunks (text w))));
      ReadIsRunning true;
      StatusUpdate (processing_status 0 (length (make_chunks (text w))));
      StatusUpdate (retry_status 1 0); Sleep 2;
      StatusUpdate (retry_status 2 0); Sleep 4;
      TranslationError (failed_after msg)]).
Proof.
  intros Hlocal.
  assert (Hfirst : forall chunk rest, make_chunks (text w) = chunk :: rest ->
                   is_running E 0 = true ->
                   run w E =
     [StatusUpdate (translating_status (length (make_chunks (text w))));
      ReadIsRunning true;
      StatusUpdate (processing_status 0 (length (make_chunks (text w))));
      StatusUpdate (retry_status 1 0); Sleep 2;
      StatusUpdate (retry_status 2 0); Sleep 4;
      TranslationError (failed_after msg)]).
  { intros chunk rest Hc Hrun. rewrite (run_unfold w E _ Hc), Hc.
    rewrite chunk_loop_cons, Hrun, retry_loop_closed, !Hlocal.
    unfold events, result, chunk_start, retry_pause. cbn [fst snd].
    norm_app. reflexivity. }
  split.
  - destruct (make_chunks (text w)) as [|chunk rest] eqn:Hc.
    + rewrite (run_unfold w E _ eq_refl), Hc. cbn [chunk_loop].
      unfold mret, M_mret, M_ret, events, result. cbn [fst snd app].
      rewrite !count_cons, count_nil. reflexivity.
    + destruct (is_running E 0) eqn:Hrun.
      * rewrite (Hfirst chunk rest eq_refl eq_refl).
        rewrite !count_cons, count_nil. reflexivity.
      * rewrite (run_unfold w E _ eq_refl), Hc, chunk_loop_cons, Hrun.
        unfold events, result. cbn [fst snd app].
        rewrite !count_cons, count_nil. reflexivity.
  - intros Hne Hrun.
    destruct (make_chunks_cons (text w) Hne) as (chunk & rest & Hc).
    rewrite (Hfirst chunk rest Hc Hrun), Hc. reflexivity.
Qed.

Lemma translate_chunk_deepl_no_key w E i a chunk :
  translation_backend w = lit "deepl" -> deepl_api_key w = [] ->
  _translate_chunk w E i a chunk = ([], Exc deepl_key_required).
Proof.
  intros Hb Hk. unfold _translate_chunk, _translate_with_deepl.
  rewrite Hb, Hk. reflexivity.
Qed.

Lemma translate_chunk_unknown w E i a chunk :
  translation_backend w <> lit "googletrans" ->
  translation_backend w <> lit "deep-translator" ->
  translation_backend w <> lit "deepl" ->
  _translate_chunk w E i a chunk =
  ([], Exc (lit "Unknown translation backend: " ++ translation_backend w)).
Proof.
  intros H1 H2 H3. unfold _translate_chunk, str_eqb.
  rewrite !bool_decide_eq_false_2 by assumption. reflexivity.
Qed.

(** C3, as the code has it.  With the DeepL backend and an empty key no run
    makes a network call.  The error is raised inside the retry loop, so it
    is retried like any other: when the text is not empty and the run is
    not stopped before its first chunk, the run sleeps 2 and 4 seconds
    between three attempts and then fails with the missing-key message
    wrapped in "Translation failed after 3 attempts". *)
Theorem deepl_missing_key_no_call_but_retried (w : TranslationWorker) (E : env) :
  translation_backend w = lit "deepl" ->
  deepl_api_key w = [] ->
  count is_net (run w E) = 0 /\
  (text w <> [] -> is_running E 0 = true ->
   run w E =
     [StatusUpdate (translating_status (length (make_chunks (text w))));
      ReadIsRunning true;
      StatusUpdate (processing_status 0 (length (make_chunks (text w))));
      StatusUpdate (lit "Retry 1/2 for chunk 1..."); Sleep 2;
      StatusUpdate (lit "Retry 2/2 for chunk 1..."); Sleep 4;
      TranslationError
        (lit "Translation failed after 3 attempts. Error: DeepL API key is required. Please configure it in Settings.")]).
Proof.
  intros Hb Hk.
  exact (run_local_failure w E deepl_key_required
           (fun i a chunk => translate_chunk_deepl_no_key w E i a chunk Hb Hk)).
Qed.

Lemma deepl_missing_key_witness :
  count is_net (run (worker_hi (lit "deepl") []) (env_returning (lit "hola"))) = 0.
Proof.
  apply (deepl_missing_key_no_call_but_retried
           (worker_hi (lit "deepl") []) (env_returning (lit "hola")));
    reflexivity.
Defined.

(** The claim C3 as stated fails: the run of the worker for "hi" with the
    DeepL backend and no key does not fail at once; it retries twice and
    sleeps 6 seconds before it reports the error. *)
Lemma deepl_missing_key_counterexample :
  translation_backend (worker_hi (lit "deepl") []) = lit "deepl" /\
  deepl_api_key (worker_hi (lit "deepl") []) = [] /\
  count is_sleep (run (worker_hi (lit "deepl") []) (env_returning (lit "hola"))) = 2 /\
  run (worker_hi (lit "deepl") []) (env_returning (lit "hola")) =
    [StatusUpdate (lit "Translating 1 chunk(s)...");
     ReadIsRunning true;
     StatusUpdate (lit "Processing chunk 1/1...");
     StatusUpdate (lit "Retry 1/2 for chunk 1..."); Sleep 2;
     StatusUpdate (lit "Retry 2/2 for chunk 1..."); Sleep 4;
     TranslationError
       (lit "Translation failed after 3 attempts. Error: DeepL API key is required. Please configure it in Settings.")].
Proof. vm_compute. repeat split. Qed.

(** C7, as the code has it.  With a backend selector that is none of the
    three known ones no run makes a network call.  The error is raised
    inside the retry loop and retried: when the text is not empty and the
    run is not stopped before its first chunk, the run sleeps 2 and 4
    seconds between three attempts and then fails with the unknown-backend
    message wrapped in "Translation failed after 3 attempts". *)
Theorem unknown_backend_no_call_but_retried (w : TranslationWorker) (E : env) :
  translation_backend w <> lit "googletrans" ->
  translation_backend w <> lit "deep-translator" ->
  translation_backend w <> lit "deepl" ->
  count is_net (run w E) = 0 /\
  (text w <> [] -> is_running E 0 = true ->
   run w E =
     [StatusUpdate (translating_status (length (make_chunks (text w))));
      ReadIsRunning true;
      StatusUpdate (processing_status 0 (length (make_chunks (text w))));
      StatusUpdate (lit "Retry 1/2 for chunk 1..."); Sleep 2;
      StatusUpdate (lit "Retry 2/2 for chunk 1..."); Sleep 4;
      TranslationError
        (lit "Translation failed after 3 attempts. Error: Unknown translation backend: "
         ++ translation_backend w)]).
Proof.
  intros H1 H2 H3.
  pose proof (run_local_failure w E
                (lit "Unknown translation backend: " ++ translation_backend w)
                (fun i a chunk => translate_chunk_unknown w E i a chunk H1 H2 H3))
    as [Hnet Hrun].
  split; [exact Hnet|].
  intros Hne Hr. rewrite (Hrun Hne Hr). reflexivity.
Qed.

Lemma unknown_backend_witness :
  count is_net (run (worker_hi (lit "bing") []) (env_returning (lit "hola"))) = 0.
Proof.
  apply (unknown_backend_no_call_but_retried
           (worker_hi (lit "bing") []) (env_returning (lit "hola")));
    discriminate.
Defined.

(** The claim C7 as stated fails: the run of the worker for "hi" with the
    selector "bing" does not fail at once; it retries twice and sleeps 6
    seconds before it reports the error. *)
Lemma unknown_backend_counterexample :
  translation_backend (worker_hi (lit "bing") []) <> lit "googletrans" /\
  translation_backend (worker_hi (lit "bing") []) <> lit "deep-translator" /\
  translation_backend (worker_hi (lit "bing") []) <> lit "deepl" /\
  count is_sleep (run (worker_hi (lit "bing") []) (env_returning (lit "hola"))) = 2 /\
  run (worker_hi (lit "bing") []) (env_returning (lit "hola")) =
    [StatusUpdate (lit "Translating 1 chunk(s)...");
     ReadIsRunning true;
     StatusUpdate (lit "Processing chunk 1/1...");
     StatusUpdate (lit "Retry 1/2 for chunk 1..."); Sleep 2;
     StatusUpdate (lit "Retry 2/2 for chunk 1..."); Sleep 4;
     TranslationError
       (lit "Translation failed after 3 attempts. Error: Unknown translation backend: bing")].
Proof. repeat split; try discriminate; vm_compute; reflexivity. Qed.

(** ** The DeepL language codes *)

Lemma deepl_lang_items_nodup : NoDup (deepl_lang_items.*1).
Proof. apply (bool_decide_unpack _). vm_compute. exact I. Qed.

(** C9.  A target language code that is a key of the fixed map is sent to
    DeepL as the value the map gives it ('en' as 'EN-US', 'pt' as 'PT-PT',
    'no' as 'NB'); any other code is sent upper-cased ('zh-cn' as 'ZH-CN'). *)
Theorem deepl_language_codes (E : env) (code : str) :
  (forall v, (code, v) ∈ deepl_lang_items -> deepl_target_lang E code = v) /\
  (code ∉ deepl_lang_items.*1 ->
   deepl_target_lang E code = py_upper (unicode_upper E) code) /\
  deepl_target_lang E (lit "en") = lit "EN-US" /\
  deepl_target_lang E (lit "pt") = lit "PT-PT" /\
  deepl_target_lang E (lit "no") = lit "NB" /\
  deepl_target_lang E (lit "zh-cn") = lit "ZH-CN" /\
  (forall w i a chunk,
     translation_backend w = lit "deepl" -> deepl_api_key w <> [] ->
     target_lang w = code ->
     exists r,
       events (_translate_chunk w E i a chunk) =
       [Net i a (DeeplCall (deepl_api_key w) chunk (deepl_target_lang E code)) r]).
Proof.
  split.
  { intros v Hin. unfold deepl_target_lang, dict_get, deepl_lang_map.
    rewrite (elem_of_list_to_map_1 deepl_lang_items code v deepl_lang_items_nodup Hin).
    reflexivity. }
  split.
  { intros Hnotin. unfold deepl_target_lang, dict_get, deepl_lang_map.
    rewrite (not_elem_of_list_to_map_1 deepl_lang_items code Hnotin).
    reflexivity. }
  repeat (split; [vm_compute; reflexivity|]).
  intros w i a chunk Hb Hk <-.
  unfold _translate_chunk, _translate_with_deepl, str_eqb. rewrite Hb.
  rewrite (bool_decide_eq_false_2 (deepl_api_key w = [])) by exact Hk.
  eexists. vm_compute bool_decide. reflexivity.
Qed.

Lemma deepl_language_codes_witness :
  deepl_target_lang (env_returning []) (lit "fi") = lit "FI" /\
  deepl_target_lang (env_returning []) (lit "sw") = lit "SW".
Proof.
  split.
  - apply (proj1 (deepl_language_codes (env_returning []) (lit "fi"))).
    apply (bool_decide_unpack _). vm_compute. exact I.
  - rewrite (proj1 (proj2 (deepl_language_codes (env_returning []) (lit "sw")))).
    + reflexivity.
    + apply (bool_decide_unpack _). vm_compute. exact I.
Defined.

(** ** The guard of the translate button *)

(** C10.  When the source text is empty or equal to the placeholder
    "Enter or paste your text here...", [translate_text] only sets the
    warning in the status label: the worker field is unchanged, no worker is
    stopped, created or started, and so no outcome is delivered.  Any
    other text starts exactly one worker, for that text. *)
Theorem placeholder_or_empty_is_rejected (app : TranslatorApp) (E : env) :
  (source_text app = [] \/ source_text app = lit "Enter or paste your text here..." ->
   snd (translate_text app) = [] /\
   started (snd (translate_text app)) = [] /\
   delivered E (snd (translate_text app)) = [] /\
   worker (fst (translate_text app)) = worker app /\
   target_text (fst (translate_text app)) = target_text app /\
   translate_button_enabled (fst (translate_text app)) = translate_button_enabled app /\
   status_label (fst (translate_text app)) = please_enter_text) /\
  (source_text app <> [] ->
   source_text app <> lit "Enter or paste your text here..." ->
   exists w, started (snd (translate_text app)) = [w] /\ text w = source_text app).
Proof.
  split.
  - intros Hsrc. unfold translate_text, str_eqb, PLACEHOLDER.
    assert (Hguard : bool_decide (source_text app = [])
                     || bool_decide (source_text app = lit "Enter or paste your text here...")
                     = true).
    { destruct Hsrc as [H|H]; rewrite H; reflexivity. }
    rewrite Hguard. cbn [fst snd]. repeat split; reflexivity.
  - intros Hne Hph. unfold translate_text, str_eqb, PLACEHOLDER.
    rewrite !bool_decide_eq_false_2 by assumption. cbn [orb fst snd].
    eexists. split.
    + unfold started. rewrite omap_app.
      destruct (worker app) as [old|]; [destruct (handle_thread_running old)|];
        reflexivity.
    + reflexivity.
Qed.

Lemma placeholder_or_empty_witness :
  delivered (env_returning (lit "hola"))
    (snd (translate_text (fresh_app (lit "Enter or paste your text here...")))) = [] /\
  exists w, started (snd (translate_text (fresh_app (lit "hi")))) = [w]
            /\ text w = lit "hi".
Proof.
  split.
  - apply (proj1 (placeholder_or_empty_is_rejected
                    (fresh_app (lit "Enter or paste your text here..."))
                    (env_returning (lit "hola")))).
    right. reflexivity.
  - apply (proj2 (placeholder_or_empty_is_rejected
                    (fresh_app (lit "hi")) (env_returning (lit "hola"))));
      discriminate.
Defined.

(** ** Cancellation *)

Lemma run_outcomes w E :
  outcomes (run w E) =
  final_outcome (result (chunk_loop w E (length (make_chunks (text w))) 0
                           (make_chunks (text w)) [])).
Proof.
  rewrite (run_unfold w E _ eq_refl). cbn [outcomes].
  rewrite outcomes_app, chunk_loop_outcomes.
  destruct (result _) as [[t|]|e]; reflexivity.
Qed.

Lemma chunk_loop_reads w E n chunks : forall i acc,
  count is_read (events (chunk_loop w E n i chunks acc)) <= length chunks.
Proof.
  induction chunks as [|chunk rest IH]; intros i acc; [cbn; lia|].
  chunk_step w E n i chunk acc; unfold chunk_start;
    rewrite ?count_app, ?count_cons, ?count_nil,
      ?(retry_events_reads i ev) by assumption;
    cbn [is_read length]; try lia.
  specialize (IH (i + 1) acc'). lia.
Qed.

Lemma calls_with_reads_snoc ev : forall reads e,
  is_read e = false -> is_net e = false ->
  calls_with_reads reads (ev ++ [e]) = calls_with_reads reads ev.
Proof.
  induction ev as [|e0 ev IH]; intros reads e Hr Hn.
  - destruct e; try discriminate; reflexivity.
  - destruct e0; cbn [app calls_with_reads]; rewrite ?IH by assumption;
      reflexivity.
Qed.

Lemma translate_chunk_never_stopped w E i a chunk :
  _translate_chunk w (never_stopped E) i a chunk = _translate_chunk w E i a chunk.
Proof. reflexivity. Qed.

Lemma retry_loop_never_stopped w E i chunk acc :
  retry_loop w (never_stopped E) i chunk (py_range 0 max_retries 1) 2 acc
  = retry_loop w E i chunk (py_range 0 max_retries 1) 2 acc.
Proof.
  rewrite !retry_loop_closed, !translate_chunk_never_stopped. reflexivity.
Qed.

Lemma cancel_seen_app t1 t2 :
  cancel_seen (t1 ++ t2) = cancel_seen t1 || cancel_seen t2.
Proof. unfold cancel_seen. apply existsb_app. Qed.

(** A read that returns [False] is the read of an iteration of the loop. *)
Lemma chunk_loop_cancel_where w E n chunks : forall i acc,
  cancel_seen (events (chunk_loop w E n i chunks acc)) = true ->
  exists j, i <= j < i + length chunks /\ is_running E j = false.
Proof.
  induction chunks as [|chunk rest IH]; intros i acc; [discriminate|].
  rewrite chunk_loop_cons.
  destruct (is_running E i) eqn:Hrun;
    [|intros _; exists i; cbn [length]; split; [lia|exact Hrun]].
  pose proof (retry_loop_events w E i chunk acc) as Hretry.
  destruct (retry_loop w E i chunk (py_range 0 max_retries 1) 2 acc)
    as [ev [acc'|e]]; unfold events in *; cbn [fst] in *.
  - destruct n as [|n']; cbn [fst]; unfold chunk_start;
      rewrite !cancel_seen_app, ?(retry_events_cancel_seen i ev Hretry);
      cbn [cancel_seen existsb orb]; [discriminate|].
    intros Hc. destruct (IH (i + 1) acc' Hc) as (j & Hj & Hstop).
    exists j. cbn [length]. split; [lia|exact Hstop].
  - unfold chunk_start.
    rewrite !cancel_seen_app, ?(retry_events_cancel_seen i ev Hretry).
    cbn [cancel_seen existsb orb]. discriminate.
Qed.

(** A loop in which no read returns [False] is the loop of the world in
    which [stop()] is never called. *)
Lemma chunk_loop_never_stopped w E n chunks : forall i acc,
  cancel_seen (events (chunk_loop w E n i chunks acc)) = false ->
  chunk_loop w (never_stopped E) n i chunks acc = chunk_loop w E n i chunks acc.
Proof.
  induction chunks as [|chunk rest IH]; intros i acc; [reflexivity|].
  rewrite !chunk_loop_cons, retry_loop_never_stopped.
  change (is_running (never_stopped E) i) with true.
  destruct (is_running E i) eqn:Hrun; [|discriminate].
  pose proof (retry_loop_events w E i chunk acc) as Hretry.
  destruct (retry_loop w E i chunk (py_range 0 max_retries 1) 2 acc)
    as [ev [acc'|e]]; [|reflexivity].
  destruct n as [|n']; [reflexivity|].
  unfold events in *. cbn [fst] in *. unfold chunk_start.
  rewrite !cancel_seen_app. intros Hc.
  apply orb_false_elim in Hc as [_ Hc].
  apply orb_false_elim in Hc as [_ Hc].
  apply orb_false_elim in Hc as [_ Hc].
  rewrite (IH (i + 1) acc' Hc). reflexivity.
Qed.

(** C4, as the code has it.  The flag is read once at the top of each
    iteration: every backend call for chunk [i] has exactly [i + 1] reads
    before it, and a run reads the flag at most once per chunk.  When a
    read returns [False] the run ends there: nothing follows that read, and
    neither the done nor the error signal is emitted.  In particular, when
    the loop reaches chunk [k] and the flag is cleared by then, the run
    consists of what was done for the chunks before [k] and that read.
    A cancellation that no read observes has no effect at all: the run is
    the run of the world in which [stop()] is never called, and it delivers
    its outcome; a run delivers no outcome only when a read returned
    [False].  This is so whenever the flag is still set at the reads of all
    chunks, whatever happens to it afterwards. *)
Theorem cancellation_at_chunk_boundary (w : TranslationWorker) (E : env) :
  Forall (fun p => p.2 = p.1 + 1) (calls_with_reads 0 (run w E)) /\
  count is_read (run w E) <= length (make_chunks (text w)) /\
  after_cancel (run w E) = [] /\
  (cancel_seen (run w E) = true -> outcomes (run w E) = []) /\
  (forall k chunk pre acc,
     let chunks := make_chunks (text w) in
     chunks !! k = Some chunk ->
     chunk_loop w E (length chunks) 0 (take k chunks) [] = (pre, Ok (Some acc)) ->
     is_running E k = false ->
     run w E = [StatusUpdate (translating_status (length chunks))]
               ++ pre ++ [ReadIsRunning false]
     /\ outcomes (run w E) = []) /\
  (outcomes (run w E) = [] -> cancel_seen (run w E) = true) /\
  (cancel_seen (run w E) = false ->
     run w E = run w (never_stopped E)
     /\ exists o, outcomes (run w E) = [o]
                  /\ last (run w E) = Some (event_of_outcome o)) /\
  ((forall i, i < length (make_chunks (text w)) -> is_running E i = true) ->
     cancel_seen (run w E) = false).
Proof.
  set (chunks := make_chunks (text w)).
  set (n := length chunks).
  pose proof (chunk_loop_cancel w E n chunks 0 []) as [Hafter Hseen].
  pose proof (chunk_loop_calls w E n chunks 0 []) as Hcalls.
  pose proof (chunk_loop_reads w E n chunks 0 []) as Hreads.
  pose proof (chunk_loop_cancel_where w E n chunks 0 []) as Hwhere.
  pose proof (chunk_loop_never_stopped w E n chunks 0 []) as Hnever.
  pose proof (run_unfold w E chunks eq_refl) as Hrun. fold n in Hrun.
  pose proof (run_unfold w (never_stopped E) chunks eq_refl) as Hrun'.
  fold n in Hrun'.
  pose proof (run_outcomes w E) as Hout. fold chunks in Hout. fold n in Hout.
  destruct (chunk_loop w E n 0 chunks []) as [ev r] eqn:Hloop.
  unfold events, result in *. cbn [fst snd] in *.
  assert (Hsame : cancel_seen (run w E) = cancel_seen ev).
  { rewrite Hrun. cbn [cancel_seen existsb orb]. rewrite existsb_app.
    fold (cancel_seen ev).
    destruct r as [[t|]|e]; cbn [existsb orb]; rewrite orb_false_r; reflexivity. }
  assert (Hcancelled : cancel_seen (run w E) = true -> r = Ok None).
  { rewrite Hsame. apply Hseen. }
  split; [|split; [|split; [|split; [|split; [|split; [|split]]]]]].
  - rewrite Hrun. cbn [calls_with_reads].
    destruct r as [[t|]|e];
      rewrite ?app_nil_r, ?calls_with_reads_snoc by reflexivity; exact Hcalls.
  - fold chunks. fold n. rewrite Hrun, count_cons, count_app. cbn [is_read].
    destruct r as [[t|]|e]; rewrite ?count_cons, ?count_nil; cbn [is_read];
      cbn [Nat.add]; rewrite ?Nat.add_0_r; exact Hreads.
  - rewrite Hrun. cbn [after_cancel].
    destruct (cancel_seen ev) eqn:Hc.
    + rewrite (proj1 Hseen eq_refl), app_nil_r. exact Hafter.
    + assert (Hno : forall tl, after_cancel (ev ++ tl) = after_cancel tl).
      { clear -Hc. induction ev as [|e ev IH]; intros tl; [reflexivity|].
        cbn [cancel_seen existsb] in Hc. apply orb_false_elim in Hc as [He Hev].
        destruct e as [| | | | |[]|]; try discriminate He;
          cbn [app after_cancel]; apply IH; exact Hev. }
      rewrite Hno. destruct r as [[t|]|e]; reflexivity.
  - intros Hc. rewrite Hout, (Hcancelled Hc). reflexivity.
  - intros k chunk pre acc. cbn zeta. fold chunks. fold n.
    intros Hk Hpre Hstop.
    pose proof (chunk_loop_reach w E n chunks k chunk pre acc Hk Hpre) as Hreach.
    rewrite chunk_loop_cons, Hstop in Hreach.
    unfold events, result in Hreach. cbn [fst snd] in Hreach.
    rewrite Hloop in Hreach. injection Hreach as -> ->.
    split; [|rewrite Hout; reflexivity].
    rewrite Hrun, app_nil_r. reflexivity.
  - rewrite Hout, Hsame. intros Hnone. apply Hseen.
    destruct r as [[t|]|e]; cbn in Hnone; try discriminate Hnone. reflexivity.
  - rewrite Hsame. intros Hc. split.
    + rewrite Hrun', (Hnever Hc), Hrun. cbn [fst snd]. reflexivity.
    + rewrite Hout, Hrun.
      destruct r as [[t|]|e].
      * exists (Success (strip t)). split; [reflexivity|].
        rewrite app_comm_cons, last_snoc. reflexivity.
      * rewrite (proj2 Hseen eq_refl) in Hc. discriminate Hc.
      * exists (Failure e). split; [reflexivity|].
        rewrite app_comm_cons, last_snoc. reflexivity.
  - fold chunks. fold n. intros Hall. rewrite Hsame.
    destruct (cancel_seen ev) eqn:Hc; [|reflexivity].
    destruct (Hwhere eq_refl) as (j & Hj & Hstop).
    cbn [Nat.add] in Hj. rewrite (Hall j (proj2 Hj)) in Hstop. discriminate Hstop.
Qed.

(** The flag is cleared after the first of two chunks: the second read
    returns [False] and the run ends there.  And for the text "hi" with the
    flag cleared after its only read: the run is that of the world in which
    [stop()] is never called, and it delivers its outcome. *)
Lemma cancellation_witness :
  (run worker_two_chunks (env_stopped_after 1 (lit "hola")) =
     [StatusUpdate (translating_status 2)]
     ++ [ReadIsRunning true;
         StatusUpdate (processing_status 0 2);
         Net 0 0 (GoogletransCall (replicate 4500 97%N) (lit "es"))
           (Returned (lit "hola"));
         Progress 50]
     ++ [ReadIsRunning false]
   /\ outcomes (run worker_two_chunks (env_stopped_after 1 (lit "hola"))) = [])
  /\
  (run (worker_hi (lit "googletrans") []) (env_stopped_after 1 (lit "hola"))
   = run (worker_hi (lit "googletrans") [])
       (never_stopped (env_stopped_after 1 (lit "hola")))
   /\ exists o,
        outcomes (run (worker_hi (lit "googletrans") [])
                    (env_stopped_after 1 (lit "hola"))) = [o]
        /\ last (run (worker_hi (lit "googletrans") [])
                   (env_stopped_after 1 (lit "hola")))
           = Some (event_of_outcome o)).
Proof.
  split.
  - apply (proj1 (proj2 (proj2 (proj2 (proj2
             (cancellation_at_chunk_boundary worker_two_chunks
                (env_stopped_after 1 (lit "hola")))))))
             1 [97%N]
             [ReadIsRunning true;
              StatusUpdate (processing_status 0 2);
              Net 0 0 (GoogletransCall (replicate 4500 97%N) (lit "es"))
                (Returned (lit "hola"));
              Progress 50]
             (lit "hola "));
      vm_compute; reflexivity.
  - apply (proj1 (proj2 (proj2 (proj2 (proj2 (proj2 (proj2
             (cancellation_at_chunk_boundary (worker_hi (lit "googletrans") [])
                (env_stopped_after 1 (lit "hola")))))))))).
    apply (proj2 (proj2 (proj2 (proj2 (proj2 (proj2 (proj2
             (cancellation_at_chunk_boundary (worker_hi (lit "googletrans") [])
                (env_stopped_after 1 (lit "hola")))))))))).
    intros i Hi.
    change (length (make_chunks (text (worker_hi (lit "googletrans") [])))) with 1
      in Hi.
    destruct i as [|i]; [reflexivity|lia].
Defined.

(** The claim C4 as stated fails.  The worker for "hi" reads the flag once,
    at its only chunk boundary, and sees [True]; [stop()] is called after
    that read, while the backend call is in flight (a second read would see
    [False]).  No further check is made, and the done signal is emitted. *)
Lemma cancel_during_last_chunk_counterexample :
  is_running (env_stopped_after 1 (lit "hola")) 0 = true /\
  is_running (env_stopped_after 1 (lit "hola")) 1 = false /\
  run (worker_hi (lit "googletrans") []) (env_stopped_after 1 (lit "hola")) =
    [StatusUpdate (lit "Translating 1 chunk(s)...");
     ReadIsRunning true;
     StatusUpdate (lit "Processing chunk 1/1...");
     Net 0 0 (GoogletransCall (lit "hi") (lit "es")) (Returned (lit "hola"));
     Progress 100;
     TranslationDone (lit "hola")] /\
  outcomes (run (worker_hi (lit "googletrans") [])
                (env_stopped_after 1 (lit "hola"))) = [Success (lit "hola")].
Proof. vm_compute. repeat split. Qed.

(** ** The assembled translation *)

Lemma lstrip_snoc_space t c :
  isspace c = true ->
  lstrip (t ++ [c]) = match lstrip t with [] => [] | u => u ++ [c] end.
Proof.
  intros Hc. induction t as [|a t IH]; cbn [app lstrip].
  - rewrite Hc. reflexivity.
  - destruct (isspace a); [exact IH|reflexivity].
Qed.

Lemma rstrip_snoc_space u c : isspace c = true -> rstrip (u ++ [c]) = rstrip u.
Proof.
  intros Hc. unfold rstrip. rewrite rev_app_distr. cbn [rev app lstrip].
  rewrite Hc. reflexivity.
Qed.

Lemma strip_snoc_space t : strip (t ++ lit " ") = strip t.
Proof.
  unfold strip. change (lit " ") with [32%N].
  rewrite lstrip_snoc_space by reflexivity.
  destruct (lstrip t) as [|a u] eqn:Hl; [reflexivity|].
  apply rstrip_snoc_space. reflexivity.
Qed.

Lemma first_success_retry w E i chunk acc t :
  first_success w E i chunk = Some t ->
  result (retry_loop w E i chunk (py_range 0 max_retries 1) 2 acc)
  = Ok (acc ++ t ++ lit " ").
Proof.
  unfold first_success. rewrite retry_loop_closed.
  destruct (_translate_chunk w E i 0 chunk) as [ev0 [t0|x0]];
    [|destruct (_translate_chunk w E i 1 chunk) as [ev1 [t1|x1]];
      [|destruct (_translate_chunk w E i 2 chunk) as [ev2 [t2|x2]]]];
    unfold result; cbn [snd]; intros H; congruence.
Qed.

Lemma chunk_loop_all_succeed w E n chunks : forall ts i acc,
  n <> 0 ->
  length ts = length chunks ->
  (forall j chunk t, chunks !! j = Some chunk -> ts !! j = Some t ->
     is_running E (i + j) = true /\ first_success w E (i + j) chunk = Some t) ->
  result (chunk_loop w E n i chunks acc)
  = Ok (Some (acc ++ concat (map (fun t => t ++ lit " ") ts))).
Proof.
  induction chunks as [|chunk rest IH]; intros ts i acc Hn Hlen Hall.
  - destruct ts; [|discriminate Hlen]. cbn. rewrite app_nil_r. reflexivity.
  - destruct ts as [|t ts]; [discriminate Hlen|].
    destruct (Hall 0 chunk t eq_refl eq_refl) as [Hrun Hfirst].
    rewrite Nat.add_0_r in Hrun, Hfirst.
    pose proof (first_success_retry w E i chunk acc t Hfirst) as Hretry.
    rewrite chunk_loop_cons, Hrun.
    destruct (retry_loop w E i chunk (py_range 0 max_retries 1) 2 acc)
      as [ev r]. unfold result in Hretry. cbn [snd] in Hretry. subst r.
    destruct n; [congruence|].
    unfold result at 1. cbn [snd].
    rewrite (IH ts (i + 1) (acc ++ t ++ lit " ") Hn).
    + cbn [map concat]. rewrite <- !app_assoc. reflexivity.
    + cbn [length] in Hlen. lia.
    + intros j c u Hc Hu.
      replace (i + 1 + j) with (i + S j) by lia.
      apply Hall; assumption.
Qed.

(** C5, as the code has it.  When every chunk is translated (no read of the
    flag stops the run, and one of the three attempts succeeds for each
    chunk), the run delivers exactly one outcome: Success with the
    translations in chunk order, a space after each, and whitespace
    stripped at BOTH ends of that buffer ([str.strip()]).  For a text that
    is not empty and not longer than 4500 characters there is one chunk and
    the result is that chunk's translation, stripped at both ends. *)
Theorem success_is_stripped_concatenation
    (w : TranslationWorker) (E : env) (ts : list str) :
  length ts = length (make_chunks (text w)) ->
  (forall i chunk t,
     make_chunks (text w) !! i = Some chunk -> ts !! i = Some t ->
     is_running E i = true /\ first_success w E i chunk = Some t) ->
  outcomes (run w E) = [Success (strip (concat (map (fun t => t ++ lit " ") ts)))] /\
  (text w <> [] -> length (text w) <= 4500 ->
   exists t, ts = [t] /\ make_chunks (text w) = [text w]
             /\ outcomes (run w E) = [Success (strip t)]).
Proof.
  intros Hlen Hall.
  assert (Hout : outcomes (run w E)
                 = [Success (strip (concat (map (fun t => t ++ lit " ") ts)))]).
  { rewrite run_outcomes.
    destruct (make_chunks (text w)) as [|chunk rest] eqn:Hc.
    - destruct ts; [reflexivity|discriminate Hlen].
    - rewrite (chunk_loop_all_succeed w E _ _ ts 0 []); try assumption.
      + reflexivity.
      + discriminate. }
  split; [exact Hout|].
  intros Hne Hshort.
  assert (Hone : make_chunks (text w) = [text w]).
  { apply chunks_of_short; [exact Hne|exact Hshort]. }
  rewrite Hone in Hlen.
  destruct ts as [|t [|t' ts]]; try discriminate Hlen.
  exists t. split; [reflexivity|]. split; [exact Hone|].
  rewrite Hout. cbn [map concat]. rewrite app_nil_r, strip_snoc_space.
  reflexivity.
Qed.

Lemma success_is_stripped_witness :
  outcomes (run (worker_hi (lit "googletrans") []) (env_returning (lit " hola")))
  = [Success (strip (concat (map (fun t => t ++ lit " ") [lit " hola"])))].
Proof.
  apply (proj1 (success_is_stripped_concatenation
                  (worker_hi (lit "googletrans") [])
                  (env_returning (lit " hola")) [lit " hola"] eq_refl
                  ltac:(intros [|[|i]] chunk t Hc Ht; try discriminate;
                        injection Ht as <-; split; reflexivity))).
Defined.

(** The claim C5 as stated fails: the backend returns " hola" (with a
    leading space) for the only chunk of "hi"; the buffer is " hola ";
    stripping its trailing whitespace gives " hola", but the run delivers
    "hola". *)
Lemma trailing_strip_counterexample :
  first_success (worker_hi (lit "googletrans") []) (env_returning (lit " hola"))
    0 (lit "hi") = Some (lit " hola") /\
  rstrip (concat (map (fun t => t ++ lit " ") [lit " hola"])) = lit " hola" /\
  outcomes (run (worker_hi (lit "googletrans") []) (env_returning (lit " hola")))
  = [Success (lit "hola")] /\
  outcomes (run (worker_hi (lit "googletrans") []) (env_returning (lit " hola")))
  <> [Success (rstrip (concat (map (fun t => t ++ lit " ") [lit " hola"])))].
Proof. vm_compute. repeat split. discriminate. Qed.

(** ** Retries leave no mark on the result *)

Lemma translate_chunk_other w E j t i a chunk :
  i <> j ->
  _translate_chunk w (succeeding_at_first E j t) i a chunk
  = _translate_chunk w E i a chunk.
Proof.
  intros Hij.
  unfold _translate_chunk, _translate_with_googletrans,
    _translate_with_deep_translator, _translate_with_deepl, net_request,
    deepl_target_lang.
  cbn [backend_reply unicode_upper succeeding_at_first].
  rewrite (proj2 (Nat.eqb_neq i j) Hij). reflexivity.
Qed.

Lemma translate_chunk_first w E j t chunk :
  result (_translate_chunk w E j 2 chunk) = Ok t ->
  result (_translate_chunk w (succeeding_at_first E j t) j 0 chunk) = Ok t.
Proof.
  unfold _translate_chunk, _translate_with_googletrans,
    _translate_with_deep_translator, _translate_with_deepl, net_request, raise,
    result.
  cbn [backend_reply succeeding_at_first].
  rewrite Nat.eqb_refl.
  repeat match goal with
         | |- context [if ?b then _ else _] =>
             lazymatch b with
             | str_eqb _ _ => destruct b
             | bool_decide _ => destruct b
             end
         end; cbn [snd andb Nat.eqb]; try discriminate; reflexivity.
Qed.

Lemma chunk_loop_transparent w E j t chunk e0 e1 n :
  result (_translate_chunk w E j 0 chunk) = Exc e0 ->
  result (_translate_chunk w E j 1 chunk) = Exc e1 ->
  result (_translate_chunk w E j 2 chunk) = Ok t ->
  forall chunks i acc,
    (i <= j -> forall c, chunks !! (j - i) = Some c -> c = chunk) ->
    result (chunk_loop w (succeeding_at_first E j t) n i chunks acc)
    = result (chunk_loop w E n i chunks acc).
Proof.
  intros H0 H1 H2.
  induction chunks as [|c rest IH]; intros i acc Hat; [reflexivity|].
  rewrite !chunk_loop_cons. cbn [is_running succeeding_at_first].
  destruct (is_running E i); [|reflexivity].
  assert (Hrest : forall acc',
            result (chunk_loop w (succeeding_at_first E j t) n (i + 1) rest acc')
            = result (chunk_loop w E n (i + 1) rest acc')).
  { intros acc'. apply IH. intros Hle c' Hc'. apply Hat; [lia|].
    replace (j - i) with (S (j - (i + 1))) by lia. exact Hc'. }
  destruct (Nat.eq_dec i j) as [->|Hij].
  - assert (c = chunk) as ->.
    { apply Hat; [lia|]. rewrite Nat.sub_diag. reflexivity. }
    pose proof (translate_chunk_first w E j t chunk H2) as Hfirst.
    rewrite !retry_loop_closed.
    destruct (_translate_chunk w (succeeding_at_first E j t) j 0 chunk)
      as [ev0' [t0'|x0']]; [|discriminate Hfirst].
    destruct (_translate_chunk w E j 0 chunk) as [ev0 [t0|x0]];
      [discriminate H0|].
    destruct (_translate_chunk w E j 1 chunk) as [ev1 [t1|x1]];
      [discriminate H1|].
    destruct (_translate_chunk w E j 2 chunk) as [ev2 [t2|x2]];
      [|discriminate H2].
    unfold result in *. cbn [snd] in *.
    injection Hfirst as ->. injection H2 as ->.
    destruct n; [reflexivity|]. cbn [snd]. apply Hrest.
  - rewrite !retry_loop_closed.
    rewrite !(translate_chunk_other w E j t i) by exact Hij.
    destruct (_translate_chunk w E i 0 c) as [ev0 [t0|x0]];
      [|destruct (_translate_chunk w E i 1 c) as [ev1 [t1|x1]];
        [|destruct (_translate_chunk w E i 2 c) as [ev2 [t2|x2]]]];
      try reflexivity;
      (destruct n; [reflexivity|]); unfold result at 1 3; cbn [snd];
      apply Hrest.
Qed.

(** C8.  When the first two attempts for a chunk fail and the third
    returns [t], the run delivers the same outcome as in the world that
    differs only in that the first attempt for that chunk returns [t]: in
    particular the same Success text. *)
Theorem retry_is_transparent
    (w : TranslationWorker) (E : env) (j : nat) (chunk e0 e1 t : str) :
  make_chunks (text w) !! j = Some chunk ->
  result (_translate_chunk w E j 0 chunk) = Exc e0 ->
  result (_translate_chunk w E j 1 chunk) = Exc e1 ->
  result (_translate_chunk w E j 2 chunk) = Ok t ->
  result (_translate_chunk w (succeeding_at_first E j t) j 0 chunk) = Ok t /\
  outcomes (run w (succeeding_at_first E j t)) = outcomes (run w E) /\
  (forall s, outcomes (run w E) = [Success s] ->
             outcomes (run w (succeeding_at_first E j t)) = [Success s]).
Proof.
  intros Hj H0 H1 H2.
  assert (Hsame : outcomes (run w (succeeding_at_first E j t)) = outcomes (run w E)).
  { rewrite !run_outcomes. f_equal.
    apply (chunk_loop_transparent w E j t chunk e0 e1 _ H0 H1 H2).
    intros _ c Hc. rewrite Nat.sub_0_r in Hc.
    pose proof (eq_trans (eq_sym Hc) Hj) as Heq.
    injection Heq as ->. reflexivity. }
  split; [exact (translate_chunk_first w E j t chunk H2)|].
  split; [exact Hsame|].
  intros s Hs. rewrite Hsame. exact Hs.
Qed.

Lemma retry_is_transparent_witness :
  outcomes (run (worker_hi (lit "googletrans") [])
                (succeeding_at_first (env_third_time (lit "boom") (lit "hola"))
                                     0 (lit "hola")))
  = outcomes (run (worker_hi (lit "googletrans") [])
                  (env_third_time (lit "boom") (lit "hola"))).
Proof.
  apply (proj1 (proj2 (retry_is_transparent
                         (worker_hi (lit "googletrans") [])
                         (env_third_time (lit "boom") (lit "hola"))
                         0 (lit "hi") (lit "boom") (lit "boom") (lit "hola")
                         eq_refl eq_refl eq_refl eq_refl))).
Defined.

(** ** Progress *)

Lemma progress_log_snoc ev : forall last e,
  match e with Progress _ | Net _ _ _ _ => False | _ => True end ->
  progress_log last (ev ++ [e]) = progress_log last ev.
Proof.
  induction ev as [|e0 ev IH]; intros last e He.
  - destruct e; try contradiction; reflexivity.
  - destruct e0 as [| | | | | |? ? ? []]; cbn [app progress_log];
      rewrite ?IH by exact He; reflexivity.
Qed.

Lemma progress_values_log tr : forall last,
  progress_values tr = (progress_log last tr).*2.
Proof.
  induction tr as [|e tr IH]; intros last; [reflexivity|].
  destruct e as [| | | | | |? ? ? []]; cbn [progress_values progress_log];
    try apply IH.
  cbn [fmap list_fmap snd]. f_equal. apply IH.
Qed.

Lemma count_returned_snoc ev e :
  match e with Progress _ | Net _ _ _ _ => False | _ => True end ->
  count is_returned (ev ++ [e]) = count is_returned ev.
Proof.
  intros He. rewrite count_app, count_cons, count_nil.
  destruct e; try contradiction; cbn; lia.
Qed.

(** What one attempt contributes: a successful attempt is one returned
    call. *)
Lemma translate_chunk_progress w E i a chunk :
  let m := _translate_chunk w E i a chunk in
  forall last rest,
    progress_log last (events m ++ rest)
    = progress_log (match result m with Ok _ => Some i | Exc _ => last end) rest
    /\ count is_returned (events m)
       = match result m with Ok _ => 1 | Exc _ => 0 end.
Proof.
  cbn zeta. intros last rest.
  destruct (translate_chunk_shape w E i a chunk) as [[msg ->]|[c ->]];
    unfold events, result; cbn [fst snd]; [split; reflexivity|].
  destruct (backend_reply E i a c); cbn [reply_res app progress_log];
    rewrite count_cons, count_nil; split; reflexivity.
Qed.

Lemma retry_loop_progress w E i chunk acc :
  let m := retry_loop w E i chunk (py_range 0 max_retries 1) 2 acc in
  forall last rest,
    progress_log last (events m ++ rest)
    = progress_log (match result m with Ok _ => Some i | Exc _ => last end) rest
    /\ count is_returned (events m)
       = match result m with Ok _ => 1 | Exc _ => 0 end.
Proof.
  cbn zeta. intros last rest. rewrite retry_loop_closed.
  pose proof (translate_chunk_progress w E i 0 chunk) as P0.
  pose proof (translate_chunk_progress w E i 1 chunk) as P1.
  pose proof (translate_chunk_progress w E i 2 chunk) as P2.
  cbn zeta in P0, P1, P2.
  destruct (_translate_chunk w E i 0 chunk) as [ev0 [t0|x0]];
    [|destruct (_translate_chunk w E i 1 chunk) as [ev1 [t1|x1]];
      [|destruct (_translate_chunk w E i 2 chunk) as [ev2 [t2|x2]]]];
    unfold events, result, retry_pause in *; cbn [fst snd] in *.
  - apply P0.
  - split.
    + rewrite <- !app_assoc. rewrite (proj1 (P0 _ _)). cbn [app progress_log].
      rewrite (proj1 (P1 _ _)). reflexivity.
    + rewrite ?count_app, ?count_cons, ?count_nil.
      rewrite (proj2 (P0 None [])), (proj2 (P1 None [])). reflexivity.
  - split.
    + rewrite <- !app_assoc. rewrite (proj1 (P0 _ _)). cbn [app progress_log].
      rewrite (proj1 (P1 _ _)). cbn [app progress_log].
      rewrite (proj1 (P2 _ _)). reflexivity.
    + rewrite ?count_app, ?count_cons, ?count_nil.
      rewrite (proj2 (P0 None [])), (proj2 (P1 None [])), (proj2 (P2 None [])).
      reflexivity.
  - split.
    + rewrite <- !app_assoc. rewrite (proj1 (P0 _ _)). cbn [app progress_log].
      rewrite (proj1 (P1 _ _)). cbn [app progress_log].
      rewrite (proj1 (P2 _ _)). reflexivity.
    + rewrite ?count_app, ?count_cons, ?count_nil.
      rewrite (proj2 (P0 None [])), (proj2 (P1 None [])), (proj2 (P2 None [])).
      reflexivity.
Qed.

Lemma chunk_loop_progress w E n chunks : n <> 0 -> forall i acc,
  let m := chunk_loop w E n i chunks acc in
  progress_log None (events m)
  = map (fun j => (Some j, percent (j + 1) n)) (seq i (count is_returned (events m)))
  /\ count is_returned (events m) <= length chunks
  /\ (forall t, result m = Ok (Some t) ->
      count is_returned (events m) = length chunks).
Proof.
  intros Hn.
  induction chunks as [|chunk rest IH]; intros i acc; cbn zeta.
  - cbn. repeat split; lia.
  - pose proof (retry_loop_progress w E i chunk acc) as Hp. cbn zeta in Hp.
    chunk_step w E n i chunk acc; unfold chunk_start;
      cbn [app progress_log length]; [congruence| | |].
    + match goal with
      | |- context [chunk_loop w E ?N (i + 1) rest acc'] =>
          destruct (Hp None (Progress (percent (i + 1) N)
                               :: (chunk_loop w E N (i + 1) rest acc').1))
            as [Hlog Hcount]
      end.
      destruct (IH (i + 1) acc') as (IH1 & IH2 & IH3).
      rewrite Hlog. cbn [progress_log]. rewrite IH1.
      rewrite !count_cons, count_app, Hcount, count_cons.
      cbn [is_read is_returned Nat.add]. cbn [seq map].
      replace (S i) with (i + 1) by lia.
      repeat split; [lia|].
      intros t Ht. rewrite (IH3 t Ht). reflexivity.
    + destruct (Hp None []) as [Hlog Hcount]. rewrite app_nil_r in Hlog.
      rewrite Hlog, !count_cons, Hcount. cbn.
      repeat split; intros; try lia; congruence.
    + rewrite count_cons, count_nil. cbn. repeat split; intros; try lia; congruence.
Qed.

Lemma percent_mono k k' n : k <= k' -> 0 < n -> (percent k n <= percent k' n)%Z.
Proof. intros Hk Hn. unfold percent. apply percentZ_mono; lia. Qed.

Lemma percent_sorted n : 0 < n -> forall m i,
  StronglySorted Z.le (map (fun j => percent (j + 1) n) (seq i m)).
Proof.
  intros Hn. induction m as [|m IH]; intros i; cbn [seq map]; constructor.
  - apply IH.
  - apply Forall_forall. intros p Hp.
    apply list_elem_of_fmap in Hp as (j & -> & Hj).
    apply list_elem_of_In, in_seq in Hj.
    apply percent_mono; lia.
Qed.

Lemma run_progress w E :
  let n := length (make_chunks (text w)) in
  let m := count is_returned (run w E) in
  m <= n /\
  progress_log None (run w E)
  = map (fun i => (Some i, percent (i + 1) n)) (seq 0 m) /\
  (forall s, outcomes (run w E) = [Success s] -> m = n).
Proof.
  cbn zeta.
  pose proof (run_unfold w E _ eq_refl) as Hrun.
  pose proof (run_outcomes w E) as Hout.
  destruct (make_chunks (text w)) as [|chunk rest] eqn:Hc.
  - rewrite Hrun. cbn [length chunk_loop].
    unfold mret, M_mret, M_ret, events, result. cbn [fst snd app progress_log].
    rewrite !count_cons, count_nil. cbn [is_returned Nat.add seq map].
    repeat split; intros; try lia; reflexivity.
  - set (chunks := chunk :: rest) in *.
    assert (Hn : length chunks <> 0) by discriminate.
    destruct (chunk_loop_progress w E (length chunks) chunks Hn 0 [])
      as (Hlog & Hle & Hall).
    destruct (chunk_loop w E (length chunks) 0 chunks []) as [ev r].
    unfold events, result in *. cbn [fst snd] in *.
    assert (Hm : count is_returned (run w E) = count is_returned ev).
    { rewrite Hrun, count_cons. cbn [is_returned].
      destruct r as [[t|]|e]; rewrite ?app_nil_r, ?count_returned_snoc by exact I;
        reflexivity. }
    assert (Hl : progress_log None (run w E) = progress_log None ev).
    { rewrite Hrun. cbn [progress_log].
      destruct r as [[t|]|e]; rewrite ?app_nil_r, ?progress_log_snoc by exact I;
        reflexivity. }
    rewrite Hm, Hl. repeat split; [exact Hle|exact Hlog|].
    intros s Hs. rewrite Hs in Hout.
    destruct r as [[t|]|e]; try discriminate Hout.
    apply (Hall t). reflexivity.
Qed.

Lemma chunk_count_bound {A} (text : list A) :
  (Z.of_nat (length text) < 2 ^ 56)%Z ->
  (Z.of_nat (length (make_chunks text)) <= 2 ^ 44)%Z.
Proof.
  intros Hlen. pose proof (make_chunks_bracket text) as [_ Hb].
  apply Nat2Z.inj_lt in Hb. rewrite Nat2Z.inj_mul, Nat2Z.inj_add in Hb.
  change (Z.of_nat 4500) with 4500%Z in Hb.
  change (2 ^ 56)%Z with 72057594037927936%Z in Hlen.
  change (2 ^ 44)%Z with 17592186044416%Z. lia.
Qed.

(** C6, as the code has it.  After each chunk that is translated the run
    emits one progress value, [int((i + 1) / total * 100)] evaluated in
    double precision: the exact percentage of completed chunks rounded
    DOWN, or one less than that.  The values emitted never decrease, the
    value after the last chunk is 100, and 100 is emitted only there.
    (For a text of fewer than 2^56 characters.) *)
Theorem progress_is_truncated_percentage (w : TranslationWorker) (E : env) :
  (Z.of_nat (length (text w)) < 2 ^ 56)%Z ->
  let n := length (make_chunks (text w)) in
  let m := count is_returned (run w E) in
  m <= n /\
  progress_log None (run w E)
  = map (fun i => (Some i, percent (i + 1) n)) (seq 0 m) /\
  progress_values (run w E) = map (fun i => percent (i + 1) n) (seq 0 m) /\
  (forall s, outcomes (run w E) = [Success s] -> m = n) /\
  (forall k, 1 <= k <= n ->
     (100 * Z.of_nat k / Z.of_nat n - 1 <= percent k n
      <= 100 * Z.of_nat k / Z.of_nat n)%Z) /\
  StronglySorted Z.le (progress_values (run w E)) /\
  (forall k, 1 <= k < n -> (percent k n < 100)%Z) /\
  (0 < n -> percent n n = 100%Z) /\
  (forall j, progress_values (run w E) !! j = Some 100%Z -> j + 1 = n /\ m = n).
Proof.
  intros Hlen n m.
  pose proof (chunk_count_bound (text w) Hlen) as Hn44. fold n in Hn44.
  destruct (run_progress w E) as (Hmn & Hlog & Hsucc). fold n m in Hmn, Hlog, Hsucc.
  assert (Hvalues : progress_values (run w E)
                    = map (fun i => percent (i + 1) n) (seq 0 m)).
  { rewrite (progress_values_log _ None), Hlog.
    rewrite <- list_fmap_compose. reflexivity. }
  assert (Hbounds : forall k, 1 <= k <= n ->
     (100 * Z.of_nat k / Z.of_nat n - 1 <= percent k n
      <= 100 * Z.of_nat k / Z.of_nat n)%Z).
  { intros k Hk. unfold percent. apply percentZ_bounds; lia. }
  assert (Hbelow : forall k, 1 <= k < n -> (percent k n < 100)%Z).
  { intros k Hk. destruct (Hbounds k ltac:(lia)) as [_ Hup].
    assert (100 * Z.of_nat k / Z.of_nat n < 100)%Z
      by (apply Z.div_lt_upper_bound; lia).
    lia. }
  repeat split; try assumption.
  - apply Hbounds. assumption.
  - apply Hbounds. assumption.
  - rewrite Hvalues. destruct (Nat.eq_dec n 0) as [Hz|Hnz].
    + assert (m = 0) as -> by lia. constructor.
    + apply percent_sorted. lia.
  - intros Hn. unfold percent. apply percentZ_full. lia.
  - rewrite Hvalues in H. apply list_lookup_fmap_Some in H as (i & Hp & Hi).
    apply lookup_seq in Hi as [-> Hj]. cbn [Nat.add] in Hp.
    destruct (Nat.eq_dec (j + 1) n) as [Heq|Hne]; [exact Heq|].
    pose proof (Hbelow (j + 1) ltac:(lia)). lia.
  - rewrite Hvalues in H. apply list_lookup_fmap_Some in H as (i & Hp & Hi).
    apply lookup_seq in Hi as [-> Hj]. cbn [Nat.add] in Hp.
    destruct (Nat.eq_dec (j + 1) n) as [Heq|Hne]; [lia|].
    pose proof (Hbelow (j + 1) ltac:(lia)). lia.
Qed.

Lemma progress_witness :
  progress_values (run (worker_hi (lit "googletrans") []) (env_returning (lit "hola")))
  = map (fun i => percent (i + 1) 1) (seq 0 1).
Proof.
  apply (proj1 (proj2 (proj2
           (progress_is_truncated_percentage
              (worker_hi (lit "googletrans") []) (env_returning (lit "hola"))
              eq_refl)))).
Defined.

(** The claim C6 as stated fails.  The text has 100 chunks and every call
    succeeds.  After the 29th chunk the exact percentage is 29 (100 * 29 is
    a multiple of 100, nothing is to be rounded), but the value emitted is
    28: in double precision 29 / 100 * 100 is 28.999999999999996. *)
Lemma progress_29_of_100_counterexample :
  length (make_chunks (text worker_100_chunks)) = 100 /\
  progress_values (run worker_100_chunks (env_returning (lit "hola"))) !! 28
  = Some 28%Z /\
  (100 * 29 / 100 = 29)%Z /\
  (100 * 29 mod 100 = 0)%Z.
Proof. vm_compute. repeat split. Qed.

(** ** What a run delivers, and when *)

Lemma retry_loop_ok w E i chunk acc ev acc' :
  retry_loop w E i chunk (py_range 0 max_retries 1) 2 acc = (ev, Ok acc') ->
  exists t, first_success w E i chunk = Some t /\ acc' = acc ++ t ++ lit " ".
Proof.
  rewrite retry_loop_closed. unfold first_success.
  destruct (_translate_chunk w E i 0 chunk) as [ev0 [t0|x0]];
    [|destruct (_translate_chunk w E i 1 chunk) as [ev1 [t1|x1]];
      [|destruct (_translate_chunk w E i 2 chunk) as [ev2 [t2|x2]]]];
    unfold result; cbn [snd]; intros H; simplify_eq; eauto.
Qed.

Lemma retry_loop_exc w E i chunk acc ev e :
  retry_loop w E i chunk (py_range 0 max_retries 1) 2 acc = (ev, Exc e) ->
  exists e0 e1 e2,
    result (_translate_chunk w E i 0 chunk) = Exc e0 /\
    result (_translate_chunk w E i 1 chunk) = Exc e1 /\
    result (_translate_chunk w E i 2 chunk) = Exc e2 /\
    e = failed_after e2.
Proof.
  rewrite retry_loop_closed.
  destruct (_translate_chunk w E i 0 chunk) as [ev0 [t0|x0]];
    [|destruct (_translate_chunk w E i 1 chunk) as [ev1 [t1|x1]];
      [|destruct (_translate_chunk w E i 2 chunk) as [ev2 [t2|x2]]]];
    unfold result; cbn [snd]; intros H; simplify_eq; eauto 10.
Qed.

Lemma chunk_loop_success_inv w E n chunks : forall i acc t,
  result (chunk_loop w E n i chunks acc) = Ok (Some t) ->
  exists ts,
    length ts = length chunks /\
    (forall j chunk tj, chunks !! j = Some chunk -> ts !! j = Some tj ->
       is_running E (i + j) = true /\ first_success w E (i + j) chunk = Some tj) /\
    t = acc ++ concat (map (fun u => u ++ lit " ") ts).
Proof.
  induction chunks as [|chunk rest IH]; intros i acc t.
  - cbn. intros H. injection H as <-. exists []. rewrite app_nil_r.
    split; [reflexivity|]. split; [|reflexivity].
    intros j c tj Hc. discriminate Hc.
  - chunk_step w E n i chunk acc; intros H; try discriminate H.
    destruct (retry_loop_ok w E i chunk acc ev acc' Hloop) as (u & Hu & ->).
    destruct (IH _ _ _ H) as (ts & Hlen & Hall & ->).
    exists (u :: ts). split; [cbn [length]; lia|]. split.
    + intros [|j] c tj Hc Ht; cbn in Hc, Ht.
      * injection Hc as <-. injection Ht as <-.
        rewrite Nat.add_0_r. split; assumption.
      * replace (i + S j) with (i + 1 + j) by lia. apply Hall; assumption.
    + cbn [map concat]. rewrite <- !app_assoc. reflexivity.
Qed.

Lemma chunk_loop_failure_inv w E n chunks : n <> 0 -> forall i acc e,
  result (chunk_loop w E n i chunks acc) = Exc e ->
  exists j chunk e0 e1 e2,
    chunks !! j = Some chunk /\
    (forall j', j' <= j -> is_running E (i + j') = true) /\
    (forall j' c, j' < j -> chunks !! j' = Some c ->
       first_success w E (i + j') c <> None) /\
    result (_translate_chunk w E (i + j) 0 chunk) = Exc e0 /\
    result (_translate_chunk w E (i + j) 1 chunk) = Exc e1 /\
    result (_translate_chunk w E (i + j) 2 chunk) = Exc e2 /\
    e = failed_after e2.
Proof.
  intros Hn.
  induction chunks as [|chunk rest IH]; intros i acc e; [discriminate|].
  chunk_step w E n i chunk acc; intros H; try discriminate H; [congruence| |].
  - destruct (retry_loop_ok w E i chunk acc ev acc' Hloop) as (u & Hu & ->).
    destruct (IH _ _ _ H) as (j & c & e0 & e1 & e2 & Hc & Hr & Hs & H0 & H1 & H2 & ->).
    exists (S j), c, e0, e1, e2.
    replace (i + S j) with (i + 1 + j) by lia.
    repeat split; try assumption.
    + intros [|j'] Hj'; [rewrite Nat.add_0_r; exact Hrun|].
      replace (i + S j') with (i + 1 + j') by lia. apply Hr. lia.
    + intros [|j'] c' Hj' Hc'; cbn in Hc'.
      * injection Hc' as <-. rewrite Nat.add_0_r, Hu. discriminate.
      * replace (i + S j') with (i + 1 + j') by lia. apply Hs; [lia|exact Hc'].
  - injection H as <-.
    destruct (retry_loop_exc w E i chunk acc ev e0 Hloop)
      as (x0 & x1 & x2 & H0 & H1 & H2 & ->).
    exists 0, chunk, x0, x1, x2. rewrite Nat.add_0_r.
    repeat split; try assumption.
    + intros j' Hj'. replace j' with 0 by lia. rewrite Nat.add_0_r. exact Hrun.
    + intros j' c Hj'. lia.
Qed.

Lemma chunk_loop_cancel_read w E n chunks : forall i acc,
  cancel_seen (events (chunk_loop w E n i chunks acc)) = true ->
  exists j, is_running E j = false.
Proof.
  induction chunks as [|chunk rest IH]; intros i acc; [discriminate|].
  chunk_step w E n i chunk acc; unfold chunk_start;
    cbn [app cancel_seen existsb orb];
    rewrite ?existsb_app;
    repeat match goal with
           | H : forallb (retry_event i) ?l = true |- _ =>
               fold (cancel_seen l);
               rewrite (retry_events_cancel_seen i l H); clear H
           end;
    cbn [orb existsb]; try discriminate.
  - apply IH.
  - intros _. exists i. exact Hrun.
Qed.

Lemma run_cancel_seen w E :
  cancel_seen (run w E) = true <->
  result (chunk_loop w E (length (make_chunks (text w))) 0
            (make_chunks (text w)) []) = Ok None.
Proof.
  rewrite (run_unfold w E _ eq_refl).
  pose proof (chunk_loop_cancel w E (length (make_chunks (text w)))
                (make_chunks (text w)) 0 []) as [_ Hseen].
  destruct (chunk_loop w E (length (make_chunks (text w))) 0
              (make_chunks (text w)) []) as [ev r].
  unfold events, result in *. cbn [fst snd] in *.
  cbn [cancel_seen existsb orb]. rewrite existsb_app. fold (cancel_seen ev).
  split.
  - intros H. apply orb_prop in H as [H|H]; [apply Hseen; exact H|].
    destruct r as [[t|]|e]; cbn in H; congruence.
  - intros H. rewrite (proj2 Hseen H). reflexivity.
Qed.

(** X1.  A run delivers at most one outcome, and the signal that delivers
    it is the last thing the run does.  It delivers none exactly when a
    read of the flag returned [False]; a run that is never stopped delivers
    exactly one. *)
Theorem outcome_delivered_at_most_once (w : TranslationWorker) (E : env) :
  length (outcomes (run w E)) <= 1 /\
  (outcomes (run w E) = [] <-> cancel_seen (run w E) = true) /\
  (forall o, outcomes (run w E) = [o] ->
             last (run w E) = Some (event_of_outcome o)) /\
  ((forall i, is_running E i = true) -> exists o, outcomes (run w E) = [o]).
Proof.
  pose proof (run_outcomes w E) as Hout.
  pose proof (run_cancel_seen w E) as Hseen.
  pose proof (run_unfold w E _ eq_refl) as Hrun.
  pose proof (chunk_loop_cancel_read w E (length (make_chunks (text w)))
                (make_chunks (text w)) 0 []) as Hread.
  pose proof (chunk_loop_cancel w E (length (make_chunks (text w)))
                (make_chunks (text w)) 0 []) as [_ Hev].
  destruct (chunk_loop w E (length (make_chunks (text w))) 0
              (make_chunks (text w)) []) as [ev r].
  unfold events, result in *. cbn [fst snd] in *.
  rewrite Hout.
  split; [destruct r as [[t|]|e]; cbn; lia|].
  split.
  { rewrite Hseen. destruct r as [[t|]|e]; cbn; split; congruence. }
  split.
  { intros o Ho. rewrite Hrun.
    destruct r as [[t|]|e]; cbn in Ho; try discriminate Ho;
      injection Ho as <-; cbn [event_of_outcome];
      rewrite app_comm_cons, last_snoc; reflexivity. }
  intros Halways.
  destruct r as [[t|]|e]; cbn; eauto.
  exfalso. destruct (Hread (proj2 Hev eq_refl)) as [j Hj].
  rewrite Halways in Hj. discriminate.
Qed.

(** X2.  Success is delivered only when every chunk was translated: no
    read of the flag returned [False], each chunk has an attempt among its
    three that succeeded, and the text delivered is the stripped
    concatenation of the translations, a space after each. *)
Theorem success_only_if_all_translated
    (w : TranslationWorker) (E : env) (s : str) :
  outcomes (run w E) = [Success s] ->
  exists ts,
    length ts = length (make_chunks (text w)) /\
    (forall i chunk t,
       make_chunks (text w) !! i = Some chunk -> ts !! i = Some t ->
       is_running E i = true /\ first_success w E i chunk = Some t) /\
    s = strip (concat (map (fun t => t ++ lit " ") ts)).
Proof.
  rewrite run_outcomes. intros H.
  destruct (result _) as [[t|]|e] eqn:Hr; cbn in H; try discriminate H.
  injection H as <-.
  destruct (chunk_loop_success_inv w E _ _ 0 [] t Hr) as (ts & Hlen & Hall & ->).
  exists ts. split; [exact Hlen|]. split; [exact Hall|reflexivity].
Qed.

Lemma success_only_if_witness :
  exists ts,
    length ts = length (make_chunks (text (worker_hi (lit "googletrans") []))) /\
    (forall i chunk t,
       make_chunks (text (worker_hi (lit "googletrans") [])) !! i = Some chunk ->
       ts !! i = Some t ->
       is_running (env_returning (lit "hola")) i = true /\
       first_success (worker_hi (lit "googletrans") [])
         (env_returning (lit "hola")) i chunk = Some t) /\
    lit "hola" = strip (concat (map (fun t => t ++ lit " ") ts)).
Proof.
  apply (success_only_if_all_translated
           (worker_hi (lit "googletrans") []) (env_returning (lit "hola"))
           (lit "hola")).
  reflexivity.
Defined.

(** X3.  Failure is delivered only when some chunk was reached and its
    three attempts all failed; the description is "Translation failed after
    3 attempts. Error: " followed by the description of that chunk's last
    error.  No other error (such as a division by zero in the progress
    computation) ever reaches the error signal. *)
Theorem failure_only_after_three_failures
    (w : TranslationWorker) (E : env) (msg : str) :
  outcomes (run w E) = [Failure msg] ->
  exists i chunk e0 e1 e2,
    make_chunks (text w) !! i = Some chunk /\
    (forall j, j <= i -> is_running E j = true) /\
    (forall j c, j < i -> make_chunks (text w) !! j = Some c ->
       first_success w E j c <> None) /\
    result (_translate_chunk w E i 0 chunk) = Exc e0 /\
    result (_translate_chunk w E i 1 chunk) = Exc e1 /\
    result (_translate_chunk w E i 2 chunk) = Exc e2 /\
    msg = lit "Translation failed after 3 attempts. Error: " ++ e2.
Proof.
  rewrite run_outcomes. intros H.
  destruct (result _) as [[t|]|e] eqn:Hr; cbn in H; try discriminate H.
  injection H as <-.
  destruct (make_chunks (text w)) as [|chunk rest] eqn:Hc; [discriminate Hr|].
  rewrite <- Hc in *.
  assert (Hn : length (make_chunks (text w)) <> 0) by (rewrite Hc; discriminate).
  destruct (chunk_loop_failure_inv w E _ _ Hn 0 [] e Hr)
    as (j & c & e0 & e1 & e2 & Hj & Hreads & Hsucc & H0 & H1 & H2 & ->).
  exists j, c, e0, e1, e2. cbn [Nat.add] in *.
  repeat split; assumption.
Qed.

Lemma failure_only_after_witness :
  exists i chunk e0 e1 e2,
    make_chunks (text (worker_hi (lit "googletrans") [])) !! i = Some chunk /\
    (forall j, j <= i -> is_running (env_raising (lit "boom")) j = true) /\
    (forall j c, j < i ->
       make_chunks (text (worker_hi (lit "googletrans") [])) !! j = Some c ->
       first_success (worker_hi (lit "googletrans") [])
         (env_raising (lit "boom")) j c <> None) /\
    result (_translate_chunk (worker_hi (lit "googletrans") [])
              (env_raising (lit "boom")) i 0 chunk) = Exc e0 /\
    result (_translate_chunk (worker_hi (lit "googletrans") [])
              (env_raising (lit "boom")) i 1 chunk) = Exc e1 /\
    result (_translate_chunk (worker_hi (lit "googletrans") [])
              (env_raising (lit "boom")) i 2 chunk) = Exc e2 /\
    lit "Translation failed after 3 attempts. Error: boom"
    = lit "Translation failed after 3 attempts. Error: " ++ e2.
Proof.
  apply (failure_only_after_three_failures
           (worker_hi (lit "googletrans") []) (env_raising (lit "boom"))
           (lit "Translation failed after 3 attempts. Error: boom")).
  reflexivity.
Defined.

(** ** The backend calls of a run *)

Ltac split_ors :=
  repeat match goal with H : _ \/ _ |- _ => destruct H as [H|H] end.

Lemma translate_chunk_net w E i a chunk j a' call r :
  Net j a' call r ∈ events (_translate_chunk w E i a chunk) ->
  j = i /\ a' = a /\ sends w E chunk call /\ r = backend_reply E i a call.
Proof.
  unfold _translate_chunk, _translate_with_googletrans,
    _translate_with_deep_translator, _translate_with_deepl, net_request, raise,
    str_eqb, events, sends.
  repeat case_bool_decide; cbn [fst]; intros Hin;
    try (apply elem_of_nil in Hin; contradiction);
    apply list_elem_of_singleton in Hin; injection Hin as -> -> -> ->;
    repeat split; auto 10.
Qed.

Lemma translate_chunk_keys w E i a chunk :
  call_keys (events (_translate_chunk w E i a chunk)) = []
  \/ call_keys (events (_translate_chunk w E i a chunk)) = [(i, a)].
Proof.
  destruct (translate_chunk_shape w E i a chunk) as [[m ->]|[c ->]];
    [left|right]; reflexivity.
Qed.

Lemma call_keys_app t1 t2 : call_keys (t1 ++ t2) = call_keys t1 ++ call_keys t2.
Proof.
  induction t1 as [|[] t1 IH]; cbn [app call_keys]; rewrite ?IH; reflexivity.
Qed.

Lemma retry_loop_net w E i chunk acc j a call r :
  Net j a call r ∈ events (retry_loop w E i chunk (py_range 0 max_retries 1) 2 acc) ->
  j = i /\ a < 3 /\ sends w E chunk call /\ r = backend_reply E j a call.
Proof.
  rewrite retry_loop_closed.
  pose proof (translate_chunk_net w E i 0 chunk j a call r) as N0.
  pose proof (translate_chunk_net w E i 1 chunk j a call r) as N1.
  pose proof (translate_chunk_net w E i 2 chunk j a call r) as N2.
  destruct (_translate_chunk w E i 0 chunk) as [ev0 [t0|x0]];
    [|destruct (_translate_chunk w E i 1 chunk) as [ev1 [t1|x1]];
      [|destruct (_translate_chunk w E i 2 chunk) as [ev2 [t2|x2]]]];
    unfold events, retry_pause in *; cbn [fst] in *;
    rewrite ?elem_of_app, ?elem_of_cons, ?elem_of_nil;
    intros H; split_ors; try discriminate; try contradiction;
    match goal with
    | Hin : _ ∈ _, N : _ ∈ _ -> _ |- _ =>
        destruct (N Hin) as (-> & -> & Hs & ->);
        repeat split; [lia|exact Hs]
    end.
Qed.

Lemma retry_loop_keys w E i chunk acc :
  StronglySorted key_lt
    (call_keys (events (retry_loop w E i chunk (py_range 0 max_retries 1) 2 acc)))
  /\ Forall (fun p => p.1 = i)
       (call_keys (events (retry_loop w E i chunk (py_range 0 max_retries 1) 2 acc))).
Proof.
  rewrite retry_loop_closed.
  pose proof (translate_chunk_keys w E i 0 chunk) as K0.
  pose proof (translate_chunk_keys w E i 1 chunk) as K1.
  pose proof (translate_chunk_keys w E i 2 chunk) as K2.
  destruct (_translate_chunk w E i 0 chunk) as [ev0 [t0|x0]];
    [|destruct (_translate_chunk w E i 1 chunk) as [ev1 [t1|x1]];
      [|destruct (_translate_chunk w E i 2 chunk) as [ev2 [t2|x2]]]];
    unfold events, retry_pause in *; cbn [fst] in *;
    rewrite ?call_keys_app; cbn [call_keys app];
    destruct K0 as [-> | ->]; try destruct K1 as [-> | ->];
    try destruct K2 as [-> | ->]; cbn [app];
    (split;
     [repeat (constructor; [|repeat constructor; unfold key_lt; cbn; lia]);
      constructor
     |repeat constructor]).
Qed.

Lemma call_keys_retry_free tr :
  Forall (fun e => is_net e = false) tr -> call_keys tr = [].
Proof.
  induction 1 as [|e tr He _ IH]; [reflexivity|].
  destruct e; try discriminate He; exact IH.
Qed.

Lemma chunk_loop_net w E n chunks : forall i acc j a call r,
  Net j a call r ∈ events (chunk_loop w E n i chunks acc) ->
  i <= j /\ a < 3 /\
  exists chunk, chunks !! (j - i) = Some chunk /\ sends w E chunk call
                /\ r = backend_reply E j a call.
Proof.
  induction chunks as [|chunk rest IH]; intros i acc j a call r.
  - cbn. intros H. apply elem_of_nil in H. contradiction.
  - pose proof (retry_loop_net w E i chunk acc j a call r) as Hnet.
    assert (Hhere : j = i /\ a < 3 /\ sends w E chunk call
                    /\ r = backend_reply E j a call ->
                    i <= j /\ a < 3 /\
                    exists c, (chunk :: rest) !! (j - i) = Some c
                              /\ sends w E c call /\ r = backend_reply E j a call).
    { intros (-> & Ha & Hs & Hr). rewrite Nat.sub_diag.
      repeat split; [lia|exact Ha|]. exists chunk. repeat split; assumption. }
    chunk_step w E n i chunk acc; unfold chunk_start;
      rewrite ?elem_of_app, ?elem_of_cons, ?elem_of_nil;
      intros H; split_ors; try discriminate; try contradiction;
      try (apply Hhere, Hnet; assumption).
    match goal with
    | Hin : _ ∈ _ |- _ => destruct (IH _ _ _ _ _ _ Hin) as (Hle & Ha & c & Hc & Hs & Hr)
    end.
    repeat split; [lia|exact Ha|]. exists c.
    replace (j - i) with (S (j - (i + 1))) by lia.
    repeat split; assumption.
Qed.

Lemma chunk_loop_keys w E n chunks : forall i acc,
  StronglySorted key_lt (call_keys (events (chunk_loop w E n i chunks acc)))
  /\ Forall (fun p => i <= p.1) (call_keys (events (chunk_loop w E n i chunks acc))).
Proof.
  induction chunks as [|chunk rest IH]; intros i acc.
  - cbn. split; constructor.
  - pose proof (retry_loop_keys w E i chunk acc) as [Hs Hi].
    chunk_step w E n i chunk acc; unfold chunk_start;
      cbn [app call_keys]; rewrite ?call_keys_app; cbn [app call_keys];
      rewrite ?app_nil_r.
    + split; [exact Hs|]. eapply Forall_impl; [exact Hi|]. cbn. lia.
    + destruct (IH (i + 1) acc') as [IHs IHi]. split.
      * apply StronglySorted_app_2; [|exact Hs|exact IHs].
        intros p q Hp Hq.
        rewrite Forall_forall in Hi, IHi.
        specialize (Hi p Hp). specialize (IHi q Hq).
        left. cbn in *. lia.
      * apply Forall_app. split.
        -- eapply Forall_impl; [exact Hi|]. cbn. lia.
        -- eapply Forall_impl; [exact IHi|]. cbn. lia.
    + split; [exact Hs|]. eapply Forall_impl; [exact Hi|]. cbn. lia.
    + split; constructor.
Qed.

Lemma call_keys_snoc ev e : is_net e = false -> call_keys (ev ++ [e]) = call_keys ev.
Proof.
  intros He. rewrite call_keys_app.
  destruct e; try discriminate He; cbn; apply app_nil_r.
Qed.

(** X4.  Every backend call of a run is one of at most three attempts for
    a chunk of the text; it sends that chunk, whole and unchanged, through
    the adapter of the selected backend (the target language as given for
    the two Google backends, the key and the mapped code for DeepL), and
    what the run sees is the answer to that call.  The calls are made chunk
    by chunk and attempt by attempt: no chunk is called again once a later
    chunk has been, and no attempt is repeated. *)
Theorem calls_send_the_chunks_in_order (w : TranslationWorker) (E : env) :
  (forall i a call r,
     Net i a call r ∈ run w E ->
     a < 3 /\
     exists chunk, make_chunks (text w) !! i = Some chunk
                   /\ sends w E chunk call
                   /\ r = backend_reply E i a call) /\
  StronglySorted key_lt (call_keys (run w E)).
Proof.
  pose proof (run_unfold w E _ eq_refl) as Hrun.
  pose proof (chunk_loop_net w E (length (make_chunks (text w)))
                (make_chunks (text w)) 0 []) as Hnet.
  pose proof (chunk_loop_keys w E (length (make_chunks (text w)))
                (make_chunks (text w)) 0 []) as [Hkeys _].
  destruct (chunk_loop w E (length (make_chunks (text w))) 0
              (make_chunks (text w)) []) as [ev r0].
  unfold events, result in *. cbn [fst snd] in *.
  split.
  - intros i a call r. rewrite Hrun, elem_of_cons, elem_of_app.
    intros [H|[H|H]]; [discriminate H| |].
    + destruct (Hnet i a call r H) as (_ & Ha & c & Hc & Hs & Hr).
      rewrite Nat.sub_0_r in Hc. split; [exact Ha|]. exists c.
      repeat split; assumption.
    + destruct r0 as [[t|]|e];
        rewrite ?list_elem_of_singleton in H; try discriminate H.
      apply elem_of_nil in H. contradiction.
  - rewrite Hrun. cbn [call_keys].
    destruct r0 as [[t|]|e]; rewrite ?app_nil_r, ?call_keys_snoc by reflexivity;
      exact Hkeys.
Qed.

Lemma outcome_witness :
  exists o, outcomes (run (worker_hi (lit "googletrans") [])
                          (env_returning (lit "hola"))) = [o].
Proof.
  apply (proj2 (proj2 (proj2 (outcome_delivered_at_most_once
                                (worker_hi (lit "googletrans") [])
                                (env_returning (lit "hola")))))).
  reflexivity.
Defined.

Lemma calls_send_witness :
  0 < 3 /\
  exists chunk,
    make_chunks (text (worker_hi (lit "googletrans") [])) !! 0 = Some chunk
    /\ sends (worker_hi (lit "googletrans") []) (env_returning (lit "hola"))
         chunk (GoogletransCall (lit "hi") (lit "es"))
    /\ Returned (lit "hola")
       = backend_reply (env_returning (lit "hola")) 0 0
           (GoogletransCall (lit "hi") (lit "es")).
Proof.
  apply (proj1 (calls_send_the_chunks_in_order
                  (worker_hi (lit "googletrans") [])
                  (env_returning (lit "hola")))).
  apply list_elem_of_lookup. exists 3. reflexivity.
Defined.

(** ** Time and calls a run can spend *)

Lemma total_sleep_app t1 t2 : total_sleep (t1 ++ t2) = (total_sleep t1 + total_sleep t2)%Z.
Proof.
  induction t1 as [|[] t1 IH]; cbn [app total_sleep]; rewrite ?IH; lia.
Qed.

Lemma translate_chunk_no_sleep w E i a chunk :
  total_sleep (events (_translate_chunk w E i a chunk)) = 0%Z
  /\ Forall (fun e => is_sleep e = false) (events (_translate_chunk w E i a chunk)).
Proof.
  destruct (translate_chunk_shape w E i a chunk) as [[m ->]|[c ->]];
    split; repeat constructor.
Qed.

(** The retry loop of one chunk sleeps 0, 2 or 6 seconds, in sleeps of 2 and
    4 seconds, and makes at most three calls. *)
Lemma retry_loop_budget w E i chunk acc :
  let ev := events (retry_loop w E i chunk (py_range 0 max_retries 1) 2 acc) in
  (0 <= total_sleep ev <= 6)%Z /\
  Forall (fun e => forall s, e = Sleep s -> s = 2%Z \/ s = 4%Z) ev /\
  count is_net ev <= 3.
Proof.
  cbn zeta. rewrite retry_loop_closed.
  pose proof (translate_chunk_no_sleep w E i 0 chunk) as [S0 F0].
  pose proof (translate_chunk_no_sleep w E i 1 chunk) as [S1 F1].
  pose proof (translate_chunk_no_sleep w E i 2 chunk) as [S2 F2].
  pose proof (translate_chunk_count_net w E i 0 chunk) as N0.
  pose proof (translate_chunk_count_net w E i 1 chunk) as N1.
  pose proof (translate_chunk_count_net w E i 2 chunk) as N2.
  assert (Hnosleep : forall l, Forall (fun e => is_sleep e = false) l ->
            Forall (fun e => forall s, e = Sleep s -> s = 2%Z \/ s = 4%Z) l).
  { intros l Hl. eapply Forall_impl; [exact Hl|].
    intros e He s ->. discriminate He. }
  apply Hnosleep in F0, F1, F2.
  assert (Hstatus : forall m s, StatusUpdate m = Sleep s -> s = 2%Z \/ s = 4%Z)
    by (intros; discriminate).
  assert (Hs2 : forall s, Sleep 2 = Sleep s -> s = 2%Z \/ s = 4%Z)
    by (intros s Hs; injection Hs as <-; auto).
  assert (Hs4 : forall s, Sleep 4 = Sleep s -> s = 2%Z \/ s = 4%Z)
    by (intros s Hs; injection Hs as <-; auto).
  destruct (_translate_chunk w E i 0 chunk) as [ev0 [t0|x0]];
    [|destruct (_translate_chunk w E i 1 chunk) as [ev1 [t1|x1]];
      [|destruct (_translate_chunk w E i 2 chunk) as [ev2 [t2|x2]]]];
    unfold events, result, retry_pause in *; cbn [fst snd] in *;
    rewrite ?total_sleep_app; cbn [total_sleep app];
    rewrite ?total_sleep_app; cbn [total_sleep app];
    rewrite ?S0, ?S1, ?S2;
    (split; [lia|]);
    (split;
     [repeat (rewrite Forall_app || rewrite Forall_cons);
      repeat split; try assumption; try apply Forall_nil;
      try (intros s Hs; discriminate Hs);
      intros s Hs; injection Hs as <-; auto
     |repeat (rewrite count_app || rewrite count_cons || rewrite count_nil);
      cbn [is_net]; lia]).
Qed.

Lemma chunk_loop_budget w E n chunks : forall i acc,
  let ev := events (chunk_loop w E n i chunks acc) in
  (0 <= total_sleep ev <= 6 * Z.of_nat (length chunks))%Z /\
  Forall (fun e => forall s, e = Sleep s -> s = 2%Z \/ s = 4%Z) ev /\
  count is_net ev <= 3 * length chunks.
Proof.
  induction chunks as [|chunk rest IH]; intros i acc; cbn zeta.
  - cbn. repeat split; try lia. constructor.
  - pose proof (retry_loop_budget w E i chunk acc) as (Hs & Hf & Hn).
    cbn zeta in Hs, Hf, Hn.
    assert (Hother : forall e, is_sleep e = false ->
              forall s, e = Sleep s -> s = 2%Z \/ s = 4%Z).
    { intros e He s ->. discriminate He. }
    chunk_step w E n i chunk acc; unfold chunk_start;
      cbn [app total_sleep length];
      repeat (rewrite total_sleep_app; cbn [total_sleep]);
      repeat (rewrite count_app || rewrite count_cons || rewrite count_nil);
      cbn [is_net];
      try match goal with
          | |- context [chunk_loop w E ?N (i + 1) rest ?a] =>
              destruct (IH (i + 1) a) as (IHs & IHf & IHn)
          end;
      (split; [lia|]);
      (split; [|lia]);
      repeat (rewrite Forall_app || rewrite Forall_cons);
      repeat split; try assumption; try apply Forall_nil; try exact I;
      try (intros s0 Hs0; discriminate Hs0).
Qed.

(** X5.  A run never sleeps for anything but 2 or 4 seconds, sleeps at
    most 6 seconds per chunk, and makes at most 3 backend calls per chunk. *)
Theorem sleep_and_call_budget (w : TranslationWorker) (E : env) :
  (forall s, Sleep s ∈ run w E -> s = 2%Z \/ s = 4%Z) /\
  (0 <= total_sleep (run w E) <= 6 * Z.of_nat (length (make_chunks (text w))))%Z /\
  count is_net (run w E) <= 3 * length (make_chunks (text w)).
Proof.
  pose proof (run_unfold w E _ eq_refl) as Hrun.
  pose proof (chunk_loop_budget w E (length (make_chunks (text w)))
                (make_chunks (text w)) 0 []) as (Hs & Hf & Hn).
  cbn zeta in Hs, Hf, Hn.
  destruct (chunk_loop w E (length (make_chunks (text w))) 0
              (make_chunks (text w)) []) as [ev r].
  unfold events, result in *. cbn [fst snd] in *.
  rewrite Hrun. split; [|split].
  - intros s. rewrite elem_of_cons, elem_of_app.
    intros [H|[H|H]]; [discriminate H| |].
    + rewrite Forall_forall in Hf. apply (Hf _ H). reflexivity.
    + destruct r as [[t|]|e];
        rewrite ?list_elem_of_singleton in H; try discriminate H.
      apply elem_of_nil in H. contradiction.
  - cbn [total_sleep]. rewrite total_sleep_app.
    destruct r as [[t|]|e]; cbn [total_sleep]; rewrite Z.add_0_r; exact Hs.
  - rewrite count_cons, count_app. cbn [is_net].
    destruct r as [[t|]|e]; rewrite ?count_cons, ?count_nil; cbn [is_net];
      cbn [Nat.add]; rewrite ?Nat.add_0_r; exact Hn.
Qed.

Lemma sleep_and_call_witness :
  2%Z = 2%Z \/ 2%Z = 4%Z.
Proof.
  apply (proj1 (sleep_and_call_budget (worker_hi (lit "googletrans") [])
                  (env_raising (lit "boom"))) 2%Z).
  apply list_elem_of_lookup. exists 5. reflexivity.
Defined.

(** X6.  For the empty text a run makes no call and reads no flag: it
    announces 0 chunks and delivers Success with the empty string, whatever
    the backend, the key and the world. *)
Theorem empty_text_succeeds_at_once (w : TranslationWorker) (E : env) :
  text w = [] ->
  run w E = [StatusUpdate (lit "Translating 0 chunk(s)..."); TranslationDone []].
Proof.
  intros Htext. rewrite (run_unfold w E [] ); [reflexivity|].
  rewrite Htext. reflexivity.
Qed.

Lemma empty_text_witness :
  run {| text := []; target_lang := lit "es";
         translation_backend := lit "bing"; deepl_api_key := [] |}
      (env_raising (lit "boom"))
  = [StatusUpdate (lit "Translating 0 chunk(s)..."); TranslationDone []].
Proof. apply empty_text_succeeds_at_once. reflexivity. Defined.

(** ** The delivered text is trimmed *)

Lemma lstrip_decompose s :
  exists pre, s = pre ++ lstrip s /\ forallb isspace pre = true.
Proof.
  induction s as [|c s (pre & Hs & Hpre)]; [exists []; split; reflexivity|].
  cbn [lstrip]. destruct (isspace c) eqn:Hc.
  - exists (c :: pre). cbn [app forallb]. rewrite Hc, Hpre.
    split; [f_equal; exact Hs|reflexivity].
  - exists []. split; reflexivity.
Qed.

Lemma lstrip_head s c : head (lstrip s) = Some c -> isspace c = false.
Proof.
  induction s as [|a s IH]; [discriminate|]. cbn [lstrip].
  destruct (isspace a) eqn:Ha; [exact IH|].
  cbn. intros H. injection H as <-. exact Ha.
Qed.

Lemma lstrip_id s :
  (forall c, head s = Some c -> isspace c = false) -> lstrip s = s.
Proof.
  destruct s as [|a s]; [reflexivity|]. intros H. cbn [lstrip].
  rewrite (H a eq_refl). reflexivity.
Qed.

Lemma last_rev {A} (l : list A) : last (rev l) = head l.
Proof. destruct l as [|a l]; [reflexivity|]. cbn [rev]. apply last_snoc. Qed.

Lemma head_rev {A} (l : list A) : head (rev l) = last l.
Proof. rewrite <- (rev_involutive l) at 2. symmetry. apply last_rev. Qed.

Lemma forallb_rev {A} (p : A -> bool) (l : list A) :
  forallb p (rev l) = forallb p l.
Proof.
  induction l as [|a l IH]; [reflexivity|].
  cbn [rev forallb]. rewrite forallb_app, IH. cbn [forallb].
  destruct (p a), (forallb p l); reflexivity.
Qed.

Lemma rstrip_decompose u :
  exists post, u = rstrip u ++ post /\ forallb isspace post = true.
Proof.
  destruct (lstrip_decompose (rev u)) as (pre & Hu & Hpre).
  exists (rev pre). split; [|rewrite forallb_rev; exact Hpre].
  unfold rstrip. rewrite <- rev_app_distr, <- Hu, rev_involutive. reflexivity.
Qed.

Lemma rstrip_last u c : last (rstrip u) = Some c -> isspace c = false.
Proof. unfold rstrip. rewrite last_rev. apply lstrip_head. Qed.

Lemma rstrip_id s :
  (forall c, last s = Some c -> isspace c = false) -> rstrip s = s.
Proof.
  intros H. unfold rstrip. rewrite lstrip_id; [apply rev_involutive|].
  intros c. rewrite head_rev. apply H.
Qed.

Lemma strip_trimmed t :
  (forall c, head (strip t) = Some c -> isspace c = false) /\
  (forall c, last (strip t) = Some c -> isspace c = false).
Proof.
  unfold strip. split; [|apply rstrip_last].
  intros c Hc.
  destruct (rstrip_decompose (lstrip t)) as (post & Hu & _).
  apply (lstrip_head t). rewrite Hu, head_app, Hc. reflexivity.
Qed.

Lemma strip_decompose t :
  exists pre post,
    t = pre ++ strip t ++ post
    /\ forallb isspace pre = true /\ forallb isspace post = true.
Proof.
  destruct (lstrip_decompose t) as (pre & Ht & Hpre).
  destruct (rstrip_decompose (lstrip t)) as (post & Hu & Hpost).
  exists pre, post. unfold strip. rewrite <- Hu. auto.
Qed.

(** X7.  The text a run delivers with Success never starts or ends with
    whitespace, and stripping it again changes nothing. *)
Theorem success_text_is_trimmed (w : TranslationWorker) (E : env) (s : str) :
  outcomes (run w E) = [Success s] ->
  (forall c, head s = Some c -> isspace c = false) /\
  (forall c, last s = Some c -> isspace c = false) /\
  strip s = s.
Proof.
  rewrite run_outcomes. intros H.
  destruct (result _) as [[t|]|e]; cbn in H; try discriminate H.
  injection H as <-.
  destruct (strip_trimmed t) as [Hhead Hlast].
  split; [exact Hhead|]. split; [exact Hlast|].
  unfold strip at 1. rewrite (lstrip_id _ Hhead). apply rstrip_id. exact Hlast.
Qed.

Lemma success_text_is_trimmed_witness : strip (lit "hola") = lit "hola".
Proof.
  apply (success_text_is_trimmed (worker_hi (lit "googletrans") [])
           (env_returning (lit " hola")) (lit "hola")).
  reflexivity.
Defined.

(** ** Each chunk is a slice of the text *)

Lemma range_from_lookup fuel : forall i stop step j x,
  0 < step -> stop - i <= fuel ->
  range_from fuel i stop step !! j = Some x <-> x = i + j * step /\ x < stop.
Proof.
  induction fuel as [|fuel IH]; intros i stop step j x Hstep Hfuel.
  - cbn. split; [discriminate|]. intros [-> H]. lia.
  - cbn [range_from]. destruct (Nat.ltb_spec i stop) as [Hlt|Hge].
    + destruct j as [|j]; cbn [lookup list_lookup].
      * split; [intros H; injection H as <-; lia|].
        intros [-> _]. f_equal. lia.
      * change (range_from fuel (i + step) stop step !! j = Some x
                <-> x = i + S j * step /\ x < stop).
        rewrite IH by lia. cbn [Nat.mul]. split; intros [-> H]; split; lia.
    + cbn. split; [discriminate|]. intros [-> H]. lia.
Qed.

Lemma chunks_of_lookup {A} (text : list A) size j chunk :
  0 < size ->
  chunks_of size text !! j = Some chunk <->
  j * size < length text /\ chunk = take size (drop (j * size) text).
Proof.
  intros Hsize. unfold chunks_of, py_range.
  rewrite list_lookup_fmap_Some. split.
  - intros (x & -> & Hx).
    apply range_from_lookup in Hx as [-> Hlt]; [|exact Hsize|lia].
    cbn [Nat.add]. split; [exact Hlt|apply py_slice_step].
  - intros [Hlt ->]. exists (j * size). split; [symmetry; apply py_slice_step|].
    apply range_from_lookup; [exact Hsize|lia|]. cbn [Nat.add]. split; [reflexivity|exact Hlt].
Qed.

(** X8.  The chunk of index [i] exists exactly when [4500 * i] is less than
    the length of the text, and is then the slice [text[4500*i : 4500*i +
    4500]]: it is never empty, and every chunk but the last has exactly
    4500 characters. *)
Theorem chunk_is_slice {A} (text : list A) (i : nat) (chunk : list A) :
  (make_chunks text !! i = Some chunk <->
   i * 4500 < length text /\ chunk = take 4500 (drop (i * 4500) text)) /\
  (make_chunks text !! i = Some chunk ->
   chunk <> [] /\
   length chunk = Nat.min 4500 (length text - i * 4500) /\
   (i + 1 < length (make_chunks text) -> length chunk = 4500)).
Proof.
  assert (Hlookup : make_chunks text !! i = Some chunk <->
            i * 4500 < length text /\ chunk = take 4500 (drop (i * 4500) text)).
  { unfold make_chunks. apply chunks_of_lookup. unfold CHUNK_SIZE. lia. }
  split; [exact Hlookup|].
  intros Hc. apply Hlookup in Hc as [Hlt ->].
  assert (Hlen : length (take 4500 (drop (i * 4500) text))
                 = Nat.min 4500 (length text - i * 4500)).
  { rewrite length_take, length_drop. reflexivity. }
  split; [|split; [exact Hlen|]].
  - intros Hnil. apply (f_equal length) in Hnil. rewrite Hlen in Hnil.
    cbn [length] in Hnil. lia.
  - intros Hnext. rewrite Hlen.
    pose proof (make_chunks_bracket text) as [_ Hb]. lia.
Qed.

Lemma chunk_is_slice_witness :
  lit "hi" <> [] /\
  length (lit "hi") = Nat.min 4500 (length (lit "hi") - 0 * 4500) /\
  (0 + 1 < length (make_chunks (lit "hi")) -> length (lit "hi") = 4500).
Proof.
  apply (proj2 (chunk_is_slice (lit "hi") 0 (lit "hi"))). reflexivity.
Defined.

(** ** Progress values stay in the range of the progress bar *)

Lemma percentZ_nonneg k n : (0 <= k)%Z -> (0 < n)%Z -> (0 <= percentZ k n)%Z.
Proof.
  intros Hk Hn. unfold percentZ, float_mul.
  pose proof float_100 as Hc.
  pose proof (ratio_nonneg k n Hk Hn) as Hx.
  pose proof (binary64_round_nonneg _ Hx) as Hq0.
  set (q := binary64_round (inject_Z k / inject_Z n)) in *.
  set (c := float_of_int 100) in *.
  assert (Hz0 : (0 <= q * c)%Q) by (rewrite Hc; nra).
  pose proof (binary64_round_nonneg _ Hz0) as Hy0.
  rewrite int_of_float_nonneg by exact Hy0.
  change 0%Z with (Qfloor 0). apply Qfloor_resp_le. exact Hy0.
Qed.

Lemma percent_range k n : k <= n -> 0 < n -> (0 <= percent k n <= 100)%Z.
Proof.
  intros Hk Hn. unfold percent. split.
  - apply percentZ_nonneg; lia.
  - rewrite <- (percentZ_full (Z.of_nat n)) by lia.
    apply percentZ_mono; lia.
Qed.

Lemma run_progress_values w E :
  progress_values (run w E)
  = map (fun i => percent (i + 1) (length (make_chunks (text w))))
        (seq 0 (count is_returned (run w E))).
Proof.
  destruct (run_progress w E) as (_ & Hlog & _).
  rewrite (progress_values_log _ None), Hlog.
  rewrite <- list_fmap_compose. reflexivity.
Qed.

(** X9.  Whatever the length of the text and whatever the backend answers,
    every progress value a run emits lies between 0 and 100, and the run
    emits exactly one progress value for each backend call that returned. *)
Theorem progress_stays_within_0_100 (w : TranslationWorker) (E : env) :
  Forall (fun p => (0 <= p <= 100)%Z) (progress_values (run w E)) /\
  length (progress_values (run w E)) = count is_returned (run w E).
Proof.
  destruct (run_progress w E) as (Hmn & _ & _). cbn zeta in Hmn.
  rewrite run_progress_values. split.
  - apply Forall_forall. intros p Hp.
    apply list_elem_of_fmap in Hp as (j & -> & Hj).
    apply list_elem_of_In, in_seq in Hj.
    apply percent_range; lia.
  - rewrite length_map, length_seq. reflexivity.
Qed.

(** ** The slots of the worker's signals *)

Ltac unfold_slots :=
  unfold handle_signal, show_status, update_progress, translation_finished,
    translation_error, source_edited, on_app, open_settings, get_settings,
    observe_thread, progress_bar_setValue in *.

(** Projections of records and of the setters; a setter is only unfolded
    under a projection. *)
Ltac fields :=
  cbn [window_app char_count_label window pending
       source_text target_lang_name lang_map worker app_translation_backend
       app_deepl_api_key progress_bar_visible progress_bar_value
       translate_button_enabled translate_button_text status_label target_text
       set_source_text set_target_lang_name set_worker
       set_app_translation_backend set_app_deepl_api_key
       set_progress_bar_visible set_progress_bar_value
       set_translate_button_enabled set_translate_button_text
       set_status_label set_target_text
       fst snd] in *.

Lemma handle_signal_keeps win e :
  let app := window_app win in
  let app' := window_app (handle_signal win e) in
  source_text app' = source_text app /\ worker app' = worker app
  /\ app_translation_backend app' = app_translation_backend app
  /\ app_deepl_api_key app' = app_deepl_api_key app
  /\ target_lang_name app' = target_lang_name app
  /\ lang_map app' = lang_map app.
Proof.
  destruct e; unfold_slots; try destruct (_ && _); fields;
    repeat split; reflexivity.
Qed.

Lemma handle_quiet_keeps win e :
  is_outcome_signal e = false ->
  let app := window_app win in
  let app' := window_app (handle_signal win e) in
  translate_button_enabled app' = translate_button_enabled app
  /\ translate_button_text app' = translate_button_text app
  /\ progress_bar_visible app' = progress_bar_visible app
  /\ target_text app' = target_text app
  /\ char_count_label (handle_signal win e) = char_count_label win.
Proof.
  destruct e; try discriminate; intros _; unfold_slots; try destruct (_ && _);
    fields; repeat split; reflexivity.
Qed.


Lemma signals_app t1 t2 : signals (t1 ++ t2) = signals t1 ++ signals t2.
Proof. unfold signals. apply filter_app. Qed.

Lemma signals_quiet tr :
  Forall (fun e => is_outcome_signal e = false) tr ->
  Forall (fun e => is_outcome_signal e = false) (signals tr).
Proof.
  intros H. apply Forall_forall. intros e He.
  apply list_elem_of_filter in He as [_ He].
  rewrite Forall_forall in H. apply H. exact He.
Qed.

Lemma outcomes_nil_quiet tr :
  outcomes tr = [] -> Forall (fun e => is_outcome_signal e = false) tr.
Proof.
  induction tr as [|e tr IH]; intros H; [constructor|].
  destruct e; cbn [outcomes] in H; try discriminate H;
    constructor; auto.
Qed.

Lemma outcome_last_app quiet final :
  Forall (fun e => is_outcome_signal e = false) quiet ->
  length final <= 1 ->
  outcome_last (quiet ++ final).
Proof.
  intros Hq Hf. induction Hq as [|e quiet He _ IH]; cbn [app outcome_last].
  - destruct final as [|o [|o' final]]; cbn [outcome_last length] in *;
      [exact I|auto|lia].
  - split; [congruence|exact IH].
Qed.

Lemma outcome_last_count l :
  outcome_last l ->
  length (filter (fun e => is_outcome_signal e = true) l) <= 1.
Proof.
  induction l as [|e l IH]; [cbn; lia|].
  intros [He Hl]. destruct (is_outcome_signal e) eqn:Hoc.
  - rewrite (He eq_refl), filter_cons_True by exact Hoc. cbn. lia.
  - rewrite filter_cons_False by congruence. apply IH. exact Hl.
Qed.

(** A trace is its quiet part followed by its outcome signal, if any. *)
Lemma run_split w E :
  exists quiet,
    run w E = quiet ++ map event_of_outcome (outcomes (run w E))
    /\ Forall (fun e => is_outcome_signal e = false) quiet
    /\ length (outcomes (run w E)) <= 1.
Proof.
  pose proof (run_outcomes w E) as Hout.
  pose proof (run_unfold w E _ eq_refl) as Hrun.
  pose proof (chunk_loop_outcomes w E (length (make_chunks (text w)))
                (make_chunks (text w)) 0 []) as Hquiet.
  destruct (chunk_loop w E (length (make_chunks (text w))) 0
              (make_chunks (text w)) []) as [ev r].
  unfold events, result in *. cbn [fst snd] in *.
  exists (StatusUpdate (translating_status (length (make_chunks (text w)))) :: ev).
  rewrite Hout. split; [|split].
  - rewrite Hrun. destruct r as [[t|]|e]; reflexivity.
  - constructor; [reflexivity|]. apply outcomes_nil_quiet. exact Hquiet.
  - destruct r as [[t|]|e]; cbn; lia.
Qed.

Lemma signals_outcomes os :
  signals (map event_of_outcome os) = map event_of_outcome os.
Proof.
  induction os as [|[] os IH]; [reflexivity| |];
    cbn [map event_of_outcome]; unfold signals in *;
    rewrite filter_cons_True by reflexivity; f_equal; exact IH.
Qed.

Lemma signals_run_split w E :
  exists quiet,
    signals (run w E) = quiet ++ map event_of_outcome (outcomes (run w E))
    /\ Forall (fun e => is_outcome_signal e = false) quiet
    /\ length (outcomes (run w E)) <= 1.
Proof.
  destruct (run_split w E) as (quiet & Hrun & Hq & Hlen).
  exists (signals quiet). split; [|split; [apply signals_quiet; exact Hq|exact Hlen]].
  rewrite Hrun at 1. rewrite signals_app, signals_outcomes. reflexivity.
Qed.

Lemma signals_run_outcome_last w E : outcome_last (signals (run w E)).
Proof.
  destruct (signals_run_split w E) as (quiet & -> & Hq & Hlen).
  apply outcome_last_app; [exact Hq|]. rewrite length_map. exact Hlen.
Qed.

(** ** [translate_text], case by case *)

Lemma translate_text_rejected app :
  source_text app = [] \/ source_text app = PLACEHOLDER ->
  translate_text app = (set_status_label please_enter_text app, []).
Proof.
  intros Hsrc. unfold translate_text, str_eqb.
  assert (Hguard : bool_decide (source_text app = [])
                   || bool_decide (source_text app = PLACEHOLDER) = true).
  { destruct Hsrc as [H|H]; rewrite H; reflexivity. }
  rewrite Hguard. reflexivity.
Qed.

Lemma translate_text_accepted app :
  source_text app <> [] -> source_text app <> PLACEHOLDER ->
  let w := {| text := source_text app;
              target_lang := dict_get (lang_map app) (target_lang_name app) (lit "en");
              translation_backend := app_translation_backend app;
              deepl_api_key := app_deepl_api_key app |} in
  exists cleanup,
    started cleanup = []
    /\ translate_text app =
       (set_status_label (lit "Translating to " ++ target_lang_name app ++ lit "...")
          (set_translate_button_text (lit "Translating...")
             (set_translate_button_enabled false
                (set_progress_bar_value 0
                   (set_progress_bar_visible true
                      (set_worker (Some {| handle_worker := w;
                                           handle_is_running := true;
                                           handle_thread_running := true |})
                         app))))),
        cleanup ++ [WorkerStart w]).
Proof.
  intros Hne Hph w. unfold translate_text, str_eqb.
  rewrite !bool_decide_eq_false_2 by assumption. cbn [orb].
  eexists. split; [|reflexivity].
  destruct (worker app) as [old|]; [destruct (handle_thread_running old)|];
    reflexivity.
Qed.

Lemma source_cases (s : str) :
  (s = [] \/ s = PLACEHOLDER) \/ (s <> [] /\ s <> PLACEHOLDER).
Proof.
  destruct (decide (s = [])) as [H|H]; [left; left; exact H|].
  destruct (decide (s = PLACEHOLDER)) as [H'|H']; [left; right; exact H'|].
  right. split; assumption.
Qed.

Lemma started_app a1 a2 : started (a1 ++ a2) = started a1 ++ started a2.
Proof. unfold started. apply omap_app. Qed.

Lemma observe_thread_keeps b app :
  source_text (observe_thread b app) = source_text app
  /\ app_translation_backend (observe_thread b app) = app_translation_backend app
  /\ app_deepl_api_key (observe_thread b app) = app_deepl_api_key app
  /\ translate_button_enabled (observe_thread b app) = translate_button_enabled app
  /\ target_text (observe_thread b app) = target_text app.
Proof.
  unfold observe_thread. destruct (worker app); unfold_slots; fields;
    repeat split; reflexivity.
Qed.

(** ** One run at a time *)

Lemma session_ok_idle win : session_ok {| window := win; pending := [] |}.
Proof.
  split; [reflexivity|]. split; [exact I|]. intros H. contradiction H. reflexivity.
Qed.

Lemma started_start w : started [WorkerStart w] = [w].
Proof. reflexivity. Qed.

Lemma click_accepted_ok s E b :
  pending s = [] ->
  source_text (window_app (window s)) <> [] ->
  source_text (window_app (window s)) <> PLACEHOLDER ->
  translate_button_enabled (window_app (window s)) = true ->
  session_ok (ui_step s (ClickTranslate E b)).1.
Proof.
  intros Hp Hne Hph Hen. cbn [ui_step]. rewrite Hen.
  destruct (observe_thread_keeps b (window_app (window s))) as (Hsrc & _).
  destruct (translate_text_accepted (observe_thread b (window_app (window s))))
    as (cleanup & Hclean & ->); [rewrite Hsrc; exact Hne|rewrite Hsrc; exact Hph|].
  rewrite started_app, Hclean, Hp, started_start. cbn [app flat_map fst].
  rewrite app_nil_r. split; [|split].
  - intros H. fields. discriminate H.
  - fields. apply signals_run_outcome_last.
  - intros _. unfold_slots. fields. eexists _, E. split; [reflexivity|].
    cbn [handle_worker]. exists []. reflexivity.
Qed.

Lemma click_rejected s E b :
  source_text (window_app (window s)) = []
  \/ source_text (window_app (window s)) = PLACEHOLDER ->
  translate_button_enabled (window_app (window s)) = true ->
  pending (ui_step s (ClickTranslate E b)).1 = pending s
  /\ (ui_step s (ClickTranslate E b)).2 = [].
Proof.
  intros Hsrc Hen. cbn [ui_step]. rewrite Hen.
  destruct (observe_thread_keeps b (window_app (window s))) as (Hs & _).
  rewrite translate_text_rejected by (rewrite Hs; exact Hsrc).
  cbn [started omap flat_map fst snd pending]. rewrite app_nil_r. split; reflexivity.
Qed.

Lemma ui_step_ok s input : session_ok s -> session_ok (ui_step s input).1.
Proof.
  intros (Hidle & Hlast & Hfrom).
  destruct input as [E b| |r|new_text|name|msg].
  - destruct (translate_button_enabled (window_app (window s))) eqn:Hen.
    + destruct (source_cases (source_text (window_app (window s))))
        as [Hsrc|[Hne Hph]].
      * destruct (click_rejected s E b Hsrc Hen) as [Hp _].
        assert (Hnil : pending (ui_step s (ClickTranslate E b)).1 = [])
          by (rewrite Hp; apply Hidle; reflexivity).
        destruct (ui_step s (ClickTranslate E b)).1 as [win p].
        cbn [pending] in Hnil. subst p. apply session_ok_idle.
      * apply click_accepted_ok; auto.
    + cbn [ui_step]. rewrite Hen. cbn [fst].
      split; [intros H; congruence|split; assumption].
  - cbn [ui_step]. destruct (pending s) as [|e rest] eqn:Hp.
    + cbn [fst]. split; [intros _; exact Hp|].
      split; [rewrite Hp; exact I|exact Hfrom].
    + cbn [fst]. destruct Hlast as [He Hrest].
      destruct (is_outcome_signal e) eqn:Hoc.
      * rewrite (He eq_refl). apply session_ok_idle.
      * destruct (handle_quiet_keeps (window s) e Hoc) as (Hen & _).
        destruct (handle_signal_keeps (window s) e) as (_ & Hw & _).
        cbn zeta in Hen, Hw. split; [|split].
        -- fields. rewrite Hen. intros H. discriminate (Hidle H).
        -- fields. exact Hrest.
        -- intros _. fields. rewrite Hw.
           destruct Hfrom as (h & E & Hh & k & Hk); [rewrite Hp; discriminate|].
           exists h, E. split; [exact Hh|].
           exists (k ++ [e]). rewrite Hk, Hp, <- app_assoc. reflexivity.
  - cbn [ui_step fst]. destruct r as [d|]; unfold from_current_worker in *;
      unfold_slots; fields; (split; [|split]); assumption.
  - cbn [ui_step fst]. unfold from_current_worker in *;
      unfold_slots; fields; (split; [|split]); assumption.
  - cbn [ui_step fst]. unfold from_current_worker in *;
      unfold_slots; fields; (split; [|split]); assumption.
  - cbn [ui_step fst]. unfold from_current_worker in *;
      unfold_slots; fields; (split; [|split]); assumption.
Qed.

Lemma ui_run_cons s input rest :
  ui_run s (input :: rest)
  = ((ui_run (ui_step s input).1 rest).1,
     (ui_step s input).2 ++ (ui_run (ui_step s input).1 rest).2).
Proof.
  cbn [ui_run]. destruct (ui_step s input) as [s' acts].
  cbn [fst snd]. destruct (ui_run s' rest) as [s'' acts']. reflexivity.
Qed.

Lemma ui_run_ok inputs : forall s,
  session_ok s -> session_ok (ui_run s inputs).1.
Proof.
  induction inputs as [|input rest IH]; intros s Hs; [exact Hs|].
  rewrite ui_run_cons. cbn [fst]. apply IH, ui_step_ok, Hs.
Qed.

Lemma ui_step_actions s input :
  (ui_step s input).2 <> [] ->
  translate_button_enabled (window_app (window s)) = true.
Proof.
  destruct input as [E b| |r|new_text|name|msg]; cbn [ui_step];
    try (intros H; contradiction H; reflexivity).
  - destruct (translate_button_enabled (window_app (window s)));
      [reflexivity|intros H; contradiction H; reflexivity].
  - destruct (pending s); intros H; contradiction H; reflexivity.
Qed.

(** X10.  One run at a time.  While signals of a run wait for their slots,
    the translate button is disabled and a click on it does nothing; so a
    worker is stopped and the next one started only when every signal of
    the earlier runs has been handled.  The signals that wait were all
    emitted by the worker the window holds, and at most one of them, the
    last, delivers an outcome. *)
Theorem one_run_at_a_time (s0 : session) (inputs : list ui_input) :
  pending s0 = [] ->
  let s := (ui_run s0 inputs).1 in
  (translate_button_enabled (window_app (window s)) = true -> pending s = []) /\
  (pending s <> [] -> forall E b, ui_step s (ClickTranslate E b) = (s, [])) /\
  (forall input, (ui_step s input).2 <> [] -> pending s = []) /\
  (pending s <> [] ->
   exists h E, worker (window_app (window s)) = Some h
               /\ pending s `suffix_of` signals (run (handle_worker h) E)) /\
  outcome_last (pending s) /\
  length (filter (fun e => is_outcome_signal e = true) (pending s)) <= 1.
Proof.
  intros Hp s.
  assert (Hok : session_ok s).
  { apply ui_run_ok. destruct s0 as [win p]. cbn [pending] in Hp. subst p.
    apply session_ok_idle. }
  destruct Hok as (Hidle & Hlast & Hfrom).
  split; [exact Hidle|]. split; [|split; [|split; [exact Hfrom|split]]].
  - intros Hne E b. cbn [ui_step].
    destruct (translate_button_enabled (window_app (window s))) eqn:Hen;
      [|reflexivity].
    contradiction Hne. apply Hidle. reflexivity.
  - intros input Hact. apply Hidle. apply (ui_step_actions s input). exact Hact.
  - exact Hlast.
  - apply outcome_last_count. exact Hlast.
Qed.

Lemma one_run_at_a_time_witness :
  let s := (ui_run initial_session
              [EditSource (lit "hi");
               ClickTranslate (env_returning (lit "hola")) false;
               HandleSignal]).1 in
  pending s <> [] /\
  forall E b, ui_step s (ClickTranslate E b) = (s, []).
Proof.
  cbn zeta. split; [vm_compute; discriminate|].
  apply (proj1 (proj2
    (one_run_at_a_time initial_session
       [EditSource (lit "hi");
        ClickTranslate (env_returning (lit "hola")) false;
        HandleSignal] eq_refl))).
  vm_compute. discriminate.
Defined.

(** ** The workers the window starts *)

Lemma translate_chunk_recognised w E i a chunk :
  recognised (translation_backend w) ->
  (exists call,
     sends w E chunk call
     /\ _translate_chunk w E i a chunk
        = ([Net i a call (backend_reply E i a call)],
           reply_res (backend_reply E i a call)))
  \/ (translation_backend w = lit "deepl" /\ deepl_api_key w = []
      /\ _translate_chunk w E i a chunk = ([], Exc deepl_key_required)).
Proof.
  intros [Hb|[Hb|Hb]].
  - left. eexists. split; [left; split; [exact Hb|reflexivity]|].
    unfold _translate_chunk, str_eqb. rewrite Hb. reflexivity.
  - left. eexists. split; [right; left; split; [exact Hb|reflexivity]|].
    unfold _translate_chunk, str_eqb. rewrite Hb. reflexivity.
  - destruct (decide (deepl_api_key w = [])) as [Hk|Hk].
    + right. split; [exact Hb|]. split; [exact Hk|].
      apply translate_chunk_deepl_no_key; assumption.
    + left. eexists. split.
      * right; right. split; [exact Hb|]. split; [exact Hk|reflexivity].
      * unfold _translate_chunk, _translate_with_deepl, str_eqb. rewrite Hb.
        rewrite (bool_decide_eq_false_2 (deepl_api_key w = [])) by exact Hk.
        reflexivity.
Qed.

Lemma get_settings_recognised d : recognised (get_settings d).1.
Proof.
  unfold get_settings, recognised. cbn [fst].
  destruct (radio_googletrans d); [auto|].
  destruct (radio_deep_translator d); auto.
Qed.

(** The settings a step leaves: those of the dialog if it is a save. *)
Lemma ui_step_settings s input :
  let app := window_app (window s) in
  let app' := window_app (window (ui_step s input).1) in
  (app_translation_backend app', app_deepl_api_key app')
  = match saved input with
    | Some d => get_settings d
    | None => (app_translation_backend app, app_deepl_api_key app)
    end.
Proof.
  cbn zeta.
  destruct input as [E b| |r|new_text|name|msg]; cbn [ui_step saved].
  - destruct (translate_button_enabled (window_app (window s))); [|reflexivity].
    destruct (observe_thread_keeps b (window_app (window s)))
      as (Hsrc & Hback & Hkey & _).
    destruct (source_cases (source_text (window_app (window s))))
      as [Hrej|[Hne Hph]].
    + rewrite translate_text_rejected by (rewrite Hsrc; exact Hrej).
      fields. rewrite Hback, Hkey. reflexivity.
    + destruct (translate_text_accepted (observe_thread b (window_app (window s))))
        as (cleanup & Hclean & ->);
        [rewrite Hsrc; exact Hne|rewrite Hsrc; exact Hph|].
      fields. rewrite Hback, Hkey. reflexivity.
  - destruct (pending s) as [|e rest]; cbn [fst]; [reflexivity|].
    destruct (handle_signal_keeps (window s) e) as (_ & _ & Hback & Hkey & _).
    cbn zeta in Hback, Hkey. fields. rewrite Hback, Hkey. reflexivity.
  - destruct r as [d|]; unfold on_app, open_settings, get_settings; fields;
      reflexivity.
  - unfold_slots. fields. reflexivity.
  - unfold_slots. fields. reflexivity.
  - unfold_slots. fields. reflexivity.
Qed.

Lemma last_saved_cons input rest :
  last_saved (input :: rest)
  = match last_saved rest with
    | Some d => Some d
    | None => saved input
    end.
Proof.
  unfold last_saved.
  assert (Hcons : omap saved (input :: rest)
                  = match saved input with
                    | Some d => d :: omap saved rest
                    | None => omap saved rest
                    end) by reflexivity.
  rewrite Hcons.
  destruct (saved input) as [d|]; [|destruct (last (omap saved rest)); reflexivity].
  destruct (omap saved rest) as [|d' l] eqn:Hl; [reflexivity|].
  change (last (d :: d' :: l)) with (last (d' :: l)).
  destruct (last (d' :: l)) eqn:Hlast; [reflexivity|].
  apply last_None in Hlast. discriminate Hlast.
Qed.

Lemma ui_run_settings inputs : forall s,
  let app := window_app (window s) in
  let app' := window_app (window (ui_run s inputs).1) in
  (app_translation_backend app', app_deepl_api_key app')
  = settings_after (app_translation_backend app) (app_deepl_api_key app) inputs.
Proof.
  induction inputs as [|input rest IH]; intros s; cbn zeta; [reflexivity|].
  rewrite ui_run_cons. cbn [fst]. rewrite (IH (ui_step s input).1).
  unfold settings_after. rewrite last_saved_cons.
  destruct (last_saved rest) as [d|]; [reflexivity|].
  pose proof (ui_step_settings s input) as Hstep. cbn zeta in Hstep.
  destruct (saved input) as [d|]; rewrite <- Hstep; reflexivity.
Qed.

(** A worker that is started is started by a click, from the window as the
    inputs before that click left it. *)
Lemma ui_run_started inputs : forall s w,
  w ∈ started (ui_run s inputs).2 ->
  exists before E b after,
    inputs = before ++ ClickTranslate E b :: after
    /\ let app := window_app (window (ui_run s before).1) in
       text w = source_text app
       /\ text w <> [] /\ text w <> PLACEHOLDER
       /\ translation_backend w = app_translation_backend app
       /\ deepl_api_key w = app_deepl_api_key app.
Proof.
  induction inputs as [|input rest IH]; intros s w Hw.
  - apply elem_of_nil in Hw. contradiction.
  - rewrite ui_run_cons in Hw. cbn [snd] in Hw.
    rewrite started_app in Hw. apply elem_of_app in Hw as [Hw|Hw].
    + destruct input as [E b| |r|new_text|name|msg]; cbn [ui_step] in Hw;
        try (apply elem_of_nil in Hw; contradiction).
      * exists [], E, b, rest. split; [reflexivity|]. cbn [ui_run fst].
        destruct (translate_button_enabled (window_app (window s)));
          [|apply elem_of_nil in Hw; contradiction].
        destruct (observe_thread_keeps b (window_app (window s)))
          as (Hsrc & Hback & Hkey & _).
        destruct (source_cases (source_text (window_app (window s))))
          as [Hrej|[Hne Hph]].
        -- rewrite translate_text_rejected in Hw by (rewrite Hsrc; exact Hrej).
           apply elem_of_nil in Hw. contradiction.
        -- destruct (translate_text_accepted
                       (observe_thread b (window_app (window s))))
             as (cleanup & Hclean & Heq);
             [rewrite Hsrc; exact Hne|rewrite Hsrc; exact Hph|].
           rewrite Heq in Hw. cbn [snd] in Hw.
           rewrite started_app, Hclean, started_start in Hw. cbn [app] in Hw.
           apply list_elem_of_singleton in Hw. subst w.
           cbn [text translation_backend deepl_api_key].
           rewrite Hsrc, Hback, Hkey. auto.
      * destruct (pending s); apply elem_of_nil in Hw; contradiction.
    + destruct (IH _ w Hw) as (before & E & b & after & -> & Hconf).
      exists (input :: before), E, b, after. split; [reflexivity|].
      rewrite ui_run_cons. exact Hconf.
Qed.

Lemma settings_after_recognised backend key inputs :
  recognised backend -> recognised (settings_after backend key inputs).1.
Proof.
  intros Hb. unfold settings_after.
  destruct (last_saved inputs) as [d|]; [apply get_settings_recognised|exact Hb].
Qed.

(** X11.  Every worker the window starts is started by a click on the
    translate button.  Its text is the text of the source box at that click,
    neither empty nor the placeholder, so it has at least one chunk.  Its
    backend and key are those of the last save of the settings dialog
    before that click (the selected radio button, and the content of the
    key field stripped), or those the window began with if there was no
    save.  The backend is one of the three the worker knows: each attempt
    of its run either sends the call of that backend or, for DeepL without
    a key, fails with the key-required message. *)
Theorem started_workers_are_well_configured
    (s0 : session) (inputs : list ui_input) (w : TranslationWorker) :
  recognised (app_translation_backend (window_app (window s0))) ->
  w ∈ started (ui_run s0 inputs).2 ->
  text w <> [] /\ text w <> PLACEHOLDER /\ make_chunks (text w) <> [] /\
  recognised (translation_backend w) /\
  (exists before E b after,
     inputs = before ++ ClickTranslate E b :: after
     /\ text w = source_text (window_app (window (ui_run s0 before).1))
     /\ match last_saved before with
        | Some d =>
            translation_backend w
            = (if radio_googletrans d then lit "googletrans"
               else if radio_deep_translator d then lit "deep-translator"
               else lit "deepl")
            /\ deepl_api_key w = strip (api_key_input d)
        | None =>
            translation_backend w = app_translation_backend (window_app (window s0))
            /\ deepl_api_key w = app_deepl_api_key (window_app (window s0))
        end) /\
  forall E i a chunk,
    (exists call,
       sends w E chunk call
       /\ _translate_chunk w E i a chunk
          = ([Net i a call (backend_reply E i a call)],
             reply_res (backend_reply E i a call)))
    \/ (translation_backend w = lit "deepl" /\ deepl_api_key w = []
        /\ _translate_chunk w E i a chunk = ([], Exc deepl_key_required)).
Proof.
  intros Hb Hw.
  destruct (ui_run_started inputs s0 w Hw)
    as (before & E & b & after & Hin & Htext & Hne & Hph & Hback & Hkey).
  pose proof (ui_run_settings before s0) as Hset. cbn zeta in Hset.
  rewrite <- Hback, <- Hkey in Hset.
  assert (Hrec : recognised (translation_backend w)).
  { change (translation_backend w) with (translation_backend w, deepl_api_key w).1.
    rewrite Hset. apply settings_after_recognised. exact Hb. }
  split; [exact Hne|]. split; [exact Hph|]. split.
  { destruct (make_chunks_cons (text w) Hne) as (chunk & rest & ->). discriminate. }
  split; [exact Hrec|]. split.
  { exists before, E, b, after. split; [exact Hin|]. split; [exact Htext|].
    unfold settings_after in Hset.
    destruct (last_saved before) as [d|]; unfold get_settings in Hset;
      injection Hset as -> ->; split; reflexivity. }
  intros E' i a chunk. apply translate_chunk_recognised. exact Hrec.
Qed.

Lemma started_workers_witness :
  let w := {| text := lit "hi"; target_lang := lit "es";
              translation_backend := lit "deepl"; deepl_api_key := lit "k" |} in
  text w <> [] /\ recognised (translation_backend w).
Proof.
  cbn zeta.
  pose proof (started_workers_are_well_configured initial_session
                [EditSource (lit "hi");
                 OpenSettings (Accepted (deepl_dialog (lit " k ")));
                 ClickTranslate (env_returning (lit "hola")) false]
                {| text := lit "hi"; target_lang := lit "es";
                   translation_backend := lit "deepl"; deepl_api_key := lit "k" |})
    as H.
  destruct H as (Hne & _ & _ & Hrec & _).
  - left. reflexivity.
  - apply list_elem_of_lookup. exists 0. vm_compute. reflexivity.
  - split; [exact Hne|exact Hrec].
Defined.

(** ** The window after a run *)













(** ** A key of blanks *)

Lemma lstrip_blank s : forallb isspace s = true -> lstrip s = [].
Proof.
  induction s as [|c s IH]; [reflexivity|].
  cbn [forallb lstrip]. intros H. apply andb_prop in H as [Hc Hs].
  rewrite Hc. apply IH. exact Hs.
Qed.

Lemma strip_blank s : forallb isspace s = true -> strip s = [].
Proof. intros H. unfold strip. rewrite lstrip_blank by exact H. reflexivity. Qed.

(** X13.  A DeepL key that consists of whitespace only counts as no key:
    saved in the settings with DeepL selected, it is stored as the empty
    string, and the next translation fails with the key-required message
    after its three attempts, without any call to the backend. *)
Theorem blank_deepl_key_counts_as_missing
    (a : TranslatorApp) (d : SettingsDialog) (E : env) :
  radio_googletrans d = false -> radio_deep_translator d = false ->
  forallb isspace (api_key_input d) = true ->
  source_text a <> [] -> source_text a <> PLACEHOLDER ->
  is_running E 0 = true ->
  let a' := open_settings a (Accepted d) in
  app_translation_backend a' = lit "deepl" /\
  app_deepl_api_key a' = [] /\
  exists w, started (translate_text a').2 = [w]
            /\ count is_net (run w E) = 0
            /\ outcomes (run w E) = [Failure (failed_after deepl_key_required)]
            /\ delivered E (translate_text a').2
               = [Failure (failed_after deepl_key_required)].
Proof.
  intros Hg Hd Hblank Hne Hph Hrun. cbn zeta.
  assert (Hback : app_translation_backend (open_settings a (Accepted d)) = lit "deepl").
  { unfold open_settings, get_settings. fields. rewrite Hg, Hd. reflexivity. }
  assert (Hkey : app_deepl_api_key (open_settings a (Accepted d)) = []).
  { unfold open_settings, get_settings. fields. apply strip_blank. exact Hblank. }
  assert (Hsrc : source_text (open_settings a (Accepted d)) = source_text a).
  { unfold open_settings, get_settings. fields. reflexivity. }
  split; [exact Hback|]. split; [exact Hkey|].
  destruct (translate_text_accepted (open_settings a (Accepted d)))
    as (cleanup & Hclean & Heq); [rewrite Hsrc; exact Hne|rewrite Hsrc; exact Hph|].
  rewrite Heq. cbn [snd]. unfold delivered.
  rewrite started_app, Hclean, started_start. cbn [app flat_map].
  rewrite app_nil_r, Hback, Hkey, Hsrc.
  set (w := {| text := source_text a;
               target_lang := _;
               translation_backend := lit "deepl";
               deepl_api_key := [] |}).
  destruct (run_local_failure w E deepl_key_required) as [Hnet Htrace].
  { intros i att chunk. apply translate_chunk_deepl_no_key; reflexivity. }
  specialize (Htrace Hne Hrun).
  assert (Hout : outcomes (run w E) = [Failure (failed_after deepl_key_required)])
    by (rewrite Htrace; reflexivity).
  exists w. split; [reflexivity|]. split; [exact Hnet|]. split; exact Hout.
Qed.

Lemma blank_deepl_key_witness :
  app_deepl_api_key
    (open_settings (fresh_app (lit "hi")) (Accepted (deepl_dialog (lit "  ")))) = [].
Proof.
  apply (blank_deepl_key_counts_as_missing (fresh_app (lit "hi"))
           (deepl_dialog (lit "  ")) (env_returning (lit "hola")));
    try reflexivity; vm_compute; discriminate.
Defined.
